(** * The output sink of libyang's printer ([src/printer.c])

    A shallow embedding of the sink [struct lyp_out] and of the operations
    that write to it: the raw write [lyp_write], the formatted write
    [lyp_print], the reservation of a hole [ly_write_skip], its backfill
    [ly_write_skipped], [lyp_out_reset] and [ly_print_flush].

    - [size_t] values are numbers of type [N]; every [size_t] addition and
      the decrement of the hole counter are written with their wrap-around
      at [2^64].
    - A memory block is the list of its cells; a cell that was allocated
      and never written is [Undef].  A pointer is [Null], a live [Block]
      or [Freed] (released by [free], the value the source keeps in
      [out->buffered] after [ly_print_flush]).
    - The target behind a sink (descriptor, stream or callback) is part of
      the [world]: the results its write primitive is going to give, and
      the byte strings it has been handed so far.
    - An operation ends in [Done] with its return value, in [Undefined]
      when the C code leaves defined behaviour (a copy outside a block, a
      released or null pointer dereferenced), or in [Starved] when the
      retry loop of [lyp_write] used up every result the world holds.
    - The operations are modelled on a sink that exists: the argument
      checks that turn a null handle away ([LY_CHECK_ARG_RET]) come before
      anything modelled here.  Logging has no effect on the state. *)

From Stdlib Require Import Strings.String Strings.Byte.
From Stdlib Require Import List NArith ZArith Lia Bool.
Import ListNotations.
Local Open Scope N_scope.

(** ** Machine data *)

(** [size_t] of the LP64 platforms the library is built for. *)
Definition SIZE_MOD : N := 2 ^ 64.

Definition size_t_add (a b : N) : N := (a + b) mod SIZE_MOD.

(** [--x] on a [size_t]. *)
Definition size_t_dec (a : N) : N := (a + (SIZE_MOD - 1)) mod SIZE_MOD.

(** [INT_MAX], the largest count [vasprintf] can report. *)
Definition INT_MAX : Z := 2147483647.

(** [errno] values of [<errno.h>] (Linux, where both names are one number). *)
Definition EAGAIN : Z := 11.
Definition EWOULDBLOCK : Z := 11.

Inductive memval : Type :=
  | Undef
  | Val (b : byte).

Inductive ptr : Type :=
  | Null
  | Block (cells : list memval)
  | Freed.

Definition len {A : Type} (l : list A) : N := N.of_nat (length l).

(** The bytes of a string literal, and the cells that hold them. *)
Definition str (s : string) : list byte := list_byte_of_string s.

Definition bytes (s : string) : list memval := map Val (str s).

(** The cells of [cells] with [src] copied over them from index [pos]. *)
Definition splice (cells : list memval) (pos : N) (src : list memval) : list memval :=
  firstn (N.to_nat pos) cells ++ src ++ skipn (N.to_nat pos + length src) cells.

(** [memcpy(&p[pos], src, count)] with [count] the length of [src]: [None]
    when the copy leaves the block [p] points to, and when the address
    [&p[pos]] cannot be formed at all, whatever the count: [p] is
    released, [pos] lies behind the end of the block, or [p] is null and
    [pos] is not 0.  The copy of no byte to [&p[0]] with [p] null is the
    one use of the null pointer taken as harmless: it is what a sink
    does that has no block yet. *)
Definition memcpy (p : ptr) (pos : N) (src : list memval) : option ptr :=
  match src with
  | [] =>
      match p with
      | Block cells => if pos <=? len cells then Some p else None
      | Null => if pos =? 0 then Some p else None
      | Freed => None
      end
  | _ :: _ =>
      match p with
      | Block cells =>
          if pos + len src <=? len cells then Some (Block (splice cells pos src)) else None
      | Null | Freed => None
      end
  end.

(** The [n] cells read from the start of [p] (the argument pair
    [(out->buffered, out->buf_len)] of a write). *)
Definition load (p : ptr) (n : N) : option (list memval) :=
  if n =? 0 then Some []
  else match p with
       | Block cells => if n <=? len cells then Some (firstn (N.to_nat n) cells) else None
       | Null | Freed => None
       end.

(** [free(p)]: [None] for a pointer that was released before. *)
Definition free (p : ptr) : option ptr :=
  match p with
  | Null => Some Null
  | Block _ => Some Freed
  | Freed => None
  end.

Definition resize (cells : list memval) (size : N) : list memval :=
  firstn (N.to_nat size) cells ++ repeat Undef (N.to_nat size - length cells).

(** Modelled from the spec: [ly_realloc] (common.c) is not among the
    sources; the sink "grows the buffer via reallocation", "realloc-style
    resizing".  [ok] says whether the allocator serves the request: then
    the block has [size] cells, the old ones first and the new ones
    unwritten; otherwise the old block is gone and the result is the null
    pointer.  [None]: a released pointer was passed. *)
Definition ly_realloc (ok : bool) (p : ptr) (size : N) : option ptr :=
  match p with
  | Freed => None
  | Null => Some (if ok then Block (repeat Undef (N.to_nat size)) else Null)
  | Block cells => Some (if ok then Block (resize cells size) else Null)
  end.

(** ** The sink *)

(** Modelled from the spec: the enumeration [LYP_OUT_TYPE] (printer.h) is
    not among the sources; its values are the ones printer.c names, one
    for each variant of the sink the specification lists: Error,
    RawDescriptor, DescriptorStream, Stream, FilePath, Memory, Callback. *)
Inductive LYP_OUT_TYPE : Type :=
  | LYP_OUT_ERROR
  | LYP_OUT_FD
  | LYP_OUT_FDSTREAM
  | LYP_OUT_FILE
  | LYP_OUT_FILEPATH
  | LYP_OUT_MEMORY
  | LYP_OUT_CALLBACK.

(** Modelled from the spec: the enumeration [LY_ERR] (log.h) is not among
    the sources; these are the result codes printer.c returns, success
    being the one value that counts as "no status set". *)
Inductive LY_ERR : Type :=
  | LY_SUCCESS
  | LY_EMEM
  | LY_ESYS
  | LY_EINVAL
  | LY_EINT.

Definition LY_ERR_eqb (a b : LY_ERR) : bool :=
  match a, b with
  | LY_SUCCESS, LY_SUCCESS | LY_EMEM, LY_EMEM | LY_ESYS, LY_ESYS
  | LY_EINVAL, LY_EINVAL | LY_EINT, LY_EINT => true
  | _, _ => false
  end.

(** Modelled from the spec: the declaration of [struct lyp_out]
    (printer_internal.h) is not among the sources; the record has the
    fields printer.c reads and writes, which are the shared sink state of
    the specification: the variant, "a printed-bytes counter", "a status",
    "an outstanding-hole count" and "a hole buffer", the sizes and
    counters being [size_t].  Of the union [method] only the memory member
    is state of the sink: [mem_buf] is [method.mem.buf], the address of
    the caller's buffer pointer ([None] when that address is null,
    [Some p] when the caller's pointer is [p]).  The descriptor, stream
    and callback members name the target, which lives in the [world]. *)
Record lyp_out : Type := {
  type : LYP_OUT_TYPE;
  mem_buf : option ptr;
  mem_len : N;
  mem_size : N;
  buffered : ptr;
  buf_len : N;
  buf_size : N;
  hole_count : N;
  printed : N;
  status : LY_ERR
}.

Definition set_mem (b : option ptr) (l s : N) (o : lyp_out) : lyp_out :=
  {| type := type o; mem_buf := b; mem_len := l; mem_size := s;
     buffered := buffered o; buf_len := buf_len o; buf_size := buf_size o;
     hole_count := hole_count o; printed := printed o; status := status o |}.

Definition set_buffer (p : ptr) (l s : N) (o : lyp_out) : lyp_out :=
  {| type := type o; mem_buf := mem_buf o; mem_len := mem_len o; mem_size := mem_size o;
     buffered := p; buf_len := l; buf_size := s;
     hole_count := hole_count o; printed := printed o; status := status o |}.

Definition set_hole_count (h : N) (o : lyp_out) : lyp_out :=
  {| type := type o; mem_buf := mem_buf o; mem_len := mem_len o; mem_size := mem_size o;
     buffered := buffered o; buf_len := buf_len o; buf_size := buf_size o;
     hole_count := h; printed := printed o; status := status o |}.

Definition set_printed (n : N) (o : lyp_out) : lyp_out :=
  {| type := type o; mem_buf := mem_buf o; mem_len := mem_len o; mem_size := mem_size o;
     buffered := buffered o; buf_len := buf_len o; buf_size := buf_size o;
     hole_count := hole_count o; printed := n; status := status o |}.

Definition set_status (e : LY_ERR) (o : lyp_out) : lyp_out :=
  {| type := type o; mem_buf := mem_buf o; mem_len := mem_len o; mem_size := mem_size o;
     buffered := buffered o; buf_len := buf_len o; buf_size := buf_size o;
     hole_count := hole_count o; printed := printed o; status := e |}.

(** ** The world behind the sink *)

(** What one call of the target's write primitive ([write], [fwrite],
    [vdprintf], [vfprintf] or the callback) gives: the value the code
    stores in its [int] variable, and [errno] as the code reads it after
    the call. *)
Record response : Type := { written : Z; errno : Z }.

(** [pending]: the results of the calls to come, next first; [calls]: the
    byte strings handed to the target so far, oldest first. *)
Record world : Type := {
  pending : list response;
  calls : list (list memval)
}.

(** How an operation ends: it returns ([Done]), it leaves defined
    behaviour ([Undefined]), or it is still asking the target when the
    world has no result left to give ([Starved]). *)
Inductive outcome (A : Type) : Type :=
  | Done (a : A)
  | Undefined
  | Starved.
Arguments Done {A} a.
Arguments Undefined {A}.
Arguments Starved {A}.

Definition result : Type := outcome (LY_ERR * lyp_out * world).

(** Modelled from the spec: the macro [LYOUT_CHECK] (printer_internal.h) is
    not among the sources; "sticky status is checked at the start of every
    operation", "once set, all further operations must fail immediately".
    [LYOUT_CHECK(out, out->status)] returns the stored status when it is
    set. *)
Definition LYOUT_CHECK (out : lyp_out) : bool := negb (LY_ERR_eqb (status out) LY_SUCCESS).

(** Modelled from the spec: the macro [LOGMEM_RET] (log.h) is not among the
    sources; it logs the allocation failure and returns the memory error. *)
Definition LOGMEM_RET : LY_ERR := LY_EMEM.

(** ** Construction *)

(** [calloc(1, sizeof *out)] followed by the assignment of the type. *)
Definition zeroed (t : LYP_OUT_TYPE) : lyp_out :=
  {| type := t; mem_buf := None; mem_len := 0; mem_size := 0;
     buffered := Null; buf_len := 0; buf_size := 0;
     hole_count := 0; printed := 0; status := LY_SUCCESS |}.

(** [lyp_new_clb]; [ok]: [calloc] served the request. *)
Definition lyp_new_clb (ok : bool) : option lyp_out :=
  if ok then Some (zeroed LYP_OUT_CALLBACK) else None.

(** [lyp_new_file]. *)
Definition lyp_new_file (ok : bool) : option lyp_out :=
  if ok then Some (zeroed LYP_OUT_FILE) else None.

(** [lyp_new_fd]: [HAVE_VDPRINTF] is the build's setting; without it the
    descriptor is duplicated ([dup_ok]) and a stream is opened on the
    duplicate ([fdopen_ok]).  When the stream cannot be opened the source
    hands the descriptor, an [int], to [fclose]: undefined. *)
Definition lyp_new_fd (HAVE_VDPRINTF ok dup_ok fdopen_ok : bool) : outcome (option lyp_out) :=
  if ok then
    if HAVE_VDPRINTF then Done (Some (zeroed LYP_OUT_FD))
    else if dup_ok then
      if fdopen_ok then Done (Some (zeroed LYP_OUT_FDSTREAM)) else Undefined
    else Done None
  else Done None.

(** [lyp_new_filepath]; [fopen_ok]: the path could be opened. *)
Definition lyp_new_filepath (ok fopen_ok : bool) : option lyp_out :=
  if ok then if fopen_ok then Some (zeroed LYP_OUT_FILEPATH) else None else None.

(** [lyp_new_memory(strp, size)]; [strp] is the caller's pointer [*strp] as
    the call finds it. *)
Definition lyp_new_memory (ok : bool) (strp : ptr) (size : N) : option lyp_out :=
  if ok then
    Some (if size =? 0 then set_mem (Some Null) 0 0 (zeroed LYP_OUT_MEMORY)
          else match strp with
               | Null => set_mem (Some Null) 0 0 (zeroed LYP_OUT_MEMORY)
               | _ => set_mem (Some strp) 0 size (zeroed LYP_OUT_MEMORY)
               end)
  else None.

(** ** The raw write *)

(** The end of [lyp_write], after the switch stored the primitive's result
    in [written]: [None] stands for [goto repeat]. *)
Definition lyp_write_check (out : lyp_out) (n : N) (r : response) : option (LY_ERR * lyp_out) :=
  if (written r <? 0)%Z then
    if ((errno r =? EAGAIN) || (errno r =? EWOULDBLOCK))%Z then None
    else Some (LY_ESYS, set_status LY_ESYS out)
  else if negb (Z.to_N (written r) =? n) then Some (LY_ESYS, set_status LY_ESYS out)
  else Some (LY_SUCCESS, set_printed (size_t_add (printed out) (Z.to_N (written r))) out).

(** The loop from the label [repeat] for the sinks with a target: each
    turn hands [buf] to the target and takes the next result of the world. *)
Fixpoint lyp_write_repeat (out : lyp_out) (buf : list memval)
    (rs : list response) (cs : list (list memval)) {struct rs} : result :=
  match rs with
  | [] => Starved
  | r :: rs' =>
      match lyp_write_check out (len buf) r with
      | None => lyp_write_repeat out buf rs' (cs ++ [buf])
      | Some (e, out') => Done (e, out', {| pending := rs'; calls := cs ++ [buf] |})
      end
  end.

(** [lyp_write(out, buf, len)] with [len] the length of [buf]; [ok] is the
    answer of the allocator should the call reach [ly_realloc]. *)
Definition lyp_write (ok : bool) (out : lyp_out) (buf : list memval) (w : world) : result :=
  if LYOUT_CHECK out then Done (status out, out, w)
  else if negb (hole_count out =? 0) then
    (* we are buffering data after a hole *)
    let need := size_t_add (buf_len out) (len buf) in
    let copy (o : lyp_out) : result :=
      match memcpy (buffered o) (buf_len o) buf with
      | None => Undefined
      | Some p => Done (LY_SUCCESS, set_buffer p need (buf_size o) o, w)
      end in
    if buf_size out <? need then
      match ly_realloc ok (buffered out) need with
      | None => Undefined
      | Some Null => Done (LOGMEM_RET, set_buffer Null 0 0 out, w)
      | Some p => copy (set_buffer p (buf_len out) need out)
      end
    else copy out
  else
    match type out with
    | LYP_OUT_MEMORY =>
        match mem_buf out with
        | None => Undefined
        | Some p =>
            let need := size_t_add (size_t_add (mem_len out) (len buf)) 1 in
            let l := size_t_add (mem_len out) (len buf) in
            let copy (p' : ptr) (size : N) : result :=
              match memcpy p' (mem_len out) buf with
              | None => Undefined
              | Some p1 =>
                  match memcpy p1 l [Val x00] with
                  | None => Undefined
                  | Some p2 =>
                      Done (LY_SUCCESS,
                            set_printed (size_t_add (printed out) (len buf))
                              (set_mem (Some p2) l size out), w)
                  end
              end in
            if mem_size out <? need then
              match ly_realloc ok p need with
              | None => Undefined
              | Some Null => Done (LOGMEM_RET, set_mem (Some Null) 0 0 out, w)
              | Some p' => copy p' need
              end
            else copy p (mem_size out)
        end
    | LYP_OUT_ERROR =>
        (* LOGINT; written keeps its initial 0 *)
        match lyp_write_check out (len buf) {| written := 0; errno := 0 |} with
        | None => Starved
        | Some (e, out') => Done (e, out', w)
        end
    | LYP_OUT_FD | LYP_OUT_FDSTREAM | LYP_OUT_FILEPATH | LYP_OUT_FILE | LYP_OUT_CALLBACK =>
        lyp_write_repeat out buf (pending w) (calls w)
    end.

(** ** The formatted write *)

(** [lyp_print(out, format, ...)]: [msg] is the text the format and its
    arguments render to.  [HAVE_VDPRINTF] is the build's setting, [fmt]
    says whether [vasprintf] rendered the text (it fails on a text longer
    than [INT_MAX] or without memory), [ok] is the allocator's answer to
    [ly_realloc]. *)
Definition lyp_print (HAVE_VDPRINTF fmt ok : bool) (out : lyp_out) (msg : list byte)
    (w : world) : result :=
  let finish (count : Z) (o : lyp_out) (w' : world) : result :=
    if (count <? 0)%Z then Done (LY_ESYS, set_status LY_ESYS o, w')
    else Done (LY_SUCCESS, set_printed (size_t_add (printed o) (Z.to_N count)) o, w') in
  let primitive : result :=
    match pending w with
    | [] => Starved
    | r :: rs => finish (written r) out {| pending := rs; calls := calls w ++ [map Val msg] |}
    end in
  let vasprintf : Z :=
    if fmt && (Z.of_nat (length msg) <=? INT_MAX)%Z then Z.of_nat (length msg) else (-1)%Z in
  if LYOUT_CHECK out then Done (status out, out, w)
  else
    match type out with
    | LYP_OUT_FD => if HAVE_VDPRINTF then primitive else Done (LY_EINT, out, w)
    | LYP_OUT_FDSTREAM | LYP_OUT_FILEPATH | LYP_OUT_FILE => primitive
    | LYP_OUT_MEMORY =>
        if (vasprintf <? 0)%Z then finish vasprintf out w
        else
          match mem_buf out with
          | None => Undefined
          | Some p =>
              let count := Z.to_N vasprintf in
              let need := size_t_add (size_t_add (mem_len out) count) 1 in
              let l := size_t_add (mem_len out) count in
              let copy (p' : ptr) (size : N) : result :=
                match memcpy p' (mem_len out) (map Val msg) with
                | None => Undefined
                | Some p1 =>
                    match memcpy p1 l [Val x00] with
                    | None => Undefined
                    | Some p2 => finish vasprintf (set_mem (Some p2) l size out) w
                    end
                end in
              if mem_size out <? need then
                match ly_realloc ok p need with
                | None => Undefined
                | Some Null => Done (LY_EMEM, set_mem None 0 0 out, w)
                | Some p' => copy p' need
                end
              else copy p (mem_size out)
          end
    | LYP_OUT_CALLBACK => if (vasprintf <? 0)%Z then finish vasprintf out w else primitive
    | LYP_OUT_ERROR => finish 0%Z out w
    end.

(** ** Holes *)

(** [ly_write_skip(out, count, position)]: the middle component is the
    value stored in [*position], [None] when the call stores none. *)
Definition ly_write_skip (ok : bool) (out : lyp_out) (count : N)
    : outcome (LY_ERR * option N * lyp_out) :=
  if LYOUT_CHECK out then Done (status out, None, out)
  else
    match type out with
    | LYP_OUT_MEMORY =>
        let need := size_t_add (mem_len out) count in
        let skip (b : option ptr) (size : N) :=
          Done (LY_SUCCESS, Some (mem_len out),
                set_printed (size_t_add (printed out) count)
                  (set_mem b need size out)) in
        if mem_size out <? need then
          (* the one place that reads the caller's pointer *)
          match mem_buf out with
          | None => Undefined
          | Some p =>
              match ly_realloc ok p need with
              | None => Undefined
              | Some Null =>
                  Done (LOGMEM_RET, None, set_status LY_ESYS (set_mem (Some Null) 0 0 out))
              | Some p' => skip (Some p') need
              end
          end
        else skip (mem_buf out) (mem_size out)
    | LYP_OUT_FD | LYP_OUT_FDSTREAM | LYP_OUT_FILEPATH | LYP_OUT_FILE | LYP_OUT_CALLBACK =>
        (* buffer the hole *)
        let need := size_t_add (buf_len out) count in
        let skip (p' : ptr) (size : N) :=
          Done (LY_SUCCESS, Some (buf_len out),
                set_hole_count (size_t_add (hole_count out) 1)
                  (set_buffer p' need size out)) in
        if buf_size out <? need then
          match ly_realloc ok (buffered out) need with
          | None => Undefined
          | Some Null =>
              Done (LOGMEM_RET, None, set_status LY_ESYS (set_buffer Null 0 0 out))
          | Some p' => skip p' need
          end
        else skip (buffered out) (buf_size out)
    | LYP_OUT_ERROR => Done (LY_SUCCESS, None, out)
    end.

(** [ly_write_skipped(out, position, buf, count)] with [count] the length
    of [buf].  The [lseek] the source ends with has no effect on the state
    modelled here. *)
Definition ly_write_skipped (out : lyp_out) (position : N) (buf : list memval)
    (w : world) : result :=
  if LYOUT_CHECK out then Done (status out, out, w)
  else
    match type out with
    | LYP_OUT_MEMORY =>
        match mem_buf out with
        | None => Undefined
        | Some p =>
            match memcpy p position buf with
            | None => Undefined
            | Some p' => Done (LY_SUCCESS, set_mem (Some p') (mem_len out) (mem_size out) out, w)
            end
        end
    | LYP_OUT_FD | LYP_OUT_FDSTREAM | LYP_OUT_FILEPATH | LYP_OUT_FILE | LYP_OUT_CALLBACK =>
        if buf_len out <? size_t_add position (len buf) then
          Done (LOGMEM_RET, set_status LY_ESYS out, w)
        else
          (* write into the hole *)
          match memcpy (buffered out) position buf with
          | None => Undefined
          | Some p =>
              (* decrease hole counter *)
              let out1 := set_hole_count (size_t_dec (hole_count out))
                            (set_buffer p (buf_len out) (buf_size out) out) in
              if hole_count out1 =? 0 then
                (* all holes filled, we can write the buffer *)
                match load (buffered out1) (buf_len out1) with
                | None => Undefined
                | Some data =>
                    (* no hole is outstanding and the sink is no memory
                       sink: this write does not reach the allocator *)
                    match lyp_write true out1 data w with
                    | Done (ret, out2, w') =>
                        Done (ret, set_buffer (buffered out2) 0 (buf_size out2) out2, w')
                    | Undefined => Undefined
                    | Starved => Starved
                    end
                end
              else Done (LY_SUCCESS, out1, w)
          end
    | LYP_OUT_ERROR => Done (LY_SUCCESS, out, w)
    end.

(** ** Reset and flush *)

(** [lyp_out_reset(out)]; [seek_ok]: the seek to the start succeeded, or
    failed with [ESPIPE]. *)
Definition lyp_out_reset (seek_ok : bool) (out : lyp_out) : LY_ERR * lyp_out :=
  match type out with
  | LYP_OUT_ERROR => (LY_EINT, out)
  | LYP_OUT_FD | LYP_OUT_FDSTREAM | LYP_OUT_FILE | LYP_OUT_FILEPATH =>
      if seek_ok then (LY_SUCCESS, out) else (LY_ESYS, out)
  | LYP_OUT_MEMORY =>
      (LY_SUCCESS, set_mem (mem_buf out) 0 (mem_size out) (set_printed 0 out))
  | LYP_OUT_CALLBACK => (LY_SUCCESS, out)
  end.

(** [ly_print_flush(out)]: the stream is flushed or the descriptor synced
    (no effect on the state modelled here), then the hole buffer is
    released; the pointer keeps its value. *)
Definition ly_print_flush (out : lyp_out) : outcome lyp_out :=
  match free (buffered out) with
  | None => Undefined
  | Some p => Done (set_buffer p 0 0 out)
  end.

(** ** Vocabulary of the properties *)

(** The sinks whose bytes go to a target of the world: every type but the
    memory sink and the error sentinel. *)
Definition has_target (t : LYP_OUT_TYPE) : bool :=
  match t with
  | LYP_OUT_MEMORY | LYP_OUT_ERROR => false
  | LYP_OUT_FD | LYP_OUT_FDSTREAM | LYP_OUT_FILE | LYP_OUT_FILEPATH | LYP_OUT_CALLBACK => true
  end.

(** A result of the primitive that the raw write answers with a retry:
    a negative value with [errno] at [EAGAIN] or [EWOULDBLOCK], which is
    how [write] and a callback report that they would block. *)
Definition would_block (r : response) : bool :=
  (written r <? 0)%Z && ((errno r =? EAGAIN) || (errno r =? EWOULDBLOCK))%Z.

(** The sinks whose raw write goes through [fwrite]. *)
Definition through_fwrite (t : LYP_OUT_TYPE) : bool :=
  match t with
  | LYP_OUT_FDSTREAM | LYP_OUT_FILEPATH | LYP_OUT_FILE => true
  | LYP_OUT_ERROR | LYP_OUT_FD | LYP_OUT_MEMORY | LYP_OUT_CALLBACK => false
  end.

(** How [fwrite] reports that the stream would block on a request of [n]
    bytes: it returns the count of the bytes it wrote, which is never
    negative and here short of [n], and leaves [errno] at [EAGAIN] or
    [EWOULDBLOCK]. *)
Definition short_would_block (n : N) (r : response) : bool :=
  (0 <=? written r)%Z && (Z.to_N (written r) <? n) &&
  ((errno r =? EAGAIN) || (errno r =? EWOULDBLOCK))%Z.

(** A memory sink that wrote three bytes and then failed to reserve four:
    its status is set and its printed counter is 3. *)
Definition failed_memory_sink : lyp_out :=
  {| type := LYP_OUT_MEMORY; mem_buf := Some Null; mem_len := 0; mem_size := 0;
     buffered := Null; buf_len := 0; buf_size := 0;
     hole_count := 0; printed := 3; status := LY_ESYS |}.


(** The primitive's result "[n] bytes accepted". *)
Definition accepted (n : Z) : response := {| written := n; errno := 0 |}.

(** The primitive's result "-1, and [errno] is [e]". *)
Definition failed (e : Z) : response := {| written := (-1)%Z; errno := e |}.

(** The world that has seen no call and is going to give the results [rs]. *)
Definition answers (rs : list response) : world := {| pending := rs; calls := [] |}.

(** A callback sink as [lyp_new_clb] returns it. *)
Definition callback_sink : lyp_out := zeroed LYP_OUT_CALLBACK.

(** A stream sink as [lyp_new_file] returns it. *)
Definition file_sink : lyp_out := zeroed LYP_OUT_FILE.

(** A callback sink with the hole buffer [cells], all of it in use, and
    [holes] holes outstanding. *)
Definition buffering_sink (cells : list memval) (holes : N) : lyp_out :=
  set_hole_count holes (set_buffer (Block cells) (len cells) (len cells) callback_sink).

(** A callback sink that reserved two bytes and was flushed with the hole
    outstanding. *)
Definition flushed_sink : lyp_out :=
  set_hole_count 1 (set_buffer Freed 0 0 callback_sink).

(** The cells a pointer gives access to. *)
Definition cells_of (p : ptr) : list memval :=
  match p with
  | Block cells => cells
  | Null | Freed => []
  end.

(** The bytes the hole buffer holds: its first [buf_len] cells. *)
Definition hole_content (out : lyp_out) : list memval :=
  firstn (N.to_nat (buf_len out)) (cells_of (buffered out)).

(** The hole buffer is in order: its pointer is null or live, the block is
    [buf_size] cells long and the length in use stays within it. *)
Definition buffer_ok (out : lyp_out) : Prop :=
  buffered out <> Freed /\
  len (cells_of (buffered out)) = buf_size out /\
  buf_len out <= buf_size out /\
  buf_size out < SIZE_MOD.

(** ** Callers that use holes *)

(** A call of the write interface: a raw write, a formatted write of the
    text [msg], a reservation, or a backfill.  [Backfill hole buf]
    backfills the reservation number [hole] (the first one is number 0)
    with the bytes [buf], through the token that reservation returned. *)
Inductive call : Type :=
  | Write (buf : list byte)
  | Print (msg : list byte)
  | Reserve (count : N)
  | Backfill (hole : nat) (buf : list byte).

(** A caller: its sink, the world, and the tokens its reservations have
    returned so far, in order. *)
Definition caller : Type := (lyp_out * world * list N)%type.

(** One call; the allocator serves every request and the library is built
    with [vdprintf].  A backfill of a reservation the caller never made
    reads a token that was never stored. *)
Definition step (c : call) (s : caller) : outcome (LY_ERR * caller) :=
  let '(out, w, toks) := s in
  match c with
  | Write buf =>
      match lyp_write true out (map Val buf) w with
      | Done (e, out', w') => Done (e, (out', w', toks))
      | Undefined => Undefined
      | Starved => Starved
      end
  | Print msg =>
      match lyp_print true true true out msg w with
      | Done (e, out', w') => Done (e, (out', w', toks))
      | Undefined => Undefined
      | Starved => Starved
      end
  | Reserve count =>
      match ly_write_skip true out count with
      | Done (e, Some position, out') => Done (e, (out', w, toks ++ [position]))
      | Done (e, None, out') => Done (e, (out', w, toks))
      | Undefined => Undefined
      | Starved => Starved
      end
  | Backfill hole buf =>
      match nth_error toks hole with
      | Some position =>
          match ly_write_skipped out position (map Val buf) w with
          | Done (e, out', w') => Done (e, (out', w', toks))
          | Undefined => Undefined
          | Starved => Starved
          end
      | None => Undefined
      end
  end.

(** The calls in order; the caller stops at the first call that fails. *)
Fixpoint run (cs : list call) (s : caller) : outcome (LY_ERR * caller) :=
  match cs with
  | [] => Done (LY_SUCCESS, s)
  | c :: cs' =>
      match step c s with
      | Done (LY_SUCCESS, s') => run cs' s'
      | other => other
      end
  end.

(** What a write shows outside the sink: the return value, the printed
    counter, the sticky status and the world. *)
Definition observe (r : result) : outcome (LY_ERR * N * LY_ERR * world) :=
  match r with
  | Done (e, out, w) => Done (e, printed out, status out, w)
  | Undefined => Undefined
  | Starved => Starved
  end.

Definition observe_run (r : outcome (LY_ERR * caller)) : outcome (LY_ERR * N * LY_ERR * world) :=
  match r with
  | Done (e, (out, w, _)) => Done (e, printed out, status out, w)
  | Undefined => Undefined
  | Starved => Starved
  end.

(** *** The full sequence, in the words of the specification

    "The full sequence with holes replaced by their final content, in
    original call order": the sequence has an entry per write and per
    reservation, in call order; a backfill replaces the entry of its hole
    by the bytes it supplies. *)
Inductive entry : Type :=
  | Bytes (bs : list byte)
  | Hole (id : nat) (count : N).

(** The sequence with hole [id], a hole of as many bytes as [bs] has,
    replaced by [bs]; [None] when no such hole is outstanding. *)
Fixpoint backfilled (id : nat) (bs : list byte) (es : list entry) : option (list entry) :=
  match es with
  | [] => None
  | Bytes b :: es' => option_map (cons (Bytes b)) (backfilled id bs es')
  | Hole id' count :: es' =>
      if (id' =? id)%nat then
        if count =? len bs then Some (Bytes bs :: es') else None
      else option_map (cons (Hole id' count)) (backfilled id bs es')
  end.

Definition outstanding (es : list entry) : nat :=
  length (filter (fun e => match e with Hole _ _ => true | Bytes _ => false end) es).

(** The calls [cs] issued while holes are outstanding, from the sequence
    [es] on, [next] being the number of the next reservation: the final
    sequence when the writes are raw writes, every backfill names an
    outstanding hole and supplies as many bytes as were reserved, and the
    calls end with the backfill that retires the last outstanding hole. *)
Fixpoint inside (next : nat) (es : list entry) (cs : list call) : option (list entry) :=
  match cs with
  | [] => None
  | Write bs :: cs' => inside next (es ++ [Bytes bs]) cs'
  | Print _ :: _ => None
  | Reserve count :: cs' => inside (S next) (es ++ [Hole next count]) cs'
  | Backfill id bs :: cs' =>
      match backfilled id bs es with
      | None => None
      | Some es' =>
          if (outstanding es' =? 0)%nat
          then match cs' with [] => Some es' | _ :: _ => None end
          else inside next es' cs'
      end
  end.

(** A hole context: the calls from the reservation that opens the first
    hole to the backfill that retires the last one. *)
Definition hole_context (cs : list call) : option (list entry) :=
  match cs with
  | Reserve count :: cs' => inside 1 [Hole 0 count] cs'
  | _ => None
  end.

(** The bytes of a sequence. *)
Definition resolved (es : list entry) : list byte :=
  flat_map (fun e => match e with Bytes bs => bs | Hole _ _ => [] end) es.

(** The bytes the calls ask for: written and reserved. *)
Definition volume (cs : list call) : N :=
  fold_right (fun c n => match c with
                         | Write bs | Print bs => len bs + n
                         | Reserve count => count + n
                         | Backfill _ _ => n
                         end) 0 cs.

(** The buffer content [cells] is the sequence [es] laid out from offset
    [off]: written and backfilled bytes stand as they are, an outstanding
    hole takes as many cells as were reserved, and its token in [toks] is
    the offset where it starts. *)
Inductive laid_out (toks : list N) : N -> list entry -> list memval -> Prop :=
  | laid_nil (off : N) : laid_out toks off [] []
  | laid_bytes (off : N) (bs : list byte) (es : list entry) (rest : list memval) :
      laid_out toks (off + len bs) es rest ->
      laid_out toks off (Bytes bs :: es) (map Val bs ++ rest)
  | laid_hole (off : N) (id : nat) (count : N) (junk : list memval)
      (es : list entry) (rest : list memval) :
      nth_error toks id = Some off -> len junk = count ->
      laid_out toks (off + count) es rest ->
      laid_out toks off (Hole id count :: es) (junk ++ rest).

(** ** Memory sinks *)

(** The bytes a memory sink holds: the first [mem_len] cells of the
    caller's buffer. *)
Definition mem_content (out : lyp_out) : list memval :=
  match mem_buf out with
  | Some p => firstn (N.to_nat (mem_len out)) (cells_of p)
  | None => []
  end.

(** A memory sink in order: no hole is counted, the sink holds the address
    of the caller's pointer, that pointer is null or live, the block is at
    least [mem_size] cells long and the length in use stays within the
    size. *)
Definition memory_ok (out : lyp_out) : Prop :=
  type out = LYP_OUT_MEMORY /\ hole_count out = 0 /\
  exists p, mem_buf out = Some p /\ p <> Freed /\
            mem_size out <= len (cells_of p) /\ mem_len out <= mem_size out.

(** A fresh memory sink without a buffer, as [lyp_new_memory(strp, 0)]
    returns it. *)
Definition memory_sink : lyp_out := set_mem (Some Null) 0 0 (zeroed LYP_OUT_MEMORY).

(** The memory sink that holds the cells [cells], the last one being the
    terminator, and has counted [n] printed bytes. *)
Definition memory_holding (cells : list memval) (n : N) : lyp_out :=
  set_printed n (set_mem (Some (Block cells)) (len cells - 1) (len cells) (zeroed LYP_OUT_MEMORY)).

(** The calls are writes, raw or formatted, and reservations only. *)
Definition writes_and_reservations (cs : list call) : bool :=
  forallb (fun c => match c with
                    | Backfill _ _ => false
                    | Write _ | Print _ | Reserve _ => true
                    end) cs.

(** Calls that succeed without a call to the target: the sink is left
    with a hole outstanding and the world [w0] is as it was. *)
Definition quiet (w0 : world) (pre : list call) (o : lyp_out) (toks : list N) : Prop :=
  exists o' toks',
    run pre (o, w0, toks) = Done (LY_SUCCESS, (o', w0, toks')) /\ hole_count o' <> 0.

(** ** Sinks in order *)

(** An operation that ends within defined behaviour. *)
Definition defined {A : Type} (r : outcome A) : bool :=
  match r with
  | Undefined => false
  | Done _ | Starved => true
  end.

(** The caller's block fits the address space. *)
Definition block_fits (out : lyp_out) : Prop :=
  forall p, mem_buf out = Some p -> len (cells_of p) < SIZE_MOD.

(** A sink in order: its hole buffer is, and so is the caller's buffer
    when the sink is a memory sink. *)
Definition sink_ok (out : lyp_out) : Prop :=
  buffer_ok out /\
  (type out = LYP_OUT_MEMORY -> memory_ok out /\ block_fits out).

(** ** Query and replacement of the memory buffer *)

(** Modelled from the spec: the macro [LY_CHECK_ARG_RET] (common.h) is not
    among the sources; "Calling query/replace against a sink of the wrong
    variant is a contract violation, signaled distinctly from a normal
    value".  [LY_CHECK_ARG_RET(ctx, cond, ret)] returns [ret] unless the
    condition holds; the functions below are modelled on a sink that
    exists, so the condition left is the one on the type. *)
Definition LY_CHECK_ARG_RET {A : Type} (cond : bool) (ret : A) (body : A) : A :=
  if cond then body else ret.

Definition LYP_OUT_TYPE_eqb (a b : LYP_OUT_TYPE) : bool :=
  match a, b with
  | LYP_OUT_ERROR, LYP_OUT_ERROR | LYP_OUT_FD, LYP_OUT_FD
  | LYP_OUT_FDSTREAM, LYP_OUT_FDSTREAM | LYP_OUT_FILE, LYP_OUT_FILE
  | LYP_OUT_FILEPATH, LYP_OUT_FILEPATH | LYP_OUT_MEMORY, LYP_OUT_MEMORY
  | LYP_OUT_CALLBACK, LYP_OUT_CALLBACK => true
  | _, _ => false
  end.

(** [lyp_out_type(out)]; [None] is the null handle. *)
Definition lyp_out_type (out : option lyp_out) : LYP_OUT_TYPE :=
  match out with
  | None => LYP_OUT_ERROR
  | Some o => type o
  end.

(** [lyp_memory(out, strp, size)]: [strp] is [None] for the null argument
    and otherwise the caller's pointer [*strp] as the call finds it.  The
    result is the returned pointer [data] and the sink; the read of
    [*out->method.mem.buf] is undefined when that address is null. *)
Definition lyp_memory (out : lyp_out) (strp : option ptr) (size : N)
    : outcome (ptr * lyp_out) :=
  LY_CHECK_ARG_RET (LYP_OUT_TYPE_eqb (type out) LYP_OUT_MEMORY) (Done (Null, out))
    match mem_buf out with
    | None => Undefined
    | Some data =>
        match strp with
        | None => Done (data, out)
        | Some p =>
            (* out->method.mem.len = out->method.mem.size = 0; out->printed = 0 *)
            let out1 := set_printed 0 (set_mem (Some p) 0 0 out) in
            Done (data,
                  if size =? 0 then
                    (* buffer is supposed to be allocated *)
                    set_mem (Some Null) 0 0 out1
                  else match p with
                       | Null => out1
                       | _ =>
                           (* there is already buffer to use *)
                           set_mem (Some p) 0 size out1
                       end)
        end
    end.

(** ** Writes without holes *)

(** The calls are writes only, raw or formatted. *)
Definition writes_only (cs : list call) : bool :=
  forallb (fun c => match c with
                    | Write _ | Print _ => true
                    | Reserve _ | Backfill _ _ => false
                    end) cs.

(** The bytes a call asks the sink to write. *)
Definition payload (c : call) : list byte :=
  match c with
  | Write bs | Print bs => bs
  | Reserve _ | Backfill _ _ => []
  end.

(** ** The target of a sink *)

Module Target.

(** A stream ([FILE *]) and a pointer that is only handed through (the
    callback and its argument) are named by numbers; [None] is the null
    pointer. *)
Definition FILE : Type := N.
Definition address : Type := N.

(** A pointer to a string ([char *]): where the string is and what it
    holds. *)
Record c_string : Type := { addr : address; text : string }.

(** Modelled from the spec: the members of the union [method] of
    [struct lyp_out] (printer_internal.h, not among the sources) that name
    the target, as printer.c uses them: "an externally supplied
    descriptor number", "a duplicated descriptor plus a buffered stream
    opened on the duplicate", "a caller-supplied buffered stream", "a
    buffered stream this sink itself opened from a path, plus the
    remembered path string", "an opaque argument and a write function
    supplied by the caller".  [f] is [method.f], which printer.c also
    names [method.fdstream.f] and [method.fpath.f]; the functions
    modelled here use, on a sink, the members of its own type only. *)
Record method : Type := {
  fd : Z;
  f : option FILE;
  fdstream_fd : Z;
  fpath_filepath : option c_string;
  clb_func : option address;
  clb_arg : option address
}.

(** The union as [calloc] leaves it. *)
Definition zero : method :=
  {| fd := 0; f := None; fdstream_fd := 0; fpath_filepath := None;
     clb_func := None; clb_arg := None |}.

Definition set_fd (d : Z) (m : method) : method :=
  {| fd := d; f := f m; fdstream_fd := fdstream_fd m; fpath_filepath := fpath_filepath m;
     clb_func := clb_func m; clb_arg := clb_arg m |}.

Definition set_f (s : option FILE) (m : method) : method :=
  {| fd := fd m; f := s; fdstream_fd := fdstream_fd m; fpath_filepath := fpath_filepath m;
     clb_func := clb_func m; clb_arg := clb_arg m |}.

Definition set_fdstream_fd (d : Z) (m : method) : method :=
  {| fd := fd m; f := f m; fdstream_fd := d; fpath_filepath := fpath_filepath m;
     clb_func := clb_func m; clb_arg := clb_arg m |}.

Definition set_fpath_filepath (p : option c_string) (m : method) : method :=
  {| fd := fd m; f := f m; fdstream_fd := fdstream_fd m; fpath_filepath := p;
     clb_func := clb_func m; clb_arg := clb_arg m |}.

Definition set_clb_func (c : option address) (m : method) : method :=
  {| fd := fd m; f := f m; fdstream_fd := fdstream_fd m; fpath_filepath := fpath_filepath m;
     clb_func := c; clb_arg := clb_arg m |}.

Definition set_clb_arg (a : option address) (m : method) : method :=
  {| fd := fd m; f := f m; fdstream_fd := fdstream_fd m; fpath_filepath := fpath_filepath m;
     clb_func := clb_func m; clb_arg := a |}.

(** The handle: the state of the sink and the members that name its
    target. *)
Record handle : Type := { sink : lyp_out; target : method }.

Definition retarget (m : method) (h : handle) : handle :=
  {| sink := sink h; target := m |}.

(** The calls a function makes to the system and to the caller's
    destructor, with what the system answered. *)
Inductive syscall : Type :=
  | sys_dup (fd result : Z)
  | sys_fdopen (fd : Z) (result : option FILE)
  | sys_fopen (path : c_string) (result : option FILE)
  | sys_fclose (f : FILE)
  | sys_close (fd : Z)
  | sys_free_path (filepath : option c_string)
  | sys_strdup (filepath : c_string) (result : option address)
  | sys_free_buffer (p : ptr)
  | sys_free_handle
  | sys_clb_arg_destructor (arg : option address).

(** *** Construction, with the target *)

(** [lyp_new_clb(writeclb, arg)]. *)
Definition lyp_new_clb (ok : bool) (writeclb arg : option address) : option handle :=
  match lyp_new_clb ok with
  | Some out => Some {| sink := out; target := set_clb_arg arg (set_clb_func writeclb zero) |}
  | None => None
  end.

(** [lyp_new_file(f)]. *)
Definition lyp_new_file (ok : bool) (s : option FILE) : option handle :=
  match lyp_new_file ok with
  | Some out => Some {| sink := out; target := set_f s zero |}
  | None => None
  end.

(** [lyp_new_fd(fd)]: [dup_result] and [fdopen_result] are what [dup] and
    [fdopen] return when the function calls them.  When [fdopen] fails the
    function passes the descriptor number to [fclose], which takes a
    stream. *)
Definition lyp_new_fd (HAVE_VDPRINTF ok : bool) (dup_result : Z) (fdopen_result : option FILE)
    (d : Z) : outcome (option handle * list syscall) :=
  if ok then
    if HAVE_VDPRINTF then
      Done (Some {| sink := zeroed LYP_OUT_FD; target := set_fd d zero |}, [])
    else if (dup_result <? 0)%Z then
      Done (None, [sys_dup d dup_result; sys_free_handle])
    else
      match fdopen_result with
      | None => Undefined
      | Some s =>
          Done (Some {| sink := zeroed LYP_OUT_FDSTREAM;
                        target := set_f (Some s) (set_fdstream_fd d zero) |},
                [sys_dup d dup_result; sys_fdopen dup_result (Some s)])
      end
  else Done (None, []).

(** [strdup(s)] when it returned [result]: the copy, or the null pointer. *)
Definition strdup (s : c_string) (result : option address) : option c_string :=
  match result with
  | Some a => Some {| addr := a; text := text s |}
  | None => None
  end.

(** [lyp_new_filepath(filepath)]: [fopen_result] and [strdup_result] are
    what [fopen] and [strdup] return. *)
Definition lyp_new_filepath (ok : bool) (fopen_result : option FILE)
    (strdup_result : option address) (filepath : c_string) : option handle * list syscall :=
  if ok then
    match fopen_result with
    | None => (None, [sys_fopen filepath None])
    | Some s =>
        (Some {| sink := zeroed LYP_OUT_FILEPATH;
                 target := set_fpath_filepath (strdup filepath strdup_result)
                             (set_f (Some s) zero) |},
         [sys_fopen filepath (Some s); sys_strdup filepath strdup_result])
    end
  else (None, []).

(** [lyp_new_memory(strp, size)]. *)
Definition lyp_new_memory (ok : bool) (strp : ptr) (size : N) : option handle :=
  match lyp_new_memory ok strp size with
  | Some out => Some {| sink := out; target := zero |}
  | None => None
  end.

(** *** Query and replacement *)

(** [lyp_clb(out, writeclb)]. *)
Definition lyp_clb (h : handle) (writeclb : option address) : option address * handle :=
  LY_CHECK_ARG_RET (LYP_OUT_TYPE_eqb (type (sink h)) LYP_OUT_CALLBACK) (None, h)
    (let prev_clb := clb_func (target h) in
     (prev_clb,
      match writeclb with
      | Some _ => retarget (set_clb_func writeclb (target h)) h
      | None => h
      end)).

(** [lyp_clb_arg(out, arg)]. *)
Definition lyp_clb_arg (h : handle) (arg : option address) : option address * handle :=
  LY_CHECK_ARG_RET (LYP_OUT_TYPE_eqb (type (sink h)) LYP_OUT_CALLBACK) (None, h)
    (let prev_arg := clb_arg (target h) in
     (prev_arg,
      match arg with
      | Some _ => retarget (set_clb_arg arg (target h)) h
      | None => h
      end)).

(** [lyp_file(out, f)]. *)
Definition lyp_file (h : handle) (s : option FILE) : option FILE * handle :=
  LY_CHECK_ARG_RET (LYP_OUT_TYPE_eqb (type (sink h)) LYP_OUT_FILE) (None, h)
    (let prev_f := f (target h) in
     (prev_f,
      match s with
      | Some _ => retarget (set_f s (target h)) h
      | None => h
      end)).

Section Enumeration.

(** The values of the enumerators of [LYP_OUT_TYPE] (printer.h) are not
    among the sources; [lyp_fd] compares two of them, so it takes them as
    a parameter. *)
Variable value : LYP_OUT_TYPE -> Z.

(** [lyp_fd(out, fd)]: the result is the returned descriptor, the handle
    and the calls made.  [fclose] of a null stream is undefined. *)
Definition lyp_fd (dup_result : Z) (fdopen_result : option FILE) (h : handle) (d : Z)
    : outcome (Z * handle * list syscall) :=
  LY_CHECK_ARG_RET (value (type (sink h)) <=? value LYP_OUT_FDSTREAM)%Z
    (Done ((-1)%Z, h, []))
    (let prev_fd :=
       if LYP_OUT_TYPE_eqb (type (sink h)) LYP_OUT_FDSTREAM then fdstream_fd (target h)
       else fd (target h) in
     if negb (d =? -1)%Z then
       (* replace output stream *)
       if LYP_OUT_TYPE_eqb (type (sink h)) LYP_OUT_FDSTREAM then
         if (dup_result <? 0)%Z then Done ((-1)%Z, h, [sys_dup d dup_result])
         else
           match fdopen_result with
           | None =>
               Done ((-1)%Z, h,
                     [sys_dup d dup_result; sys_fdopen dup_result None; sys_close dup_result])
           | Some stream =>
               (* close only the internally created stream *)
               match f (target h) with
               | None => Undefined
               | Some old =>
                   Done (prev_fd,
                         retarget (set_fdstream_fd dup_result (set_f (Some stream) (target h))) h,
                         [sys_dup d dup_result; sys_fdopen dup_result (Some stream);
                          sys_fclose old])
               end
           end
       else Done (prev_fd, retarget (set_fd d (target h)) h, [])
     else Done (prev_fd, h, [])).

End Enumeration.

(** What [lyp_filepath] returns: a pointer to a path (null or a string)
    or the value [(void * )-1]. *)
Inductive path_result : Type :=
  | path (p : option c_string)
  | minus_one.

(** [lyp_filepath(out, filepath)]: [filepath] is [None] for the null
    argument.  The old path is released before the new one is copied:
    when both are the same string, [strdup] reads a released string. *)
Definition lyp_filepath (fopen_result : option FILE) (strdup_result : option address)
    (h : handle) (filepath : option c_string)
    : outcome (path_result * handle * list syscall) :=
  LY_CHECK_ARG_RET (LYP_OUT_TYPE_eqb (type (sink h)) LYP_OUT_FILEPATH)
    (Done (match filepath with Some _ => path None | None => minus_one end, h, []))
    match filepath with
    | None => Done (path (fpath_filepath (target h)), h, [])
    | Some new =>
        (* replace filepath *)
        match fopen_result with
        | None => Done (minus_one, h, [sys_fopen new None])
        | Some s =>
            match f (target h) with
            | None => Undefined
            | Some old =>
                let released :=
                  match fpath_filepath (target h) with
                  | Some p => addr p =? addr new
                  | None => false
                  end in
                if released then Undefined
                else
                  Done (path None,
                        retarget (set_fpath_filepath (strdup new strdup_result)
                                    (set_f (Some s) (target h))) h,
                        [sys_fopen new (Some s); sys_fclose old;
                         sys_free_path (fpath_filepath (target h));
                         sys_strdup new strdup_result])
            end
        end
    end.

(** *** Release *)

(** [lyp_free(out, clb_arg_destructor, destroy)]: [out] is [None] for the
    null handle, [destructor] says whether a destructor was given.  The
    result is the calls made, in order. *)
Definition lyp_free (out : option handle) (destructor destroy : bool)
    : outcome (list syscall) :=
  match out with
  | None => Done []
  | Some h =>
      let released : outcome (list syscall) :=
        match type (sink h) with
        | LYP_OUT_CALLBACK =>
            Done (if destructor then [sys_clb_arg_destructor (clb_arg (target h))] else [])
        | LYP_OUT_FDSTREAM =>
            match f (target h) with
            | None => Undefined
            | Some s =>
                Done (sys_fclose s
                        :: (if destroy then [sys_close (fdstream_fd (target h))] else []))
            end
        | LYP_OUT_FD => Done (if destroy then [sys_close (fd (target h))] else [])
        | LYP_OUT_FILE =>
            if destroy then
              match f (target h) with
              | None => Undefined
              | Some s => Done [sys_fclose s]
              end
            else Done []
        | LYP_OUT_MEMORY =>
            if destroy then
              match mem_buf (sink h) with
              | None => Undefined
              | Some p =>
                  match free p with
                  | None => Undefined
                  | Some _ => Done [sys_free_buffer p]
                  end
              end
            else Done []
        | LYP_OUT_FILEPATH =>
            if destroy then
              match f (target h) with
              | None => Undefined
              | Some s => Done [sys_free_path (fpath_filepath (target h)); sys_fclose s]
              end
            else Done [sys_free_path (fpath_filepath (target h))]
        | LYP_OUT_ERROR => Done []
        end in
      match released with
      | Done calls => Done (calls ++ [sys_free_handle])
      | Undefined => Undefined
      | Starved => Starved
      end
  end.

(** *** What a sequence of calls opens and closes *)

(** The streams the calls opened. *)
Definition opened (log : list syscall) : list FILE :=
  flat_map (fun c => match c with
                     | sys_fdopen _ (Some s) | sys_fopen _ (Some s) => [s]
                     | _ => []
                     end) log.

(** The streams the calls closed. *)
Definition closed (log : list syscall) : list FILE :=
  flat_map (fun c => match c with
                     | sys_fclose s => [s]
                     | _ => []
                     end) log.

(** The copies of a path the calls made, and the paths they released. *)
Definition copied (log : list syscall) : list (option c_string) :=
  flat_map (fun c => match c with
                     | sys_strdup s r => [strdup s r]
                     | _ => []
                     end) log.

Definition released_paths (log : list syscall) : list (option c_string) :=
  flat_map (fun c => match c with
                     | sys_free_path p => [p]
                     | _ => []
                     end) log.

End Target.

(** * Releasing attributes of the data tree ([src/tree_data_free.c])

    The attributes of a data node form a singly linked list that starts
    at the node's [attr] member; every attribute names its node in
    [parent].  Attributes and nodes live in a heap, at addresses; an
    address the heap does not hold is a dangling pointer, and a read or
    write through it, or through the null pointer, is undefined. *)

Module Tree.

Definition address : Type := N.

(** Modelled from the spec: the declarations of [struct lyd_attr] and
    [struct lyd_node] (tree_data.h) are not among the sources; the
    specification names the "attribute lists" of the data tree.  The
    records have the members [lyd_free_attr] reads and writes: of an
    attribute its [parent], [next], [name] and [value.canonized], of a
    node its [attr]. *)
Record lyd_attr : Type := {
  parent : option address;
  next : option address;
  name : option string;
  value_canonized : option string
}.

Record lyd_node : Type := { attr : option address }.

Record heap : Type := {
  attrs : address -> option lyd_attr;
  nodes : address -> option lyd_node
}.

Definition set_next (n : option address) (r : lyd_attr) : lyd_attr :=
  {| parent := parent r; next := n; name := name r; value_canonized := value_canonized r |}.

(** The heap with the attribute at [a] replaced, or released. *)
Definition store_attr (a : address) (r : option lyd_attr) (h : heap) : heap :=
  {| attrs := fun x => if x =? a then r else attrs h x; nodes := nodes h |}.

Definition store_node (p : address) (n : lyd_node) (h : heap) : heap :=
  {| attrs := attrs h; nodes := fun x => if x =? p then Some n else nodes h x |}.

(** Equality of two pointers. *)
Definition same (p q : option address) : bool :=
  match p, q with
  | None, None => true
  | Some a, Some b => a =? b
  | _, _ => false
  end.

(** What the function does besides changing the heap, in order.  The
    macro [FREE_STRING] (common.h) is not among the sources: its uses
    are recorded with the string they are given. *)
Inductive event : Type :=
  | FREE_STRING (s : option string)
  | free (a : address).

(** [lyd_free_value(ctx, value)]. *)
Definition lyd_free_value (r : lyd_attr) : list event := [FREE_STRING (value_canonized r)].

(** The loop [for (iter = attr->parent->attr; iter->next != attr; iter =
    iter->next);]: the attribute it stops at.  [fuel] bounds the number
    of turns; a loop that is still running when it is used up is
    [Starved]. *)
Fixpoint find_previous (fuel : nat) (h : heap) (iter : option address) (a : address)
    : outcome address :=
  match fuel with
  | O => Starved
  | S fuel' =>
      match iter with
      | None => Undefined
      | Some i =>
          match attrs h i with
          | None => Undefined
          | Some r =>
              if negb (same (next r) (Some a)) then find_previous fuel' h (next r) a
              else Done i
          end
      end
  end.

(** The loop that releases the attributes from [iter] on. *)
Fixpoint free_attrs (fuel : nat) (h : heap) (iter : option address)
    : outcome (heap * list event) :=
  match iter with
  | None => Done (h, [])
  | Some a =>
      match fuel with
      | O => Starved
      | S fuel' =>
          match attrs h a with
          | None => Undefined
          | Some r =>
              match free_attrs fuel' (store_attr a None h) (next r) with
              | Done (h', evs) =>
                  Done (h', FREE_STRING (name r) :: lyd_free_value r ++ free a :: evs)
              | Undefined => Undefined
              | Starved => Starved
              end
          end
      end
  end.

(** [lyd_free_attr(ctx, attr, recursive)]: [ctx] says whether the context
    is given, [attribute] is the argument [attr], [None] for the null
    pointer. *)
Definition lyd_free_attr (fuel : nat) (ctx : bool) (h : heap) (attribute : option address)
    (recursive : bool) : outcome (heap * list event) :=
  LY_CHECK_ARG_RET ctx (Done (h, []))
    match attribute with
    | None => Done (h, [])
    | Some a =>
        match attrs h a with
        | None => Undefined
        | Some r =>
            let unlinked : outcome heap :=
              match parent r with
              | None => Done h
              | Some p =>
                  match nodes h p with
                  | None => Undefined
                  | Some n =>
                      if same (attr n) (Some a) then
                        Done (store_node p
                                {| attr := if recursive then None else next r |} h)
                      else
                        match find_previous fuel h (attr n) a with
                        | Done i =>
                            match attrs h i with
                            | None => Undefined
                            | Some ri =>
                                match next ri with
                                | Some _ =>
                                    Done (store_attr i
                                            (Some (set_next (if recursive then None else next r)
                                                     ri)) h)
                                | None => Done h
                                end
                            end
                        | Undefined => Undefined
                        | Starved => Starved
                        end
                  end
              end in
            match unlinked with
            | Done h1 =>
                let h2 :=
                  if recursive then h1
                  else match attrs h1 a with
                       | Some r1 => store_attr a (Some (set_next None r1)) h1
                       | None => h1
                       end in
                free_attrs fuel h2 (Some a)
            | Undefined => Undefined
            | Starved => Starved
            end
        end
    end.

(** The attributes linked from [first] up to the pointer [rest]: the list
    of their addresses. *)
Inductive attr_segment (h : heap) : option address -> list address -> option address -> Prop :=
  | segment_nil (p : option address) : attr_segment h p [] p
  | segment_cons (a : address) (r : lyd_attr) (l : list address) (rest : option address) :
      attrs h a = Some r -> attr_segment h (next r) l rest ->
      attr_segment h (Some a) (a :: l) rest.

(** The whole list linked from [first], up to the null pointer. *)
Definition attr_list (h : heap) (first : option address) (l : list address) : Prop :=
  attr_segment h first l None.

(** The addresses released and the strings handed to [FREE_STRING]. *)
Definition released (evs : list event) : list address :=
  flat_map (fun e => match e with free a => [a] | FREE_STRING _ => [] end) evs.

Definition strings (evs : list event) : list (option string) :=
  flat_map (fun e => match e with FREE_STRING s => [s] | free _ => [] end) evs.

(** The strings of the attributes at [l]: of each its name, then its
    canonized value. *)
Definition strings_of (h : heap) (l : list address) : list (option string) :=
  flat_map (fun a => match attrs h a with
                     | Some r => [name r; value_canonized r]
                     | None => []
                     end) l.

(** A heap with one node, at address 1, and its three attributes, at
    addresses 10, 11 and 12 in this order. *)
Definition empty : heap := {| attrs := fun _ => None; nodes := fun _ => None |}.

Definition three_attributes : heap :=
  store_node 1 {| attr := Some 10 |}
    (store_attr 10 (Some {| parent := Some 1; next := Some 11;
                            name := Some "a"%string; value_canonized := Some "1"%string |})
       (store_attr 11 (Some {| parent := Some 1; next := Some 12;
                               name := Some "b"%string; value_canonized := None |})
          (store_attr 12 (Some {| parent := Some 1; next := None;
                                  name := Some "c"%string; value_canonized := Some "3"%string |})
             empty))).

End Tree.

(** * Unlinking a node of the data tree ([src/tree_data_free.c])

    The siblings of a data node form a list that is linked forwards by
    [next], up to the null pointer, and backwards by [prev], the first
    sibling pointing back to the last one.  Nodes live in a memory, at
    addresses; a read or a write through the null pointer or through an
    address the memory does not hold is undefined. *)

Module Node.

Definition address : Type := N.

(** Modelled from the spec: the declarations of [struct lyd_node] and
    [struct lyd_node_inner] (tree_data.h) are not among the sources; the
    specification names the "node unlinking" of the data tree and its
    "hash-table-indexed children".  The record has the members
    [lyd_unlink_tree] reads and writes: [parent], [next] and [prev], and
    the [child] member the pointer [first_sibling] points to. *)
Record lyd_node : Type := {
  parent : option address;
  next : option address;
  prev : option address;
  child : option address
}.

Definition set_parent (p : option address) (r : lyd_node) : lyd_node :=
  {| parent := p; next := next r; prev := prev r; child := child r |}.

Definition set_next (p : option address) (r : lyd_node) : lyd_node :=
  {| parent := parent r; next := p; prev := prev r; child := child r |}.

Definition set_prev (p : option address) (r : lyd_node) : lyd_node :=
  {| parent := parent r; next := next r; prev := p; child := child r |}.

Definition set_child (p : option address) (r : lyd_node) : lyd_node :=
  {| parent := parent r; next := next r; prev := prev r; child := p |}.

(** The memory: the nodes, and the nodes [lyd_unlink_hash] was called
    for.  That function is not among the sources: its calls are
    recorded. *)
Record memory : Type := {
  nodes : address -> option lyd_node;
  unlinked : list address
}.

(** The nodes with the node at [a] replaced. *)
Definition update (a : address) (r : lyd_node) (f : address -> option lyd_node)
    : address -> option lyd_node :=
  fun x => if x =? a then Some r else f x.

(** A piece of the function: it runs on a memory and ends in a value and
    a memory, in undefined behaviour, or not at all. *)
Definition action (A : Type) : Type := memory -> outcome (A * memory).

Definition ret {A : Type} (a : A) : action A := fun m => Done (a, m).

Definition bind {A B : Type} (c : action A) (k : A -> action B) : action B :=
  fun m =>
    match c m with
    | Done (a, m') => k a m'
    | Undefined => Undefined
    | Starved => Starved
    end.

Notation "x <- c ;; k" := (bind c (fun x => k))
  (at level 61, c at next level, right associativity).
Notation "c ;; k" := (bind c (fun _ => k))
  (at level 61, right associativity).

(** [p->field]. *)
Definition read {A : Type} (p : option address) (field : lyd_node -> A) : action A :=
  fun m =>
    match p with
    | None => Undefined
    | Some a =>
        match nodes m a with
        | None => Undefined
        | Some r => Done (field r, m)
        end
    end.

(** [p->field = value], [set] being the assignment to the field. *)
Definition write (p : option address) (set : lyd_node -> lyd_node) : action unit :=
  fun m =>
    match p with
    | None => Undefined
    | Some a =>
        match nodes m a with
        | None => Undefined
        | Some r => Done (tt, {| nodes := update a (set r) (nodes m); unlinked := unlinked m |})
        end
    end.

(** [lyd_unlink_hash(node)]. *)
Definition lyd_unlink_hash (node : address) : action unit :=
  fun m => Done (tt, {| nodes := nodes m; unlinked := unlinked m ++ [node] |}).

Definition same (p q : option address) : bool :=
  match p, q with
  | None, None => true
  | Some a, Some b => a =? b
  | _, _ => false
  end.

(** [EXIT_SUCCESS] of [<stdlib.h>] is 0, the result code of success. *)
Definition EXIT_SUCCESS : LY_ERR := LY_SUCCESS.

(** The loop [while (iter->prev != node) iter = iter->prev;]: the node it
    stops at.  [fuel] bounds the number of turns. *)
Fixpoint first_from (fuel : nat) (iter : option address) (node : address)
    : action (option address) :=
  match fuel with
  | O => fun _ => Starved
  | S fuel' =>
      iter_prev <- read iter prev;;
      if negb (same iter_prev (Some node)) then first_from fuel' iter_prev node
      else ret iter
  end.

Section Children.

(** [lyd_node_children_p] is not among the sources: the function takes
    it as a parameter.  It is given a node and returns a pointer to a
    pointer to a node; the result here is the node whose [child] member
    the returned pointer points to, [None] for the null pointer. *)
Variable lyd_node_children_p : option address -> action (option address).

(** [lyd_unlink_tree(node)]; [node] is [None] for the null pointer.
    Every [node->member] is a read of the memory as it is at that point.
    The source leaves [first_sibling] without a value when the node has
    no parent, and does not use it then. *)
Definition lyd_unlink_tree (fuel : nat) (node : option address) : action LY_ERR :=
  match node with
  | None => ret LY_EINVAL
  | Some n =>
      node_parent <- read node parent;;
      first_sibling <- match node_parent with
                       | Some _ => lyd_node_children_p node_parent
                       | None => ret None
                       end;;
      (* unlink from siblings *)
      node_prev <- read node prev;;
      prev_next <- read node_prev next;;
      match prev_next with
      | Some _ =>
          node_next <- read node next;;
          node_prev <- read node prev;;
          write node_prev (set_next node_next)
      | None => ret tt
      end;;
      node_next <- read node next;;
      match node_next with
      | Some _ => node_prev <- read node prev;; write node_next (set_prev node_prev)
      | None =>
          (* unlinking the last node *)
          node_parent <- read node parent;;
          iter <- match node_parent with
                  | Some _ => read first_sibling child
                  | None => node_prev <- read node prev;; first_from fuel node_prev n
                  end;;
          (* update the "last" pointer from the first node *)
          node_prev <- read node prev;;
          write iter (set_prev node_prev)
      end;;
      (* unlink from parent *)
      node_parent <- read node parent;;
      match node_parent with
      | Some _ =>
          first <- read first_sibling child;;
          (if same first node then
             (* the node is the first child *)
             node_next <- read node next;; write first_sibling (set_child node_next)
           else ret tt);;
          lyd_unlink_hash n;;
          write node (set_parent None)
      | None => ret tt
      end;;
      write node (set_next None);;
      write node (set_prev node);;
      ret EXIT_SUCCESS
  end.

(** The parent [par] of the siblings [l], when there is one: it is none
    of them, its [child] member points to the first of them, and
    [lyd_node_children_p] returns the address of that member and touches
    nothing. *)
Definition children_of (f : address -> option lyd_node) (par : option address)
    (l : list address) : Prop :=
  match par with
  | None => True
  | Some p =>
      ~ In p l /\
      (exists r, f p = Some r /\ child r = hd_error l) /\
      forall m, lyd_node_children_p (Some p) m = Done (Some p, m)
  end.

End Children.

(** The [lyd_node_children_p] of the samples: the address of the [child]
    member of the node it is given. *)
Definition child_member (node : option address) : action (option address) :=
  ret node.

(** The siblings [l] under the parent [par], as a segment: [before] is
    what the first one's [prev] holds, [first] points to the first one,
    [after] is what the last one's [next] holds ([first] is [after] when
    there is none). *)
Inductive segment (f : address -> option lyd_node) (par : option address)
    : option address -> option address -> list address -> option address -> Prop :=
  | segment_nil (before after : option address) : segment f par before after [] after
  | segment_cons (before : option address) (x : address) (r : lyd_node) (l : list address)
      (after : option address) :
      f x = Some r -> parent r = par -> prev r = before ->
      segment f par (Some x) (next r) l after ->
      segment f par before (Some x) (x :: l) after.

(** What the [prev] of the node after the nodes [l] holds: the last of
    them, and [before] when there is none. *)
Definition last_of (before : option address) (l : list address) : option address :=
  match l with
  | [] => before
  | x :: _ => Some (last l x)
  end.

(** The list of all the siblings: there is one at least, the first one
    points back to the last one, the last one's [next] is null, and no
    node is listed twice. *)
Definition siblings (f : address -> option lyd_node) (par : option address)
    (l : list address) : Prop :=
  NoDup l /\ l <> [] /\ segment f par (last_of None l) (hd_error l) l None.

(** A node and its three children: the parent at address
    1, its children at 10, 11 and 12 in this order. *)
Definition family : memory :=
  {| nodes :=
       update 1 {| parent := None; next := None; prev := Some 1; child := Some 10 |}
         (update 10 {| parent := Some 1; next := Some 11; prev := Some 12; child := None |}
            (update 11 {| parent := Some 1; next := Some 12; prev := Some 10; child := None |}
               (update 12 {| parent := Some 1; next := None; prev := Some 11; child := None |}
                  (fun _ => None))));
     unlinked := [] |}.

End Node.
(** * Properties *)

Section Basics.

Lemma LYOUT_CHECK_set (out : lyp_out) :
  status out <> LY_SUCCESS -> LYOUT_CHECK out = true.
Proof. unfold LYOUT_CHECK. destruct (status out); simpl; congruence. Qed.

Lemma LYOUT_CHECK_clear (out : lyp_out) :
  status out = LY_SUCCESS -> LYOUT_CHECK out = false.
Proof. unfold LYOUT_CHECK. intros ->. reflexivity. Qed.

Lemma size_t_add_small (a b : N) : a + b < SIZE_MOD -> size_t_add a b = a + b.
Proof. intros H. unfold size_t_add. now apply N.mod_small. Qed.

Lemma size_t_add_0_r (a : N) : a < SIZE_MOD -> size_t_add a 0 = a.
Proof. intros H. rewrite size_t_add_small; lia. Qed.

Lemma size_t_dec_pos (a : N) : 0 < a -> a < SIZE_MOD -> size_t_dec a = a - 1.
Proof.
  intros H0 H. unfold size_t_dec.
  replace (a + (SIZE_MOD - 1)) with (a - 1 + 1 * SIZE_MOD) by (unfold SIZE_MOD in *; lia).
  rewrite N.Div0.mod_add. apply N.mod_small. lia.
Qed.

Lemma len_app {A : Type} (l1 l2 : list A) : len (l1 ++ l2) = len l1 + len l2.
Proof. unfold len. rewrite length_app. lia. Qed.

Lemma len_nil_inv {A : Type} (l : list A) : len l = 0 -> l = [].
Proof. destruct l; [reflexivity | unfold len; simpl; lia]. Qed.

Lemma splice_nil (cells : list memval) (pos : N) : splice cells pos [] = cells.
Proof. unfold splice. simpl. rewrite Nat.add_0_r. apply firstn_skipn. Qed.

(** A copy that stays within the block. *)
Lemma memcpy_block (cells : list memval) (pos : N) (src : list memval) :
  pos + len src <= len cells ->
  memcpy (Block cells) pos src = Some (Block (splice cells pos src)).
Proof.
  intros H. unfold memcpy. destruct src as [|b src].
  - rewrite splice_nil. change (len []) with 0 in H.
    destruct (N.leb_spec pos (len cells)); [reflexivity | lia].
  - destruct (N.leb_spec (pos + len (b :: src)) (len cells)); [reflexivity | lia].
Qed.

(** With a clear status and no hole outstanding, the raw write of a sink
    with a target is the loop over the world's results. *)
Lemma lyp_write_direct (ok : bool) (out : lyp_out) (buf : list memval) (w : world) :
  status out = LY_SUCCESS -> hole_count out = 0 -> has_target (type out) = true ->
  lyp_write ok out buf w = lyp_write_repeat out buf (pending w) (calls w).
Proof.
  intros Hs Hh Ht. unfold lyp_write.
  rewrite (LYOUT_CHECK_clear _ Hs), Hh. simpl.
  destruct (type out); simpl in Ht; try discriminate; reflexivity.
Qed.

(** The loop changes the printed counter and the status, nothing else. *)
Lemma lyp_write_repeat_keeps (out : lyp_out) (buf : list memval) (rs : list response) :
  forall cs e out' w',
    lyp_write_repeat out buf rs cs = Done (e, out', w') ->
    buffered out' = buffered out /\ hole_count out' = hole_count out /\
    buf_len out' = buf_len out /\ buf_size out' = buf_size out /\ type out' = type out.
Proof.
  induction rs as [|r rs IH]; intros cs e out' w' H; simpl in H; [discriminate|].
  unfold lyp_write_check in H.
  destruct (written r <? 0)%Z.
  - destruct ((errno r =? EAGAIN)%Z || (errno r =? EWOULDBLOCK)%Z); [now apply IH in H|].
    injection H as _ <- _. repeat split.
  - destruct (negb (Z.to_N (written r) =? len buf)); injection H as _ <- _; repeat split.
Qed.

(** The sinks the constructors return are in order. *)
Lemma zeroed_buffer_ok (t : LYP_OUT_TYPE) : buffer_ok (zeroed t).
Proof. unfold buffer_ok. simpl. repeat split; discriminate. Qed.

Lemma lyp_new_memory_ok (strp : ptr) (size : N) (o : lyp_out) :
  strp <> Freed -> size <= len (cells_of strp) ->
  lyp_new_memory true strp size = Some o -> memory_ok o /\ buffer_ok o.
Proof.
  intros Hp Hsz H. unfold lyp_new_memory in H. injection H as <-.
  destruct (N.eqb_spec size 0) as [->|Hne].
  - split; [|repeat split; discriminate]. unfold memory_ok. simpl. repeat split.
    exists Null. repeat split; discriminate.
  - destruct strp as [|cells|]; [| |contradiction].
    + simpl in Hsz. unfold len in Hsz. simpl in Hsz. lia.
    + split; [|repeat split; discriminate]. unfold memory_ok. simpl. repeat split.
      exists (Block cells). repeat split; try discriminate; try assumption. lia.
Qed.

Lemma lyp_write_repeat_would_block out buf ts :
  forallb would_block ts = true ->
  forall rs cs,
    lyp_write_repeat out buf (ts ++ rs) cs =
    lyp_write_repeat out buf rs (cs ++ repeat buf (length ts)).
Proof.
  induction ts as [|t ts IH]; intros Hts rs cs; simpl.
  - now rewrite app_nil_r.
  - simpl in Hts. apply andb_prop in Hts as [Ht Hts].
    unfold would_block in Ht. apply andb_prop in Ht as [Hneg Herr].
    unfold lyp_write_check. rewrite Hneg, Herr.
    rewrite IH by assumption. now rewrite <- app_assoc.
Qed.

End Basics.

(** ** Sticky status *)

(** C6, as the code has it: on a sink whose sticky status is set, the
    formatted write, the raw write, the reservation and the backfill return
    the stored status at once and leave sink and world as they were.  Reset
    and flush never read the status: they do to a failed sink what they do
    to a healthy one, a memory sink's length and printed counter are zeroed
    and the hole buffer's length and size are zeroed all the same. *)
Theorem sticky_status_stops_writes_and_holes (out : lyp_out) :
  status out <> LY_SUCCESS ->
  (forall v fmt ok msg w, lyp_print v fmt ok out msg w = Done (status out, out, w)) /\
  (forall ok buf w, lyp_write ok out buf w = Done (status out, out, w)) /\
  (forall ok count, ly_write_skip ok out count = Done (status out, None, out)) /\
  (forall pos buf w, ly_write_skipped out pos buf w = Done (status out, out, w)) /\
  (forall seek_ok e,
     lyp_out_reset seek_ok (set_status e out) =
     (fst (lyp_out_reset seek_ok out), set_status e (snd (lyp_out_reset seek_ok out)))) /\
  (type out = LYP_OUT_MEMORY ->
   forall seek_ok,
     fst (lyp_out_reset seek_ok out) = LY_SUCCESS /\
     mem_len (snd (lyp_out_reset seek_ok out)) = 0 /\
     printed (snd (lyp_out_reset seek_ok out)) = 0) /\
  (forall o, ly_print_flush out = Done o ->
     buf_len o = 0 /\ buf_size o = 0 /\ status o = status out) /\
  (buffered out <> Freed -> exists o, ly_print_flush out = Done o).
Proof.
  intros Hs. pose proof (LYOUT_CHECK_set _ Hs) as Hc.
  split; [|split; [|split; [|split; [|split; [|split; [|split]]]]]].
  - intros. unfold lyp_print. now rewrite Hc.
  - intros. unfold lyp_write. now rewrite Hc.
  - intros. unfold ly_write_skip. now rewrite Hc.
  - intros. unfold ly_write_skipped. now rewrite Hc.
  - intros. unfold lyp_out_reset. simpl.
    destruct (type out); try destruct seek_ok; reflexivity.
  - intros Hm seek_ok. unfold lyp_out_reset. rewrite Hm. repeat split.
  - intros o H. unfold ly_print_flush in H.
    destruct (free (buffered out)); inversion H; repeat split.
  - intros Hb. unfold ly_print_flush.
    destruct (buffered out); simpl; [eexists; reflexivity | eexists; reflexivity | congruence].
Qed.

(** C6 fails as stated: the sink [failed_memory_sink] is reached by a
    write of "abc" and a reservation the allocator refuses, its status is
    set, and yet reset succeeds on it and zeroes the printed counter. *)
Lemma reset_ignores_sticky_status :
  (exists o1,
     lyp_new_memory true Null 0 = Some o1 /\
     exists o2 w,
       lyp_write true o1 (bytes "abc") {| pending := []; calls := [] |}
         = Done (LY_SUCCESS, o2, w) /\
       ly_write_skip false o2 4 = Done (LY_EMEM, None, failed_memory_sink)) /\
  status failed_memory_sink = LY_ESYS /\
  printed failed_memory_sink = 3 /\
  lyp_out_reset true failed_memory_sink
    = (LY_SUCCESS, set_printed 0 failed_memory_sink).
Proof.
  repeat split.
  eexists. split; [reflexivity|]. eexists. eexists. split; reflexivity.
Qed.

(** The theorem at the failed memory sink. *)
Lemma sticky_status_stops_writes_and_holes_witness :
  lyp_write true failed_memory_sink (bytes "abc") {| pending := []; calls := [] |}
    = Done (LY_ESYS, failed_memory_sink, {| pending := []; calls := [] |}).
Proof.
  apply (sticky_status_stops_writes_and_holes failed_memory_sink).
  simpl. discriminate.
Defined.

(** ** Short writes *)

(** C4, as the code has it: a short write in the raw write (the target
    accepts fewer bytes than requested) makes the call fail with [LY_ESYS]
    after that one call to the target and sets the sticky status; from then
    on every raw and every formatted write returns the stored status
    without a call to the target.  The formatted write itself detects no
    short write: on a callback sink it takes whatever count the callback
    returns, succeeds and adds that count to the printed counter. *)
Theorem short_raw_write_is_fatal (ok : bool) (out : lyp_out) (buf : list memval)
    (r : response) (rs : list response) (cs : list (list memval)) :
  status out = LY_SUCCESS -> hole_count out = 0 -> has_target (type out) = true ->
  (0 <= written r)%Z -> (written r < Z.of_N (len buf))%Z ->
  let failed_out := set_status LY_ESYS out in
  lyp_write ok out buf {| pending := r :: rs; calls := cs |}
    = Done (LY_ESYS, failed_out, {| pending := rs; calls := cs ++ [buf] |}) /\
  status failed_out = LY_ESYS /\
  (forall ok' buf' w, lyp_write ok' failed_out buf' w = Done (LY_ESYS, failed_out, w)) /\
  (forall v fmt ok' msg w, lyp_print v fmt ok' failed_out msg w = Done (LY_ESYS, failed_out, w)) /\
  (type out = LYP_OUT_CALLBACK ->
   forall v ok' msg, (Z.of_nat (length msg) <= INT_MAX)%Z ->
     lyp_print v true ok' out msg {| pending := r :: rs; calls := cs |}
       = Done (LY_SUCCESS, set_printed (size_t_add (printed out) (Z.to_N (written r))) out,
               {| pending := rs; calls := cs ++ [map Val msg] |})).
Proof.
  intros Hs Hh Ht H0 Hlt failed_out. subst failed_out.
  assert (Hc : LYOUT_CHECK (set_status LY_ESYS out) = true)
    by (apply LYOUT_CHECK_set; simpl; discriminate).
  split; [|split; [|split; [|split]]].
  - rewrite lyp_write_direct by assumption. simpl.
    unfold lyp_write_check.
    destruct (Z.ltb_spec (written r) 0); [lia|].
    destruct (N.eqb_spec (Z.to_N (written r)) (len buf)); [lia|]. reflexivity.
  - reflexivity.
  - intros. unfold lyp_write. now rewrite Hc.
  - intros. unfold lyp_print. now rewrite Hc.
  - intros Hcb v ok' msg Hlen. unfold lyp_print.
    rewrite (LYOUT_CHECK_clear _ Hs), Hcb. simpl.
    destruct (Z.leb_spec (Z.of_nat (length msg)) INT_MAX); [|lia].
    destruct (Z.ltb_spec (Z.of_nat (length msg)) 0); [lia|].
    destruct (Z.ltb_spec (written r) 0); [lia|]. reflexivity.
Qed.

(** C4 fails as stated: a formatted write of "abc" to a callback that
    returns 1 succeeds, sets no status and counts one printed byte. *)
Lemma formatted_short_write_succeeds :
  lyp_print true true true callback_sink (str "abc") (answers [accepted 1])
    = Done (LY_SUCCESS, set_printed 1 callback_sink,
            {| pending := []; calls := [bytes "abc"] |}).
Proof. reflexivity. Qed.

(** The theorem at a callback that returns 1 for a raw write of "abc". *)
Lemma short_raw_write_is_fatal_witness :
  lyp_write true callback_sink (bytes "abc") (answers [accepted 1])
    = Done (LY_ESYS, set_status LY_ESYS callback_sink,
            {| pending := []; calls := [bytes "abc"] |}).
Proof.
  apply (short_raw_write_is_fatal true callback_sink (bytes "abc") (accepted 1) [] []);
    try reflexivity; simpl; lia.
Defined.

(** ** Transient results *)

(** C5, as the code has it: the raw write retries on one test only, a
    negative result of the primitive with [errno] at [EAGAIN] or
    [EWOULDBLOCK].  On every sink with a target such a result is answered
    by handing the same bytes to the target again; the call ends with the
    first result that is none, which alone decides the return value and
    the status.  This is how [write] on a descriptor sink and a callback
    report that they would block.  [fwrite] returns a count, never a
    negative value: on the sinks that write through it a stream that
    would block shows as a short count with [errno] at [EAGAIN] or
    [EWOULDBLOCK], and the raw write returns [LY_ESYS] and sets the
    sticky status after that one call.  The formatted write has no retry
    on any sink: a negative result makes it return [LY_ESYS] and set the
    sticky status after one call. *)
Theorem would_block_retried_by_raw_write (ok : bool) (out : lyp_out) (buf : list memval)
    (ts rs : list response) (cs : list (list memval)) :
  status out = LY_SUCCESS -> hole_count out = 0 -> has_target (type out) = true ->
  forallb would_block ts = true ->
  lyp_write ok out buf {| pending := ts ++ rs; calls := cs |}
    = lyp_write ok out buf {| pending := rs; calls := cs ++ repeat buf (length ts) |} /\
  (forall r, would_block r = false ->
     exists e out',
       lyp_write ok out buf {| pending := ts ++ r :: rs; calls := cs |}
         = Done (e, out', {| pending := rs; calls := cs ++ repeat buf (length ts) ++ [buf] |}) /\
       status out' = e /\
       (e = LY_SUCCESS <-> written r = Z.of_N (len buf))) /\
  (rs = [] -> lyp_write ok out buf {| pending := ts ++ rs; calls := cs |} = Starved) /\
  (forall r, through_fwrite (type out) = true -> short_would_block (len buf) r = true ->
     lyp_write ok out buf {| pending := r :: rs; calls := cs |}
       = Done (LY_ESYS, set_status LY_ESYS out, {| pending := rs; calls := cs ++ [buf] |})) /\
  (forall fmt ok' msg t, would_block t = true -> type out <> LYP_OUT_CALLBACK \/ fmt = true ->
     (Z.of_nat (length msg) <= INT_MAX)%Z ->
     lyp_print true fmt ok' out msg {| pending := t :: rs; calls := cs |}
       = Done (LY_ESYS, set_status LY_ESYS out,
               {| pending := rs; calls := cs ++ [map Val msg] |})).
Proof.
  intros Hs Hh Ht Hts.
  split; [|split; [|split; [|split]]].
  - rewrite !lyp_write_direct by assumption. simpl.
    now apply lyp_write_repeat_would_block.
  - intros r Hr.
    rewrite lyp_write_direct by assumption. simpl.
    rewrite lyp_write_repeat_would_block by assumption. simpl.
    unfold would_block in Hr. unfold lyp_write_check.
    rewrite <- app_assoc.
    destruct (Z.ltb_spec (written r) 0) as [Hneg|Hpos].
    + simpl in Hr. rewrite Hr.
      eexists. eexists. split; [reflexivity|]. split; [reflexivity|].
      split; [discriminate | unfold len; lia].
    + destruct (N.eqb_spec (Z.to_N (written r)) (len buf)) as [He|Hne]; simpl.
      * eexists. eexists. split; [reflexivity|]. split; [exact Hs|].
        split; [lia | reflexivity].
      * eexists. eexists. split; [reflexivity|]. split; [reflexivity|].
        split; [discriminate | lia].
  - intros ->. rewrite lyp_write_direct by assumption. simpl.
    rewrite lyp_write_repeat_would_block by assumption. reflexivity.
  - intros r _ Hr. rewrite lyp_write_direct by assumption. simpl.
    unfold short_would_block in Hr.
    apply andb_prop in Hr as [Hr _]. apply andb_prop in Hr as [Hpos Hshort].
    unfold lyp_write_check.
    destruct (Z.ltb_spec (written r) 0) as [Hneg|_]; [apply Z.leb_le in Hpos; lia|].
    apply N.ltb_lt in Hshort.
    destruct (N.eqb_spec (Z.to_N (written r)) (len buf)) as [He|_]; [lia|]. reflexivity.
  - intros fmt ok' msg t Hb Hfmt Hlen. unfold lyp_print.
    rewrite (LYOUT_CHECK_clear _ Hs).
    unfold would_block in Hb. apply andb_prop in Hb as [Hneg _].
    assert (Hv : Z.ltb (if fmt && (Z.of_nat (length msg) <=? INT_MAX)%Z
                        then Z.of_nat (length msg) else (-1)%Z) 0 = negb fmt).
    { destruct (Z.leb_spec (Z.of_nat (length msg)) INT_MAX); [|lia].
      destruct fmt; simpl; [apply Z.ltb_ge; lia | reflexivity]. }
    destruct (type out) eqn:Hty; simpl in Ht; try discriminate; simpl;
      try (rewrite Hneg; reflexivity).
    rewrite Hv. destruct Hfmt as [Hfmt|Hfmt]; [congruence|]. subst fmt. simpl.
    rewrite Hneg. reflexivity.
Qed.

(** C5 fails as stated, for both write operations.  The formatted write
    of "abc" to a callback that reports [EAGAIN] once returns [LY_ESYS]
    with the sticky status set, and leaves the callback's next result
    unused.  The raw write of "abc" to a stream whose [fwrite] writes no
    byte and reports [EAGAIN] returns [LY_ESYS] with the sticky status
    set as well, and leaves the next result unused. *)
Lemma formatted_write_fails_on_would_block :
  lyp_print true true true callback_sink (str "abc")
      (answers [failed EAGAIN; accepted 3])
    = Done (LY_ESYS, set_status LY_ESYS callback_sink,
            {| pending := [accepted 3]; calls := [bytes "abc"] |}) /\
  lyp_write true file_sink (bytes "abc")
      (answers [{| written := 0; errno := EAGAIN |}; accepted 3])
    = Done (LY_ESYS, set_status LY_ESYS file_sink,
            {| pending := [accepted 3]; calls := [bytes "abc"] |}).
Proof. split; reflexivity. Qed.

(** The theorem at a callback that reports [EAGAIN] twice and then accepts
    the three bytes: three calls with "abc", success; and at a stream
    whose [fwrite] writes one byte of "abc" and reports [EAGAIN]: one
    call, failure. *)
Lemma would_block_retried_by_raw_write_witness :
  lyp_write true callback_sink (bytes "abc")
      (answers ([failed EAGAIN; failed EWOULDBLOCK] ++ [accepted 3]))
    = Done (LY_SUCCESS, set_printed 3 callback_sink,
            {| pending := []; calls := [bytes "abc"; bytes "abc"; bytes "abc"] |}) /\
  lyp_write true file_sink (bytes "abc")
      {| pending := [{| written := 1; errno := EAGAIN |}]; calls := [] |}
    = Done (LY_ESYS, set_status LY_ESYS file_sink,
            {| pending := []; calls := [] ++ [bytes "abc"] |}).
Proof.
  split.
  - pose proof (would_block_retried_by_raw_write true callback_sink (bytes "abc")
                  [failed EAGAIN; failed EWOULDBLOCK] [accepted 3] []
                  eq_refl eq_refl eq_refl eq_refl) as [H _].
    etransitivity; [exact H | reflexivity].
  - apply (proj1 (proj2 (proj2 (proj2
             (would_block_retried_by_raw_write true file_sink (bytes "abc") [] [] []
                eq_refl eq_refl eq_refl eq_refl)))) {| written := 1; errno := EAGAIN |});
      reflexivity.
Defined.

(** ** Growth of the hole buffer *)

(** C9, as the code has it: when the allocator refuses to grow the hole
    buffer, the buffered raw write and the reservation both return the
    memory error, and the hole buffer is given up: its pointer is null and
    its length and size are zero.  The reservation also sets the sticky
    status; the raw write leaves the status alone.  The hole counter keeps
    its value in both. *)
Theorem hole_buffer_growth_failure (out : lyp_out) :
  status out = LY_SUCCESS -> buffered out <> Freed ->
  (forall buf w,
     hole_count out <> 0 -> buf_size out < size_t_add (buf_len out) (len buf) ->
     lyp_write false out buf w = Done (LY_EMEM, set_buffer Null 0 0 out, w)) /\
  (forall count,
     has_target (type out) = true -> buf_size out < size_t_add (buf_len out) count ->
     ly_write_skip false out count
       = Done (LY_EMEM, None, set_status LY_ESYS (set_buffer Null 0 0 out))).
Proof.
  intros Hs Hb. split.
  - intros buf w Hh Hlt. unfold lyp_write.
    rewrite (LYOUT_CHECK_clear _ Hs).
    destruct (N.eqb_spec (hole_count out) 0); [contradiction|]. simpl.
    apply N.ltb_lt in Hlt. rewrite Hlt.
    destruct (buffered out); [reflexivity | reflexivity | contradiction].
  - intros count Ht Hlt. unfold ly_write_skip.
    rewrite (LYOUT_CHECK_clear _ Hs).
    apply N.ltb_lt in Hlt.
    destruct (type out); simpl in Ht; try discriminate; rewrite Hlt;
      (destruct (buffered out); [reflexivity | reflexivity | contradiction]).
Qed.

(** C9 fails as stated: with two reserved bytes in the hole buffer, a raw
    write of "abc" that the allocator refuses returns the memory error and
    leaves no hole buffer: the pointer is null, length and size are zero. *)
Lemma growth_failure_loses_hole_buffer :
  ly_write_skip true callback_sink 2
    = Done (LY_SUCCESS, Some 0, buffering_sink [Undef; Undef] 1) /\
  lyp_write false (buffering_sink [Undef; Undef] 1) (bytes "abc") (answers [])
    = Done (LY_EMEM, set_buffer Null 0 0 (buffering_sink [Undef; Undef] 1), answers []) /\
  buf_len (set_buffer Null 0 0 (buffering_sink [Undef; Undef] 1)) = 0 /\
  buf_size (set_buffer Null 0 0 (buffering_sink [Undef; Undef] 1)) = 0.
Proof. repeat split. Qed.

(** The theorem at the reservation of three more bytes after two. *)
Lemma hole_buffer_growth_failure_witness :
  ly_write_skip false (buffering_sink [Undef; Undef] 1) 3
    = Done (LY_EMEM, None,
            set_status LY_ESYS (set_buffer Null 0 0 (buffering_sink [Undef; Undef] 1))).
Proof.
  apply (hole_buffer_growth_failure (buffering_sink [Undef; Undef] 1));
    [reflexivity | discriminate | reflexivity | reflexivity].
Defined.

(** ** Backfill and its only check *)

(** C3, as the code has it: on a sink with a target, a backfill whose range
    [position + count] (a [size_t] sum) ends past the hole buffer's current
    length is rejected: it returns the memory error, sets the sticky status
    and changes neither the hole buffer nor the hole counter, and the
    target sees nothing.  That is the only check.  A backfill whose range
    lies within the buffer is carried out whatever its token: its bytes
    replace the cells at that position and the hole counter is decremented
    (when the counter does not reach zero nothing else happens; in every
    case the call, if it returns, leaves the bytes in the buffer and the
    counter one lower). *)
Theorem backfill_checked_against_buffer_length (out : lyp_out) (position : N)
    (buf : list memval) (w : world) :
  status out = LY_SUCCESS -> has_target (type out) = true ->
  (buf_len out < size_t_add position (len buf) ->
   ly_write_skipped out position buf w = Done (LY_EMEM, set_status LY_ESYS out, w)) /\
  (forall cells,
     buffered out = Block cells -> buf_len out <= len cells -> buf_len out < SIZE_MOD ->
     position + len buf <= buf_len out ->
     size_t_dec (hole_count out) <> 0 ->
     ly_write_skipped out position buf w
       = Done (LY_SUCCESS,
               set_hole_count (size_t_dec (hole_count out))
                 (set_buffer (Block (splice cells position buf))
                    (buf_len out) (buf_size out) out), w)) /\
  (forall cells e out' w',
     buffered out = Block cells -> buf_len out <= len cells -> buf_len out < SIZE_MOD ->
     position + len buf <= buf_len out ->
     ly_write_skipped out position buf w = Done (e, out', w') ->
     buffered out' = Block (splice cells position buf) /\
     hole_count out' = size_t_dec (hole_count out)).
Proof.
  intros Hs Ht. split; [|split].
  - intros Hlt. unfold ly_write_skipped.
    rewrite (LYOUT_CHECK_clear _ Hs). apply N.ltb_lt in Hlt.
    destruct (type out); simpl in Ht; try discriminate; rewrite Hlt; reflexivity.
  - intros cells Hb Hlen Hfit Hin Hdec. unfold ly_write_skipped.
    rewrite (LYOUT_CHECK_clear _ Hs).
    assert (Hge : (buf_len out <? size_t_add position (len buf)) = false).
    { apply N.ltb_ge. rewrite size_t_add_small; lia. }
    assert (Hcp : memcpy (buffered out) position buf = Some (Block (splice cells position buf))).
    { rewrite Hb. apply memcpy_block. lia. }
    apply N.eqb_neq in Hdec.
    destruct (type out); simpl in Ht; try discriminate;
      rewrite Hge, Hcp; simpl; rewrite Hdec; reflexivity.
  - intros cells e out' w' Hb Hlen Hfit Hin Hw.
    assert (Hge : (buf_len out <? size_t_add position (len buf)) = false).
    { apply N.ltb_ge. rewrite size_t_add_small; lia. }
    assert (Hcp : memcpy (buffered out) position buf = Some (Block (splice cells position buf))).
    { rewrite Hb. apply memcpy_block. lia. }
    set (out1 := set_hole_count (size_t_dec (hole_count out))
                   (set_buffer (Block (splice cells position buf))
                      (buf_len out) (buf_size out) out)) in *.
    assert (Hw1 : (if hole_count out1 =? 0
                   then match load (buffered out1) (buf_len out1) with
                        | None => Undefined
                        | Some data =>
                            match lyp_write true out1 data w with
                            | Done (ret, out2, w2) =>
                                Done (ret, set_buffer (buffered out2) 0 (buf_size out2) out2, w2)
                            | Undefined => Undefined
                            | Starved => Starved
                            end
                        end
                   else Done (LY_SUCCESS, out1, w)) = Done (e, out', w')).
    { rewrite <- Hw. unfold ly_write_skipped. rewrite (LYOUT_CHECK_clear _ Hs).
      destruct (type out); simpl in Ht; try discriminate; rewrite Hge, Hcp; reflexivity. }
    destruct (N.eqb_spec (hole_count out1) 0) as [Hz|Hnz].
    + destruct (load (buffered out1) (buf_len out1)) as [data|]; [|discriminate].
      rewrite lyp_write_direct in Hw1 by (assumption || exact Hs).
      destruct (lyp_write_repeat out1 data (pending w) (calls w)) as [[[ret out2] w2]| |] eqn:Hrep;
        try discriminate.
      injection Hw1 as _ <- _.
      apply lyp_write_repeat_keeps in Hrep as (Hb2 & Hh2 & _).
      cbn [buffered hole_count set_buffer]. rewrite Hb2, Hh2. split; reflexivity.
    + injection Hw1 as _ <- _. split; reflexivity.
Qed.

(** C3 fails as stated: after two reservations of two bytes each, a
    backfill of the first token with the four bytes "ABCD" is accepted and
    overwrites the second reservation; a second backfill of the same token
    is accepted as well, brings the counter to zero and sends "ZZCD" to the
    target although the second reservation was never backfilled. *)
Lemma backfill_beyond_reservation_accepted :
  ly_write_skip true callback_sink 2
    = Done (LY_SUCCESS, Some 0, buffering_sink [Undef; Undef] 1) /\
  ly_write_skip true (buffering_sink [Undef; Undef] 1) 2
    = Done (LY_SUCCESS, Some 2, buffering_sink [Undef; Undef; Undef; Undef] 2) /\
  ly_write_skipped (buffering_sink [Undef; Undef; Undef; Undef] 2) 0 (bytes "ABCD") (answers [accepted 4])
    = Done (LY_SUCCESS, buffering_sink (bytes "ABCD") 1, answers [accepted 4]) /\
  ly_write_skipped (buffering_sink (bytes "ABCD") 1) 0 (bytes "ZZ") (answers [accepted 4])
    = Done (LY_SUCCESS,
            set_printed 4 (set_hole_count 0 (set_buffer (Block (bytes "ZZCD")) 0 4 callback_sink)),
            {| pending := []; calls := [bytes "ZZCD"] |}).
Proof. repeat split. Qed.

(** The theorem at a backfill of three bytes into a buffer of two. *)
Lemma backfill_checked_against_buffer_length_witness :
  ly_write_skipped (buffering_sink [Undef; Undef] 1) 0 (bytes "abc") (answers [])
    = Done (LY_EMEM, set_status LY_ESYS (buffering_sink [Undef; Undef] 1), answers []).
Proof.
  apply (backfill_checked_against_buffer_length
           (buffering_sink [Undef; Undef] 1) 0 (bytes "abc") (answers []));
    reflexivity.
Defined.

(** ** Blocks and their contents *)

(** Goals about the lengths of lists, [len] included. *)
Ltac list_len :=
  unfold len, SIZE_MOD in *;
  repeat (progress (simpl length in *;
                    rewrite ?length_app, ?length_map, ?repeat_length in * ));
  lia.

Section Blocks.

Lemma to_nat_len {A : Type} (l : list A) : N.to_nat (len l) = length l.
Proof. unfold len. apply Nat2N.id. Qed.

Lemma len_firstn (cells : list memval) (n : N) :
  n <= len cells -> len (firstn (N.to_nat n) cells) = n.
Proof. unfold len. intros H. rewrite length_firstn. lia. Qed.

Lemma len_resize (cells : list memval) (size : N) : len (resize cells size) = size.
Proof. unfold resize, len. rewrite length_app, length_firstn, repeat_length. lia. Qed.

Lemma firstn_resize (cells : list memval) (size l : N) :
  l <= len cells -> l <= size ->
  firstn (N.to_nat l) (resize cells size) = firstn (N.to_nat l) cells.
Proof.
  unfold resize, len. intros H1 H2.
  rewrite firstn_app, firstn_firstn, length_firstn.
  replace (N.to_nat l - Nat.min (N.to_nat size) (length cells))%nat with 0%nat by lia.
  rewrite Nat.min_l by lia. simpl. apply app_nil_r.
Qed.

(** The first [l + n] cells are the first [l] and the [n] after them. *)
Lemma firstn_plus (cells : list memval) (l n : N) :
  l + n <= len cells ->
  exists junk, len junk = n /\
    firstn (N.to_nat (l + n)) cells = firstn (N.to_nat l) cells ++ junk.
Proof.
  unfold len. intros H.
  exists (firstn (N.to_nat n) (skipn (N.to_nat l) cells)). split.
  - rewrite length_firstn, length_skipn. lia.
  - rewrite firstn_skipn_comm.
    replace (N.to_nat l + N.to_nat n)%nat with (N.to_nat (l + n)) by lia.
    rewrite <- (firstn_skipn (N.to_nat l) (firstn (N.to_nat (l + n)) cells)) at 1.
    rewrite firstn_firstn. now rewrite Nat.min_l by lia.
Qed.

Lemma splice_app (pre old rest src : list memval) :
  len old = len src ->
  splice (pre ++ old ++ rest) (len pre) src = pre ++ src ++ rest.
Proof.
  unfold len, splice. intros H. rewrite Nat2N.id.
  rewrite firstn_app, firstn_all, Nat.sub_diag. simpl. rewrite app_nil_r.
  f_equal. f_equal.
  rewrite skipn_app, skipn_all2 by lia. simpl.
  replace (length pre + length src - length pre)%nat with (length old) by lia.
  rewrite skipn_app, skipn_all, Nat.sub_diag. reflexivity.
Qed.

Lemma firstn_three {A : Type} (a b c d : list A) (n : nat) :
  n = length (a ++ b ++ c) -> firstn n (a ++ b ++ c ++ d) = a ++ b ++ c.
Proof.
  intros ->. replace (a ++ b ++ c ++ d) with ((a ++ b ++ c) ++ d)
    by (now rewrite <- !app_assoc).
  rewrite firstn_app, firstn_all, Nat.sub_diag, firstn_O. apply app_nil_r.
Qed.

Lemma cells_of_not_nil (p : ptr) : cells_of p <> [] -> exists cells, p = Block cells.
Proof. destruct p; simpl; intros H; try congruence. now exists cells. Qed.

(** A copy over the part [old] of the first [l] cells of a block. *)
Lemma memcpy_content (p : ptr) (l : N) (pre old post src : list memval) :
  p <> Freed -> l <= len (cells_of p) ->
  firstn (N.to_nat l) (cells_of p) = pre ++ old ++ post ->
  len old = len src ->
  exists p',
    memcpy p (len pre) src = Some p' /\ p' <> Freed /\
    len (cells_of p') = len (cells_of p) /\
    firstn (N.to_nat l) (cells_of p') = pre ++ src ++ post.
Proof.
  intros Hp Hl Hc Ho.
  destruct src as [|b src].
  - exists p. apply len_nil_inv in Ho. subst old. simpl app. split; [|auto].
    destruct p as [|cells|]; [| |congruence].
    + simpl in Hc. rewrite firstn_nil in Hc. destruct pre; [reflexivity | discriminate].
    + simpl in Hc. unfold memcpy.
      assert (Hpre : len pre <= len cells).
      { apply (f_equal (@length memval)) in Hc. rewrite length_firstn, length_app in Hc.
        unfold len. lia. }
      destruct (N.leb_spec (len pre) (len cells)); [reflexivity | lia].
  - destruct (cells_of_not_nil p) as [cells ->].
    { intros E. rewrite E, firstn_nil in Hc. unfold len in Ho.
      destruct pre, old; simpl in *; try discriminate; lia. }
    simpl cells_of in *.
    pose proof (firstn_skipn (N.to_nat l) cells) as Hsplit. rewrite Hc in Hsplit.
    remember (skipn (N.to_nat l) cells) as slack eqn:Hslack. clear Hslack.
    assert (Hlen : l = len (pre ++ old ++ post)).
    { rewrite <- Hc. symmetry. now apply len_firstn. }
    exists (Block (splice cells (len pre) (b :: src))). split; [|split; [discriminate|]].
    + apply memcpy_block. rewrite !len_app in Hlen. lia.
    + rewrite <- Hsplit, <- !app_assoc, splice_app by assumption. simpl cells_of.
      split.
      * list_len.
      * apply (firstn_three pre (b :: src) post slack). rewrite Hlen, to_nat_len. list_len.
Qed.

(** What [ly_realloc] returns when the allocator serves the request. *)
Lemma ly_realloc_served (p : ptr) (size : N) :
  p <> Freed -> ly_realloc true p size = Some (Block (resize (cells_of p) size)).
Proof.
  destruct p; simpl; intros H; try congruence.
  unfold resize. simpl. now rewrite firstn_nil, Nat.sub_0_r.
Qed.

End Blocks.

(** ** The hole buffer under the three calls *)

Section HoleBuffer.

Lemma len_hole_content (out : lyp_out) :
  buffer_ok out -> len (hole_content out) = buf_len out.
Proof.
  intros (_ & Hsz & Hle & _). unfold hole_content. apply len_firstn. lia.
Qed.

Lemma load_live (p : ptr) (n : N) :
  p <> Freed -> n <= len (cells_of p) -> load p n = Some (firstn (N.to_nat n) (cells_of p)).
Proof.
  intros Hp Hn. unfold load. destruct (N.eqb_spec n 0) as [->|Hn0]; [reflexivity|].
  destruct p; simpl in *; try congruence.
  - unfold len in Hn. simpl in Hn. lia.
  - destruct (N.leb_spec n (len cells)); [reflexivity | lia].
Qed.

(** The block after a growth that the allocator served. *)
Lemma grown_block (p : ptr) (l need : N) :
  l <= len (cells_of p) -> l <= need ->
  len (cells_of (Block (resize (cells_of p) need))) = need /\
  firstn (N.to_nat l) (cells_of (Block (resize (cells_of p) need)))
    = firstn (N.to_nat l) (cells_of p).
Proof.
  intros H1 H2. simpl. split; [apply len_resize | now apply firstn_resize].
Qed.

(** A raw write while a hole is outstanding appends its bytes to the
    content of the hole buffer and touches nothing else. *)
Lemma buffered_write (out : lyp_out) (buf : list memval) (w : world) :
  status out = LY_SUCCESS -> hole_count out <> 0 -> buffer_ok out ->
  buf_len out + len buf < SIZE_MOD ->
  exists p s,
    lyp_write true out buf w
      = Done (LY_SUCCESS, set_buffer p (buf_len out + len buf) s out, w) /\
    buffer_ok (set_buffer p (buf_len out + len buf) s out) /\
    hole_content (set_buffer p (buf_len out + len buf) s out) = hole_content out ++ buf.
Proof.
  intros Hs Hh Hok Hfit. pose proof (len_hole_content _ Hok) as Hlc.
  destruct Hok as (Hp & Hsz & Hle & Hsf).
  unfold lyp_write. rewrite (LYOUT_CHECK_clear _ Hs).
  destruct (N.eqb_spec (hole_count out) 0); [contradiction|]. simpl.
  rewrite size_t_add_small by assumption.
  destruct (N.ltb_spec (buf_size out) (buf_len out + len buf)) as [Hgrow|Hroom].
  - rewrite ly_realloc_served by assumption. simpl.
    destruct (grown_block (buffered out) (buf_len out) (buf_len out + len buf))
      as [Hl1 Hf1]; [lia | lia |].
    destruct (firstn_plus (resize (cells_of (buffered out)) (buf_len out + len buf))
                (buf_len out) (len buf)) as (junk & Hj & Hcut); [simpl cells_of in Hl1; lia|].
    simpl cells_of in Hf1, Hl1. rewrite Hf1 in Hcut. fold (hole_content out) in Hcut.
    destruct (memcpy_content (Block (resize (cells_of (buffered out)) (buf_len out + len buf)))
                (buf_len out + len buf) (hole_content out) junk [] buf)
      as (p' & Hcp & Hp' & Hl' & Hc');
      [discriminate | simpl cells_of in *; lia | | assumption |].
    { simpl cells_of. rewrite Hcut. now rewrite app_nil_r. }
    rewrite Hlc in Hcp. rewrite Hcp.
    exists p', (buf_len out + len buf). split; [reflexivity|]. split.
    + unfold buffer_ok. simpl. rewrite Hl'. simpl cells_of.
      repeat split; try assumption; lia.
    + unfold hole_content at 1. simpl. rewrite Hc'. now rewrite app_nil_r.
  - destruct (firstn_plus (cells_of (buffered out)) (buf_len out) (len buf))
      as (junk & Hj & Hcut); [lia|].
    fold (hole_content out) in Hcut.
    destruct (memcpy_content (buffered out) (buf_len out + len buf) (hole_content out) junk [] buf)
      as (p' & Hcp & Hp' & Hl' & Hc'); [assumption | lia | | assumption |].
    { rewrite Hcut. now rewrite app_nil_r. }
    rewrite Hlc in Hcp. rewrite Hcp.
    exists p', (buf_size out). split; [reflexivity|]. split.
    + unfold buffer_ok. simpl. rewrite Hl'. repeat split; try assumption; lia.
    + unfold hole_content at 1. simpl. rewrite Hc'. now rewrite app_nil_r.
Qed.

(** A reservation on a sink with a target appends [count] cells to the
    content of the hole buffer, returns the offset where they start and
    counts one more hole. *)
Lemma reserved (out : lyp_out) (count : N) :
  status out = LY_SUCCESS -> has_target (type out) = true -> buffer_ok out ->
  buf_len out + count < SIZE_MOD -> hole_count out + 1 < SIZE_MOD ->
  exists p s junk,
    let out' := set_hole_count (hole_count out + 1)
                  (set_buffer p (buf_len out + count) s out) in
    ly_write_skip true out count = Done (LY_SUCCESS, Some (buf_len out), out') /\
    buffer_ok out' /\
    hole_content out' = hole_content out ++ junk /\ len junk = count.
Proof.
  intros Hs Ht Hok Hfit Hholes.
  destruct Hok as (Hp & Hsz & Hle & Hsf).
  assert (Hskip : ly_write_skip true out count =
    let need := size_t_add (buf_len out) count in
    let skip (p' : ptr) (size : N) :=
      Done (LY_SUCCESS, Some (buf_len out),
            set_hole_count (size_t_add (hole_count out) 1) (set_buffer p' need size out)) in
    if buf_size out <? need then
      match ly_realloc true (buffered out) need with
      | None => Undefined
      | Some Null => Done (LOGMEM_RET, None, set_status LY_ESYS (set_buffer Null 0 0 out))
      | Some p' => skip p' need
      end
    else skip (buffered out) (buf_size out)).
  { unfold ly_write_skip. rewrite (LYOUT_CHECK_clear _ Hs).
    destruct (type out); simpl in Ht; try discriminate; reflexivity. }
  rewrite Hskip. cbv zeta.
  rewrite !size_t_add_small by assumption.
  destruct (N.ltb_spec (buf_size out) (buf_len out + count)) as [Hgrow|Hroom].
  - rewrite ly_realloc_served by assumption.
    destruct (grown_block (buffered out) (buf_len out) (buf_len out + count))
      as [Hl1 Hf1]; [lia | lia |].
    destruct (firstn_plus (resize (cells_of (buffered out)) (buf_len out + count))
                (buf_len out) count) as (junk & Hj & Hcut); [simpl cells_of in Hl1; lia|].
    simpl cells_of in Hf1, Hl1. rewrite Hf1 in Hcut. fold (hole_content out) in Hcut.
    exists (Block (resize (cells_of (buffered out)) (buf_len out + count))),
           (buf_len out + count), junk.
    split; [reflexivity|]. split; [|split; [exact Hcut | exact Hj]].
    unfold buffer_ok. simpl. repeat split; try discriminate; try assumption; lia.
  - destruct (firstn_plus (cells_of (buffered out)) (buf_len out) count)
      as (junk & Hj & Hcut); [lia|].
    fold (hole_content out) in Hcut.
    exists (buffered out), (buf_size out), junk.
    split; [reflexivity|]. split; [|split; [exact Hcut | exact Hj]].
    unfold buffer_ok. simpl. repeat split; try assumption; lia.
Qed.

(** A backfill of the part [old] of the content, with as many bytes as
    [old] has: the bytes take the place of [old], the counter goes down
    by one, and when it reaches zero the whole content is handed to the
    raw write and the length is reset. *)
Lemma backfilled_hole (out : lyp_out) (buf pre old post : list memval) (w : world) :
  status out = LY_SUCCESS -> has_target (type out) = true -> buffer_ok out ->
  hole_content out = pre ++ old ++ post -> len old = len buf ->
  0 < hole_count out -> hole_count out < SIZE_MOD ->
  exists p,
    let out1 := set_hole_count (hole_count out - 1)
                  (set_buffer p (buf_len out) (buf_size out) out) in
    buffer_ok out1 /\ hole_content out1 = pre ++ buf ++ post /\
    ly_write_skipped out (len pre) buf w =
      if hole_count out =? 1 then
        match lyp_write_repeat out1 (pre ++ buf ++ post) (pending w) (calls w) with
        | Done (ret, out2, w') =>
            Done (ret, set_buffer (buffered out2) 0 (buf_size out2) out2, w')
        | Undefined => Undefined
        | Starved => Starved
        end
      else Done (LY_SUCCESS, out1, w).
Proof.
  intros Hs Ht Hok Hc Ho Hpos Hfit. pose proof (len_hole_content _ Hok) as Hlc.
  destruct Hok as (Hp & Hsz & Hle & Hsf).
  assert (Hskip : ly_write_skipped out (len pre) buf w =
    if buf_len out <? size_t_add (len pre) (len buf) then
      Done (LOGMEM_RET, set_status LY_ESYS out, w)
    else
      match memcpy (buffered out) (len pre) buf with
      | None => Undefined
      | Some p =>
          let out1 := set_hole_count (size_t_dec (hole_count out))
                        (set_buffer p (buf_len out) (buf_size out) out) in
          if hole_count out1 =? 0 then
            match load (buffered out1) (buf_len out1) with
            | None => Undefined
            | Some data =>
                match lyp_write true out1 data w with
                | Done (ret, out2, w') =>
                    Done (ret, set_buffer (buffered out2) 0 (buf_size out2) out2, w')
                | Undefined => Undefined
                | Starved => Starved
                end
            end
          else Done (LY_SUCCESS, out1, w)
      end).
  { unfold ly_write_skipped. rewrite (LYOUT_CHECK_clear _ Hs).
    destruct (type out); simpl in Ht; try discriminate; reflexivity. }
  rewrite Hc in Hlc. rewrite !len_app in Hlc.
  destruct (memcpy_content (buffered out) (buf_len out) pre old post buf)
    as (p & Hcp & Hp' & Hl' & Hc'); [assumption | lia | exact Hc | assumption |].
  exists p. cbv zeta.
  assert (Hok1 : buffer_ok (set_hole_count (hole_count out - 1)
                             (set_buffer p (buf_len out) (buf_size out) out))).
  { unfold buffer_ok. simpl. rewrite Hl'. repeat split; assumption. }
  split; [exact Hok1|]. split; [exact Hc'|].
  rewrite Hskip, Hcp. cbv zeta.
  rewrite size_t_add_small by lia.
  destruct (N.ltb_spec (buf_len out) (len pre + len buf)); [lia|].
  rewrite size_t_dec_pos by assumption. simpl hole_count.
  destruct (N.eqb_spec (hole_count out) 1) as [H1|H1].
  - destruct (N.eqb_spec (hole_count out - 1) 0); [|lia].
    simpl buffered. simpl buf_len.
    rewrite load_live by (try assumption; lia). rewrite Hc'.
    rewrite lyp_write_direct by (simpl; assumption || lia). reflexivity.
  - destruct (N.eqb_spec (hole_count out - 1) 0); [lia|]. reflexivity.
Qed.

(** The raw write shows the same outside whatever hole buffer the sink
    carries. *)
Lemma lyp_write_repeat_observe (o1 o2 : lyp_out) (buf : list memval) (rs : list response) :
  printed o1 = printed o2 -> status o1 = status o2 ->
  forall cs, observe (lyp_write_repeat o1 buf rs cs) = observe (lyp_write_repeat o2 buf rs cs).
Proof.
  intros Hp Hs. induction rs as [|r rs IH]; intros cs; simpl; [reflexivity|].
  unfold lyp_write_check.
  destruct (written r <? 0)%Z.
  - destruct ((errno r =? EAGAIN)%Z || (errno r =? EWOULDBLOCK)%Z);
      [apply IH | simpl; now rewrite Hp].
  - destruct (negb (Z.to_N (written r) =? len buf)); simpl; now rewrite Hp, ?Hs.
Qed.

End HoleBuffer.

(** ** The sequence and its layout in the hole buffer *)

Section Layout.

Lemma laid_out_app (toks : list N) (off : N) (es : list entry) (c : list memval) :
  laid_out toks off es c ->
  forall es' c', laid_out toks (off + len c) es' c' ->
  laid_out toks off (es ++ es') (c ++ c').
Proof.
  induction 1 as [off | off bs es rest _ IH | off id count junk es rest Htok Hj _ IH];
    intros es' c' H'.
  - simpl. now replace (off + len (@nil memval)) with off in H' by list_len.
  - simpl. rewrite <- app_assoc. constructor. apply IH.
    now replace (off + len bs + len rest) with (off + len (map Val bs ++ rest)) by list_len.
  - simpl. rewrite <- app_assoc. constructor; [assumption | assumption |]. apply IH.
    now replace (off + count + len rest) with (off + len (junk ++ rest)) by list_len.
Qed.

Lemma laid_out_more_tokens (toks more : list N) (off : N) (es : list entry) (c : list memval) :
  laid_out toks off es c -> laid_out (toks ++ more) off es c.
Proof.
  induction 1; constructor; try assumption.
  rewrite nth_error_app1; [assumption|]. apply nth_error_Some. congruence.
Qed.

Lemma laid_out_backfilled (toks : list N) (off : N) (es : list entry) (c : list memval) :
  laid_out toks off es c ->
  forall id bs es', backfilled id bs es = Some es' ->
  exists pre old post,
    c = pre ++ old ++ post /\ len old = len (map Val bs) /\
    nth_error toks id = Some (off + len pre) /\
    laid_out toks off es' (pre ++ map Val bs ++ post).
Proof.
  induction 1 as [off | off b es rest _ IH | off id' count junk es rest Htok Hj Hrest IH];
    intros id bs es' Hb; simpl in Hb.
  - discriminate.
  - destruct (backfilled id bs es) as [es1|] eqn:E; [|discriminate].
    injection Hb as <-.
    destruct (IH _ _ _ E) as (pre & old & post & -> & Ho & Htok & Hl).
    exists (map Val b ++ pre), old, post. rewrite <- !app_assoc.
    split; [reflexivity|]. split; [assumption|]. split.
    + rewrite Htok. f_equal. list_len.
    + now constructor.
  - destruct (Nat.eqb_spec id' id) as [->|Hne].
    + destruct (N.eqb_spec count (len bs)) as [Hc|]; [|discriminate].
      injection Hb as <-.
      exists [], junk, rest. simpl.
      split; [reflexivity|]. split; [list_len|]. split.
      * rewrite Htok. f_equal. list_len.
      * constructor. now rewrite <- Hc.
    + destruct (backfilled id bs es) as [es1|] eqn:E; [|discriminate].
      injection Hb as <-.
      destruct (IH _ _ _ E) as (pre & old & post & -> & Ho & Htok' & Hl).
      exists (junk ++ pre), old, post. rewrite <- !app_assoc.
      split; [reflexivity|]. split; [assumption|]. split.
      * rewrite Htok'. f_equal. list_len.
      * now constructor.
Qed.

Lemma outstanding_backfilled (id : nat) (bs : list byte) (es es' : list entry) :
  backfilled id bs es = Some es' -> outstanding es = S (outstanding es').
Proof.
  revert es'. unfold outstanding.
  induction es as [|[b|id' count] es IH]; intros es' Hb; simpl in Hb.
  - discriminate.
  - destruct (backfilled id bs es); [|discriminate]. injection Hb as <-.
    simpl. now apply IH.
  - destruct (id' =? id)%nat.
    + destruct (count =? len bs); [|discriminate]. injection Hb as <-. reflexivity.
    + destruct (backfilled id bs es); [|discriminate]. injection Hb as <-.
      simpl. f_equal. now apply IH.
Qed.

Lemma outstanding_app (es es' : list entry) :
  outstanding (es ++ es') = (outstanding es + outstanding es')%nat.
Proof. unfold outstanding. now rewrite filter_app, length_app. Qed.

Lemma outstanding_bytes (es : list entry) (bs : list byte) :
  outstanding (es ++ [Bytes bs]) = outstanding es.
Proof. rewrite outstanding_app. unfold outstanding. simpl. lia. Qed.

Lemma outstanding_hole (es : list entry) (id : nat) (count : N) :
  outstanding (es ++ [Hole id count]) = S (outstanding es).
Proof. rewrite outstanding_app. unfold outstanding. simpl. lia. Qed.

(** A sequence without outstanding hole is laid out as its bytes. *)
Lemma laid_out_resolved (toks : list N) (off : N) (es : list entry) (c : list memval) :
  laid_out toks off es c -> outstanding es = 0%nat -> c = map Val (resolved es).
Proof.
  induction 1 as [off | off bs es rest _ IH | ]; intros Hn.
  - reflexivity.
  - unfold resolved. simpl. rewrite map_app. f_equal. now apply IH.
  - discriminate.
Qed.

Lemma run_last (c : call) (s : caller) :
  observe_run (run [c] s) = observe_run (step c s).
Proof.
  simpl. destruct (step c s) as [[e s']| |]; try reflexivity. now destruct e.
Qed.

End Layout.

(** ** The ordering law *)

Section Ordering.

Variable out0 : lyp_out.
Variable w0 : world.
Hypothesis target0 : has_target (type out0) = true.

Lemma run_step (c : call) (cs : list call) (s s1 : caller) :
  step c s = Done (LY_SUCCESS, s1) -> run (c :: cs) s = run cs s1.
Proof. intros H. cbn [run]. now rewrite H. Qed.

Lemma quiet_step (c : call) (cs : list call) (o o1 : lyp_out) (toks toks1 : list N) :
  step c (o, w0, toks) = Done (LY_SUCCESS, (o1, w0, toks1)) -> hole_count o <> 0 ->
  (forall pre post, cs = pre ++ post -> post <> [] -> quiet w0 pre o1 toks1) ->
  forall pre post, c :: cs = pre ++ post -> post <> [] -> quiet w0 pre o toks.
Proof.
  intros Hstep Hh H pre post Hsplit Hpost. destruct pre as [|c' pre].
  - exists o, toks. split; [reflexivity | assumption].
  - simpl in Hsplit. injection Hsplit as <- Hcs.
    destruct (H pre post Hcs Hpost) as (o' & toks' & Hrun & Hh').
    exists o', toks'. split; [|assumption]. now rewrite (run_step _ _ _ _ Hstep).
Qed.

(** The calls of a hole context, from a sink whose hole buffer holds the
    sequence so far: every call before the last one succeeds and leaves
    the world alone, and the last one shows what a raw write of the
    final sequence's bytes shows. *)
Lemma inside_run (cs : list call) :
  forall next es final o toks,
    inside next es cs = Some final ->
    laid_out toks 0 es (hole_content o) -> length toks = next ->
    hole_count o = N.of_nat (outstanding es) -> outstanding es <> 0%nat ->
    status o = LY_SUCCESS -> type o = type out0 ->
    printed o = printed out0 -> status out0 = LY_SUCCESS ->
    buffer_ok o ->
    buf_len o + volume cs < SIZE_MOD ->
    N.of_nat (outstanding es) + N.of_nat (length cs) < SIZE_MOD ->
    (forall pre post, cs = pre ++ post -> post <> [] -> quiet w0 pre o toks) /\
    observe_run (run cs (o, w0, toks))
      = observe (lyp_write_repeat out0 (map Val (resolved final)) (pending w0) (calls w0)).
Proof.
  induction cs as [|c cs IH];
    intros next es final o toks Hin Hlaid Hnext Hh Hopen Hs Hty Hpr Hs0 Hok Hvol Hcnt.
  - discriminate.
  - assert (Hh0 : hole_count o <> 0) by lia.
    assert (Ht : has_target (type o) = true) by now rewrite Hty.
    destruct c as [buf | msg | count | hole buf]; simpl in Hin, Hvol, Hcnt;
      [| discriminate Hin | |].
    + (* a raw write *)
      destruct (buffered_write o (map Val buf) w0) as (p & s & Hw & Hok1 & Hc1);
        [assumption | assumption | assumption | list_len |].
      set (o1 := set_buffer p (buf_len o + len (map Val buf)) s o) in *.
      assert (Hstep : step (Write buf) (o, w0, toks) = Done (LY_SUCCESS, (o1, w0, toks)))
        by (simpl; now rewrite Hw).
      destruct (IH next (es ++ [Bytes buf]) final o1 toks) as [Hq Hobs];
        [ first [ assumption
                | rewrite Hc1; apply laid_out_app; [assumption|];
                  rewrite <- (app_nil_r (map Val buf)); constructor; constructor
                | rewrite outstanding_bytes; first [assumption | lia]
                | subst o1; cbn [buf_len set_buffer]; list_len ] .. | ].
      split; [now apply (quiet_step _ _ _ _ _ _ Hstep)|].
      now rewrite (run_step _ _ _ _ Hstep).
    + (* a reservation *)
      destruct (reserved o count) as (p & s & junk & Hr & Hok1 & Hc1 & Hj);
        [assumption | assumption | assumption | lia | lia |].
      cbv zeta in Hr, Hok1, Hc1.
      set (o1 := set_hole_count (hole_count o + 1) (set_buffer p (buf_len o + count) s o)) in *.
      assert (Hstep : step (Reserve count) (o, w0, toks)
                      = Done (LY_SUCCESS, (o1, w0, toks ++ [buf_len o])))
        by (simpl; now rewrite Hr).
      assert (Hlaid1 : laid_out (toks ++ [buf_len o]) 0 (es ++ [Hole next count])
                         (hole_content o1)).
      { rewrite Hc1. apply laid_out_app; [now apply laid_out_more_tokens|].
        rewrite <- (app_nil_r junk). constructor; [|assumption|constructor].
        rewrite nth_error_app2 by lia. rewrite <- Hnext, Nat.sub_diag. simpl.
        f_equal. rewrite len_hole_content by assumption. reflexivity. }
      destruct (IH (S next) (es ++ [Hole next count]) final o1 (toks ++ [buf_len o]))
        as [Hq Hobs];
        [ first [ assumption
                | rewrite length_app; simpl; lia
                | subst o1; cbn [hole_count buf_len set_buffer set_hole_count];
                  rewrite ?outstanding_hole; lia
                | rewrite outstanding_hole; lia ] .. | ].
      split; [now apply (quiet_step _ _ _ _ _ _ Hstep)|].
      now rewrite (run_step _ _ _ _ Hstep).
    + (* a backfill *)
      destruct (backfilled hole buf es) as [es'|] eqn:Hb; [|discriminate].
      destruct (laid_out_backfilled _ _ _ _ Hlaid _ _ _ Hb)
        as (pre & old & post & Hc & Ho & Htok & Hl').
      pose proof (outstanding_backfilled _ _ _ _ Hb) as Hout.
      destruct (backfilled_hole o (map Val buf) pre old post w0) as (p & Hok1 & Hc1 & Hsk);
        [assumption | assumption | assumption | assumption | assumption | lia | lia |].
      cbv zeta in Hok1, Hc1, Hsk.
      set (o1 := set_hole_count (hole_count o - 1) (set_buffer p (buf_len o) (buf_size o) o)) in *.
      simpl in Htok.
      destruct (Nat.eqb_spec (outstanding es') 0) as [Hz|Hnz].
      * (* the last hole is retired *)
        destruct cs; [|discriminate]. injection Hin as <-.
        destruct (N.eqb_spec (hole_count o) 1) as [_|H1]; [|lia].
        split.
        -- intros pre' post' Hsplit Hpost. destruct pre' as [|c' pre'].
           ++ exists o, toks. split; [reflexivity | assumption].
           ++ simpl in Hsplit. injection Hsplit as _ Hnil.
              destruct pre'; [simpl in Hnil; congruence | discriminate].
        -- rewrite run_last. simpl. rewrite Htok, Hsk.
           rewrite <- (laid_out_resolved _ _ _ _ Hl' Hz).
           rewrite <- (lyp_write_repeat_observe o1 out0); [|assumption|simpl; congruence].
           destruct (lyp_write_repeat o1 (pre ++ map Val buf ++ post) (pending w0) (calls w0))
             as [[[ret out2] w']| |]; reflexivity.
      * destruct (N.eqb_spec (hole_count o) 1) as [H1|_]; [lia|].
        assert (Hstep : step (Backfill hole buf) (o, w0, toks) = Done (LY_SUCCESS, (o1, w0, toks)))
          by (simpl; now rewrite Htok, Hsk).
        destruct (IH next es' final o1 toks) as [Hq Hobs];
          [ first [ assumption
                  | now rewrite Hc1
                  | subst o1; cbn [hole_count buf_len set_buffer set_hole_count]; lia
                  | lia ] .. | ].
        split; [now apply (quiet_step _ _ _ _ _ _ Hstep)|].
        now rewrite (run_step _ _ _ _ Hstep).
Qed.

End Ordering.

(** C1, as the code has it.  On a sink with a target, take the calls of a
    hole context: raw writes, reservations and backfills from the
    reservation that opens the first hole to the backfill that retires the
    last one, every reservation backfilled once and with as many bytes as
    it reserved.  Every call before the last one succeeds without a call
    to the target, and the last backfill shows outside what a single raw
    write of the full sequence shows, holes replaced by their final
    content, in call order: the same calls to the target with the same
    bytes, the same return value, printed counter and status; a target
    that accepts the bytes has then been handed them in one call.  In
    particular a callback sink with a hole of two bytes and a raw write of
    "abc" after it hands nothing to the callback, and the backfill with
    "Z!" hands it "Z!abc" in one call.  The formatted write is outside
    this: whatever the hole counter, it hands its text to the target at
    once. *)
Theorem hole_context_delivered_in_call_order :
  (forall (out : lyp_out) (w : world) (cs : list call) (final : list entry),
     status out = LY_SUCCESS -> has_target (type out) = true ->
     hole_count out = 0 -> buf_len out = 0 -> buffer_ok out ->
     hole_context cs = Some final ->
     volume cs < SIZE_MOD -> N.of_nat (length cs) < SIZE_MOD ->
     (forall pre post, cs = pre ++ post -> post <> [] ->
        exists out' toks,
          run pre (out, w, []) = Done (LY_SUCCESS, (out', w, toks)) /\
          (pre <> [] -> hole_count out' <> 0)) /\
     observe_run (run cs (out, w, []))
       = observe (lyp_write true out (map Val (resolved final)) w) /\
     (forall rs, pending w = accepted (Z.of_N (len (resolved final))) :: rs ->
        observe_run (run cs (out, w, []))
          = Done (LY_SUCCESS, size_t_add (printed out) (len (resolved final)), LY_SUCCESS,
                  {| pending := rs; calls := calls w ++ [map Val (resolved final)] |}))) /\
  (run [Reserve 2; Write (str "abc")] (callback_sink, answers [accepted 5], [])
     = Done (LY_SUCCESS,
             (buffering_sink ([Undef; Undef] ++ bytes "abc") 1, answers [accepted 5], [0])) /\
   run [Reserve 2; Write (str "abc"); Backfill 0 (str "Z!")]
       (callback_sink, answers [accepted 5], [])
     = Done (LY_SUCCESS,
             (set_printed 5 (set_hole_count 0 (set_buffer (Block (bytes "Z!abc")) 0 5 callback_sink)),
              {| pending := []; calls := [bytes "Z!abc"] |}, [0]))) /\
  (forall (out : lyp_out) (msg : list byte) (r : response) (rs : list response)
          (cs : list (list memval)) (ok : bool),
     status out = LY_SUCCESS -> type out = LYP_OUT_CALLBACK ->
     (Z.of_nat (length msg) <= INT_MAX)%Z -> (0 <= written r)%Z ->
     lyp_print true true ok out msg {| pending := r :: rs; calls := cs |}
       = Done (LY_SUCCESS, set_printed (size_t_add (printed out) (Z.to_N (written r))) out,
               {| pending := rs; calls := cs ++ [map Val msg] |})).
Proof.
  split; [|split].
  - intros out w cs final Hs Ht Hh Hl Hok Hctx Hvol Hcnt.
    destruct cs as [|[buf | msg | count | hole buf] cs]; try discriminate.
    simpl in Hctx, Hvol. cbn [length] in Hcnt.
    destruct (reserved out count) as (p & s & junk & Hr & Hok1 & Hc1 & Hj);
      [assumption | assumption | assumption | lia | rewrite Hh; unfold SIZE_MOD; lia |].
    cbv zeta in Hr, Hok1, Hc1.
    set (o1 := set_hole_count (hole_count out + 1) (set_buffer p (buf_len out + count) s out)) in *.
    assert (Hstep : step (Reserve count) (out, w, []) = Done (LY_SUCCESS, (o1, w, [buf_len out])))
      by (simpl; now rewrite Hr).
    assert (Hempty : hole_content out = []) by (unfold hole_content; now rewrite Hl).
    assert (Hlaid1 : laid_out [buf_len out] 0 [Hole 0 count] (hole_content o1)).
    { rewrite Hc1, Hempty. simpl. rewrite <- (app_nil_r junk).
      constructor; [now rewrite Hl | assumption | constructor]. }
    destruct (inside_run out w Ht cs 1%nat [Hole 0 count] final o1 [buf_len out])
      as [Hq Hobs];
      [ first [ assumption | reflexivity
              | subst o1; cbn [hole_count buf_len set_buffer set_hole_count];
                unfold outstanding; cbn [filter length]; list_len ] .. | ].
    split.
    + intros pre post Hsplit Hpost. destruct pre as [|c pre].
      * exists out, []. split; [reflexivity | congruence].
      * simpl in Hsplit. injection Hsplit as <- Hcs.
        destruct (Hq pre post Hcs Hpost) as (o' & toks' & Hrun & Hh').
        exists o', toks'. split; [|auto]. now rewrite (run_step _ _ _ _ Hstep).
    + assert (Hall : observe_run (run (Reserve count :: cs) (out, w, []))
                     = observe (lyp_write true out (map Val (resolved final)) w)).
      { rewrite (run_step _ _ _ _ Hstep), Hobs.
        now rewrite lyp_write_direct by assumption. }
      split; [exact Hall|].
      intros rs Hrs. rewrite Hall, lyp_write_direct by assumption. rewrite Hrs.
      cbn [lyp_write_repeat]. unfold lyp_write_check, accepted. cbn [written].
      destruct (Z.ltb_spec (Z.of_N (len (resolved final))) 0); [lia|].
      rewrite N2Z.id.
      replace (len (map Val (resolved final))) with (len (resolved final)) by list_len.
      rewrite N.eqb_refl. cbn. now rewrite Hs.
  - split; reflexivity.
  - intros out msg r rs cs ok Hs Hty Hlen Hr. unfold lyp_print.
    rewrite (LYOUT_CHECK_clear _ Hs), Hty. simpl.
    destruct (Z.leb_spec (Z.of_nat (length msg)) INT_MAX); [|lia].
    destruct (Z.ltb_spec (Z.of_nat (length msg)) 0); [lia|].
    destruct (Z.ltb_spec (written r) 0); [lia|]. reflexivity.
Qed.

(** C1 fails as stated: with a hole of two bytes outstanding, a formatted
    write of "abc" to a callback sink reaches the callback at once; the
    backfill with "Z!" then hands it "Z!" alone, so that the callback has
    seen "abc" before "Z!" and never "Z!abc". *)
Lemma formatted_write_passes_holes :
  run [Reserve 2; Print (str "abc")] (callback_sink, answers [accepted 3; accepted 2], [])
    = Done (LY_SUCCESS,
            (set_printed 3 (buffering_sink [Undef; Undef] 1),
             {| pending := [accepted 2]; calls := [bytes "abc"] |}, [0])) /\
  run [Reserve 2; Print (str "abc"); Backfill 0 (str "Z!")]
      (callback_sink, answers [accepted 3; accepted 2], [])
    = Done (LY_SUCCESS,
            (set_printed 5 (set_hole_count 0 (set_buffer (Block (bytes "Z!")) 0 2 callback_sink)),
             {| pending := []; calls := [bytes "abc"; bytes "Z!"] |}, [0])).
Proof. split; reflexivity. Qed.

(** The theorem at the callback scenario with a callback that reports
    [EAGAIN] once: the three calls show what the raw write of "Z!abc"
    shows. *)
Lemma hole_context_delivered_in_call_order_witness :
  observe_run (run [Reserve 2; Write (str "abc"); Backfill 0 (str "Z!")]
                 (callback_sink, answers [failed EAGAIN; accepted 5], []))
    = observe (lyp_write true callback_sink (bytes "Z!abc")
                 (answers [failed EAGAIN; accepted 5])).
Proof.
  apply (proj1 hole_context_delivered_in_call_order callback_sink
           (answers [failed EAGAIN; accepted 5])
           [Reserve 2; Write (str "abc"); Backfill 0 (str "Z!")]
           [Bytes (str "Z!"); Bytes (str "abc")]);
    try reflexivity.
  repeat split; try discriminate; reflexivity.
Defined.

(** ** Flush with holes outstanding *)



(** What the flush leaves behind: [out->buffered] keeps the address of the
    block it released, so a raw write of "abc" that follows (the hole is
    still counted) hands a released pointer to [ly_realloc], and a second
    flush releases the block again. *)
Example flush_leaves_released_pointer :
  ly_print_flush (buffering_sink [Undef; Undef] 1) = Done flushed_sink /\
  buffered flushed_sink = Freed /\
  lyp_write true flushed_sink (bytes "abc") (answers []) = Undefined /\
  ly_print_flush flushed_sink = Undefined.
Proof. repeat split. Qed.


(** ** Memory sinks *)

Section Memory.

(** Two copies in a row: the bytes, then the terminator behind them. *)
Lemma terminated_copy (p : ptr) (l : N) (buf : list memval) :
  p <> Freed -> l + len buf + 1 <= len (cells_of p) ->
  exists p2 p3,
    memcpy p l buf = Some p2 /\ memcpy p2 (l + len buf) [Val x00] = Some p3 /\
    p3 <> Freed /\ len (cells_of p3) = len (cells_of p) /\
    firstn (N.to_nat (l + len buf)) (cells_of p3) = firstn (N.to_nat l) (cells_of p) ++ buf.
Proof.
  intros Hp Hl.
  destruct (firstn_plus (cells_of p) (l + len buf) 1) as (j2 & Hj2 & Hcut2); [lia|].
  destruct (firstn_plus (cells_of p) l (len buf)) as (j1 & Hj1 & Hcut1); [lia|].
  rewrite Hcut1 in Hcut2.
  assert (Hlpre : len (firstn (N.to_nat l) (cells_of p)) = l) by (apply len_firstn; lia).
  destruct (memcpy_content p (l + len buf + 1) (firstn (N.to_nat l) (cells_of p)) j1 j2 buf)
    as (p2 & Hcp2 & Hp2 & Hl2 & Hc2); [assumption | lia | | assumption |].
  { rewrite Hcut2. now rewrite <- app_assoc. }
  rewrite Hlpre in Hcp2.
  destruct (memcpy_content p2 (l + len buf + 1) (firstn (N.to_nat l) (cells_of p) ++ buf)
              j2 [] [Val x00])
    as (p3 & Hcp3 & Hp3 & Hl3 & Hc3); [assumption | lia | | assumption |].
  { rewrite Hc2. now rewrite <- app_assoc, app_nil_r. }
  rewrite len_app, Hlpre in Hcp3.
  exists p2, p3. repeat split; try assumption; [congruence|].
  pose proof (f_equal (firstn (N.to_nat (l + len buf))) Hc3) as H.
  rewrite firstn_firstn, Nat.min_l in H by lia. rewrite H.
  rewrite firstn_app, firstn_all2 by list_len.
  replace (N.to_nat (l + len buf) - length (firstn (N.to_nat l) (cells_of p) ++ buf))%nat
    with 0%nat by list_len.
  apply app_nil_r.
Qed.

(** The raw write to a memory sink, when the allocator serves the
    request or the buffer has room: the bytes are appended to the
    content, the printed counter grows by their number. *)
Lemma memory_write (ok : bool) (out : lyp_out) (buf : list memval) (w : world) :
  memory_ok out -> status out = LY_SUCCESS ->
  mem_len out + len buf + 1 < SIZE_MOD ->
  ok = true \/ mem_len out + len buf + 1 <= mem_size out ->
  exists p s,
    let out' := set_printed (size_t_add (printed out) (len buf))
                  (set_mem (Some p) (mem_len out + len buf) s out) in
    lyp_write ok out buf w = Done (LY_SUCCESS, out', w) /\
    memory_ok out' /\ mem_content out' = mem_content out ++ buf.
Proof.
  intros (Hty & Hh & p & Hb & Hp & Hsz & Hle) Hs Hfit Hok.
  unfold lyp_write. rewrite (LYOUT_CHECK_clear _ Hs), Hh, Hty, Hb. cbn [N.eqb negb].
  rewrite (size_t_add_small (mem_len out) (len buf)) by lia.
  rewrite size_t_add_small by lia.
  assert (Hcontent : mem_content out = firstn (N.to_nat (mem_len out)) (cells_of p))
    by (unfold mem_content; now rewrite Hb).
  destruct (N.ltb_spec (mem_size out) (mem_len out + len buf + 1)) as [Hgrow|Hroom].
  - destruct Hok as [-> | Hroom]; [|lia].
    rewrite ly_realloc_served by assumption.
    destruct (grown_block p (mem_len out) (mem_len out + len buf + 1)) as [Hl1 Hf1];
      [lia | lia |].
    destruct (terminated_copy (Block (resize (cells_of p) (mem_len out + len buf + 1)))
                (mem_len out) buf) as (p2 & p3 & Hc2 & Hc3 & Hp3 & Hl3 & Hf3);
      [discriminate | lia |].
    rewrite Hc2, Hc3. exists p3, (mem_len out + len buf + 1).
    split; [reflexivity|]. split.
    + unfold memory_ok. cbn. repeat split; try assumption.
      exists p3. repeat split; try assumption; lia.
    + unfold mem_content at 1. cbn. rewrite Hf3, Hf1. now rewrite Hcontent.
  - destruct (terminated_copy p (mem_len out) buf) as (p2 & p3 & Hc2 & Hc3 & Hp3 & Hl3 & Hf3);
      [assumption | lia |].
    rewrite Hc2, Hc3. exists p3, (mem_size out).
    split; [reflexivity|]. split.
    + unfold memory_ok. cbn. repeat split; try assumption.
      exists p3. repeat split; try assumption; lia.
    + unfold mem_content at 1. cbn. rewrite Hf3. now rewrite Hcontent.
Qed.

(** The formatted write to a memory sink appends the rendered text in
    the same way. *)
Lemma memory_print (v ok : bool) (out : lyp_out) (msg : list byte) (w : world) :
  memory_ok out -> status out = LY_SUCCESS ->
  (Z.of_nat (length msg) <= INT_MAX)%Z ->
  mem_len out + len msg + 1 < SIZE_MOD ->
  ok = true \/ mem_len out + len msg + 1 <= mem_size out ->
  exists p s,
    let out' := set_printed (size_t_add (printed out) (len msg))
                  (set_mem (Some p) (mem_len out + len msg) s out) in
    lyp_print v true ok out msg w = Done (LY_SUCCESS, out', w) /\
    memory_ok out' /\ mem_content out' = mem_content out ++ map Val msg.
Proof.
  intros (Hty & Hh & p & Hb & Hp & Hsz & Hle) Hs Hint Hfit Hok.
  unfold lyp_print. rewrite (LYOUT_CHECK_clear _ Hs), Hty, Hb. cbn [andb].
  destruct (Z.leb_spec (Z.of_nat (length msg)) INT_MAX); [|lia].
  destruct (Z.ltb_spec (Z.of_nat (length msg)) 0); [lia|].
  replace (Z.to_N (Z.of_nat (length msg))) with (len msg) by (unfold len; lia).
  assert (Hlm : len (map Val msg) = len msg) by list_len.
  rewrite (size_t_add_small (mem_len out) (len msg)) by lia.
  rewrite size_t_add_small by lia.
  assert (Hcontent : mem_content out = firstn (N.to_nat (mem_len out)) (cells_of p))
    by (unfold mem_content; now rewrite Hb).
  destruct (N.ltb_spec (mem_size out) (mem_len out + len msg + 1)) as [Hgrow|Hroom].
  - destruct Hok as [-> | Hroom]; [|lia].
    rewrite ly_realloc_served by assumption.
    destruct (grown_block p (mem_len out) (mem_len out + len msg + 1)) as [Hl1 Hf1];
      [lia | lia |].
    destruct (terminated_copy (Block (resize (cells_of p) (mem_len out + len msg + 1)))
                (mem_len out) (map Val msg)) as (p2 & p3 & Hc2 & Hc3 & Hp3 & Hl3 & Hf3);
      [discriminate | lia |].
    rewrite Hlm in Hc3, Hf3. rewrite Hc2, Hc3.
    exists p3, (mem_len out + len msg + 1).
    split; [reflexivity|]. split.
    + unfold memory_ok. cbn. repeat split; try assumption.
      exists p3. repeat split; try assumption; lia.
    + unfold mem_content at 1. cbn. rewrite Hf3, Hf1. now rewrite Hcontent.
  - destruct (terminated_copy p (mem_len out) (map Val msg))
      as (p2 & p3 & Hc2 & Hc3 & Hp3 & Hl3 & Hf3); [assumption | lia |].
    rewrite Hlm in Hc3, Hf3. rewrite Hc2, Hc3. exists p3, (mem_size out).
    split; [reflexivity|]. split.
    + unfold memory_ok. cbn. repeat split; try assumption.
      exists p3. repeat split; try assumption; lia.
    + unfold mem_content at 1. cbn. rewrite Hf3. now rewrite Hcontent.
Qed.

Lemma len_mem_content (out : lyp_out) :
  memory_ok out -> len (mem_content out) = mem_len out.
Proof.
  intros (_ & _ & p & Hb & _ & Hsz & Hle). unfold mem_content. rewrite Hb.
  apply len_firstn. lia.
Qed.

(** A reservation on a memory sink appends [count] cells to the content
    and counts them as printed. *)
Lemma memory_reserved (out : lyp_out) (count : N) :
  memory_ok out -> status out = LY_SUCCESS -> mem_len out + count < SIZE_MOD ->
  exists p s junk,
    let out' := set_printed (size_t_add (printed out) count)
                  (set_mem (Some p) (mem_len out + count) s out) in
    ly_write_skip true out count = Done (LY_SUCCESS, Some (mem_len out), out') /\
    memory_ok out' /\ mem_content out' = mem_content out ++ junk /\ len junk = count.
Proof.
  intros (Hty & Hh & p & Hb & Hp & Hsz & Hle) Hs Hfit.
  unfold ly_write_skip. rewrite (LYOUT_CHECK_clear _ Hs), Hty, Hb.
  rewrite size_t_add_small by lia.
  assert (Hcontent : mem_content out = firstn (N.to_nat (mem_len out)) (cells_of p))
    by (unfold mem_content; now rewrite Hb).
  destruct (N.ltb_spec (mem_size out) (mem_len out + count)) as [Hgrow|Hroom].
  - rewrite ly_realloc_served by assumption.
    destruct (grown_block p (mem_len out) (mem_len out + count)) as [Hl1 Hf1]; [lia | lia |].
    destruct (firstn_plus (resize (cells_of p) (mem_len out + count)) (mem_len out) count)
      as (junk & Hj & Hcut); [simpl cells_of in Hl1; lia|].
    simpl cells_of in Hf1, Hl1. rewrite Hf1 in Hcut.
    exists (Block (resize (cells_of p) (mem_len out + count))), (mem_len out + count), junk.
    split; [reflexivity|]. split; [|split; [|exact Hj]].
    + unfold memory_ok. cbn. repeat split; try assumption.
      eexists. repeat split; try discriminate; list_len.
    + unfold mem_content at 1. cbn. rewrite Hcut. now rewrite Hcontent.
  - destruct (firstn_plus (cells_of p) (mem_len out) count) as (junk & Hj & Hcut); [lia|].
    exists p, (mem_size out), junk.
    split; [reflexivity|]. split; [|split; [|exact Hj]].
    + unfold memory_ok. cbn. repeat split; try assumption.
      exists p. repeat split; try assumption; lia.
    + unfold mem_content at 1. cbn. rewrite Hcut. now rewrite Hcontent.
Qed.

(** A backfill on a memory sink copies over the content in place. *)
Lemma memory_backfilled (out : lyp_out) (buf pre old post : list memval) (w : world) :
  memory_ok out -> status out = LY_SUCCESS ->
  mem_content out = pre ++ old ++ post -> len old = len buf ->
  exists p,
    let out' := set_mem (Some p) (mem_len out) (mem_size out) out in
    ly_write_skipped out (len pre) buf w = Done (LY_SUCCESS, out', w) /\
    memory_ok out' /\ mem_content out' = pre ++ buf ++ post.
Proof.
  intros (Hty & Hh & p & Hb & Hp & Hsz & Hle) Hs Hc Ho.
  unfold ly_write_skipped. rewrite (LYOUT_CHECK_clear _ Hs), Hty, Hb.
  unfold mem_content in Hc. rewrite Hb in Hc.
  destruct (memcpy_content p (mem_len out) pre old post buf)
    as (p' & Hcp & Hp' & Hl' & Hc'); [assumption | lia | exact Hc | assumption |].
  rewrite Hcp. exists p'. split; [reflexivity|]. split.
  - unfold memory_ok. cbn. repeat split; try assumption.
    exists p'. repeat split; try assumption; lia.
  - unfold mem_content. cbn. exact Hc'.
Qed.

End Memory.

(** C7: on a memory sink, writing the bytes [bs] directly and reserving as
    many bytes and backfilling them with [bs] both succeed and give the
    same content (the content before, then [bs]), the same logical length
    and the same printed counter.  In particular the fresh memory sink
    without a buffer, after the write of "abc", the reservation of four
    bytes, the write of "xyz" and the backfill with "1234", holds
    "abc1234xyz" (and the terminator behind it) with 10 bytes printed. *)
Theorem memory_round_trip :
  (forall (out : lyp_out) (bs : list byte) (w : world),
     memory_ok out -> status out = LY_SUCCESS ->
     mem_len out + len bs + 1 < SIZE_MOD ->
     exists o1 o2 o3,
       lyp_write true out (map Val bs) w = Done (LY_SUCCESS, o1, w) /\
       ly_write_skip true out (len bs) = Done (LY_SUCCESS, Some (mem_len out), o2) /\
       ly_write_skipped o2 (mem_len out) (map Val bs) w = Done (LY_SUCCESS, o3, w) /\
       mem_content o1 = mem_content out ++ map Val bs /\
       mem_content o3 = mem_content o1 /\
       mem_len o3 = mem_len o1 /\
       printed o3 = printed o1) /\
  (lyp_new_memory true Null 0 = Some memory_sink /\
   exists o1 o2 o3 o4,
     lyp_write true memory_sink (bytes "abc") (answers []) = Done (LY_SUCCESS, o1, answers []) /\
     ly_write_skip true o1 4 = Done (LY_SUCCESS, Some 3, o2) /\
     lyp_write true o2 (bytes "xyz") (answers []) = Done (LY_SUCCESS, o3, answers []) /\
     ly_write_skipped o3 3 (bytes "1234") (answers []) = Done (LY_SUCCESS, o4, answers []) /\
     mem_buf o4 = Some (Block (bytes "abc1234xyz" ++ [Val x00])) /\
     mem_content o4 = bytes "abc1234xyz" /\
     mem_len o4 = 10 /\ printed o4 = 10).
Proof.
  split.
  - intros out bs w Hok Hs Hfit.
    assert (Hlm : len (map Val bs) = len bs) by list_len.
    destruct (memory_write true out (map Val bs) w) as (p1 & s1 & Hw & Hok1 & Hc1);
      [assumption | assumption | lia | now left |].
    destruct (memory_reserved out (len bs)) as (p2 & s2 & junk & Hr & Hok2 & Hc2 & Hj);
      [assumption | assumption | lia |].
    cbv zeta in Hw, Hok1, Hc1, Hr, Hok2, Hc2.
    set (o2 := set_printed (size_t_add (printed out) (len bs))
                 (set_mem (Some p2) (mem_len out + len bs) s2 out)) in *.
    destruct (memory_backfilled o2 (map Val bs) (mem_content out) junk [] w)
      as (p3 & Hb & Hok3 & Hc3); [assumption | exact Hs | | lia |].
    { rewrite Hc2. now rewrite app_nil_r. }
    rewrite len_mem_content in Hb by assumption. cbv zeta in Hb, Hc3.
    eexists. exists o2. eexists.
    split; [exact Hw|]. split; [exact Hr|]. split; [exact Hb|].
    split; [exact Hc1|]. split; [|split].
    + rewrite Hc3, Hc1. now rewrite app_nil_r.
    + cbn. now rewrite Hlm.
    + cbn. now rewrite Hlm.
  - split; [reflexivity|].
    do 4 eexists. repeat split.
Qed.

(** The theorem at a memory sink that holds "abc": the direct write of
    "xyz" succeeds, and so do the reservation of three bytes and its
    backfill with "xyz". *)
Lemma memory_round_trip_witness :
  exists o1 o2 o3,
    lyp_write true (memory_holding (bytes "abc" ++ [Val x00]) 3) (map Val (str "xyz")) (answers [])
      = Done (LY_SUCCESS, o1, answers []) /\
    ly_write_skip true (memory_holding (bytes "abc" ++ [Val x00]) 3) (len (str "xyz"))
      = Done (LY_SUCCESS, Some (mem_len (memory_holding (bytes "abc" ++ [Val x00]) 3)), o2) /\
    ly_write_skipped o2 (mem_len (memory_holding (bytes "abc" ++ [Val x00]) 3))
        (map Val (str "xyz")) (answers [])
      = Done (LY_SUCCESS, o3, answers []) /\
    mem_content o1 = mem_content (memory_holding (bytes "abc" ++ [Val x00]) 3) ++ map Val (str "xyz") /\
    mem_content o3 = mem_content o1 /\
    mem_len o3 = mem_len o1 /\
    printed o3 = printed o1.
Proof.
  apply (proj1 memory_round_trip (memory_holding (bytes "abc" ++ [Val x00]) 3)
           (str "xyz") (answers [])).
  - unfold memory_ok. repeat split.
    exists (Block (bytes "abc" ++ [Val x00])). repeat split; discriminate.
  - reflexivity.
  - reflexivity.
Defined.

(** C8: on a memory sink, reset succeeds, sets the logical length and the
    printed counter to zero and leaves the size and the buffer pointer as
    they were; a raw or formatted write of M bytes that succeeds after it
    leaves exactly those M bytes as the content and M as the printed
    counter, and makes no call to a target.  On a sink whose status is
    clear such a write does succeed when the allocator serves it. *)
Theorem memory_reset_then_write (seek_ok : bool) (out : lyp_out) :
  memory_ok out ->
  let o := snd (lyp_out_reset seek_ok out) in
  fst (lyp_out_reset seek_ok out) = LY_SUCCESS /\
  mem_len o = 0 /\ printed o = 0 /\ mem_size o = mem_size out /\ mem_buf o = mem_buf out /\
  (forall ok buf w o' w',
     len buf + 1 < SIZE_MOD ->
     lyp_write ok o buf w = Done (LY_SUCCESS, o', w') ->
     mem_content o' = buf /\ mem_len o' = len buf /\ printed o' = len buf /\ w' = w) /\
  (forall v fmt ok msg w o' w',
     len msg + 1 < SIZE_MOD ->
     lyp_print v fmt ok o msg w = Done (LY_SUCCESS, o', w') ->
     mem_content o' = map Val msg /\ mem_len o' = len msg /\ printed o' = len msg /\ w' = w) /\
  (status out = LY_SUCCESS ->
   forall buf w, len buf + 1 < SIZE_MOD ->
     exists o', lyp_write true o buf w = Done (LY_SUCCESS, o', w)).
Proof.
  intros Hok o.
  assert (Ho : o = set_mem (mem_buf out) 0 (mem_size out) (set_printed 0 out)).
  { subst o. unfold lyp_out_reset. destruct Hok as (-> & _). reflexivity. }
  assert (Hok' : memory_ok o).
  { rewrite Ho. destruct Hok as (Hty & Hh & p & Hb & Hp & Hsz & Hle).
    unfold memory_ok. cbn. repeat split; try assumption.
    exists p. repeat split; try assumption. lia. }
  assert (Hempty : mem_content o = []).
  { rewrite Ho. unfold mem_content. cbn. now destruct (mem_buf out). }
  split; [unfold lyp_out_reset; destruct Hok as (-> & _); reflexivity|].
  rewrite Ho at 1 2 3 4. cbn [mem_len printed mem_size mem_buf set_mem set_printed].
  split; [reflexivity|]. split; [reflexivity|]. split; [reflexivity|]. split; [reflexivity|].
  assert (Hl0 : mem_len o = 0) by (rewrite Ho; reflexivity).
  assert (Hp0 : printed o = 0) by (rewrite Ho; reflexivity).
  split; [|split].
  - intros ok buf w o' w' Hfit Hw.
    destruct (status o) eqn:Hs;
      try (unfold lyp_write, LYOUT_CHECK in Hw; rewrite Hs in Hw; discriminate Hw).
    assert (Hroom : ok = true \/ mem_len o + len buf + 1 <= mem_size o).
    { destruct ok; [now left | right].
      destruct (N.leb_spec (mem_len o + len buf + 1) (mem_size o)) as [|Hgrow]; [assumption|].
      exfalso. destruct Hok' as (Hty & Hh & p & Hb & Hp & _).
      unfold lyp_write in Hw.
      rewrite (LYOUT_CHECK_clear _ Hs), Hh, Hty, Hb in Hw. cbn [N.eqb negb] in Hw.
      rewrite (size_t_add_small (mem_len o) (len buf)) in Hw by lia.
      rewrite size_t_add_small in Hw by lia.
      apply N.ltb_lt in Hgrow. rewrite Hgrow in Hw.
      destruct p; simpl in Hw; try discriminate; congruence. }
    destruct (memory_write ok o buf w) as (p & s & Hw' & _ & Hc);
      [assumption | assumption | lia | assumption |].
    cbv zeta in Hw', Hc. rewrite Hw' in Hw. injection Hw as <- <-.
    rewrite Hc, Hempty. cbn. rewrite Hl0, Hp0.
    repeat split. apply size_t_add_small. lia.
  - intros v fmt ok msg w o' w' Hfit Hw.
    destruct (status o) eqn:Hs;
      try (unfold lyp_print, LYOUT_CHECK in Hw; rewrite Hs in Hw; discriminate Hw).
    destruct Hok' as (Hty & Hh & p & Hb & Hp & Hrest).
    assert (Hfmt : fmt = true /\ (Z.of_nat (length msg) <= INT_MAX)%Z).
    { unfold lyp_print in Hw. rewrite (LYOUT_CHECK_clear _ Hs), Hty in Hw.
      destruct fmt; [|discriminate Hw]. split; [reflexivity|].
      destruct (Z.leb_spec (Z.of_nat (length msg)) INT_MAX); [assumption|].
      discriminate Hw. }
    destruct Hfmt as [-> Hint].
    assert (Hroom : ok = true \/ mem_len o + len msg + 1 <= mem_size o).
    { destruct ok; [now left | right].
      destruct (N.leb_spec (mem_len o + len msg + 1) (mem_size o)) as [|Hgrow]; [assumption|].
      exfalso. unfold lyp_print in Hw.
      rewrite (LYOUT_CHECK_clear _ Hs), Hty, Hb in Hw. cbn [andb] in Hw.
      destruct (Z.leb_spec (Z.of_nat (length msg)) INT_MAX); [|lia].
      destruct (Z.ltb_spec (Z.of_nat (length msg)) 0); [lia|].
      replace (Z.to_N (Z.of_nat (length msg))) with (len msg) in Hw by (unfold len; lia).
      rewrite (size_t_add_small (mem_len o) (len msg)) in Hw by lia.
      rewrite size_t_add_small in Hw by lia.
      apply N.ltb_lt in Hgrow. rewrite Hgrow in Hw.
      destruct p; simpl in Hw; try discriminate; congruence. }
    destruct (memory_print v ok o msg w) as (p' & s & Hw' & _ & Hc);
      [unfold memory_ok; eauto 10 | assumption | assumption | lia | assumption |].
    cbv zeta in Hw', Hc. rewrite Hw' in Hw. injection Hw as <- <-.
    rewrite Hc, Hempty. cbn. rewrite Hl0, Hp0.
    repeat split. apply size_t_add_small. lia.
  - intros Hs buf w Hfit.
    destruct (memory_write true o buf w) as (p & s & Hw' & _);
      [assumption | rewrite Ho; exact Hs | lia | now left |].
    eexists. exact Hw'.
Qed.

(** The theorem at a memory sink that holds "hello" with 5 bytes printed:
    after the reset, the write of "abc" leaves "abc" and 3. *)
Lemma memory_reset_then_write_witness :
  exists o',
    lyp_write true (snd (lyp_out_reset true (memory_holding (bytes "hello" ++ [Val x00]) 5)))
        (bytes "abc") (answers [])
      = Done (LY_SUCCESS, o', answers []).
Proof.
  apply (memory_reset_then_write true (memory_holding (bytes "hello" ++ [Val x00]) 5)).
  - unfold memory_ok. repeat split.
    exists (Block (bytes "hello" ++ [Val x00])). repeat split; discriminate.
  - reflexivity.
  - reflexivity.
Defined.

(** ** The printed counter *)

Section Printed.

Lemma memory_write_printed (ok : bool) (o o' : lyp_out) (buf : list memval) (w w' : world) :
  type o = LYP_OUT_MEMORY -> hole_count o = 0 ->
  lyp_write ok o buf w = Done (LY_SUCCESS, o', w') ->
  printed o' = size_t_add (printed o) (len buf) /\
  type o' = LYP_OUT_MEMORY /\ hole_count o' = 0.
Proof.
  intros Hty Hh Hw. unfold lyp_write, LYOUT_CHECK in Hw.
  destruct (status o) eqn:Hs; try discriminate Hw.
  rewrite Hh, Hty in Hw. cbn [LY_ERR_eqb N.eqb negb] in Hw.
  destruct (mem_buf o) as [p|]; [|discriminate].
  repeat match type of Hw with
         | (if ?c then _ else _) = _ => destruct c
         | match ?x with _ => _ end = _ => destruct x; try discriminate Hw
         end;
    injection Hw as <- <-; cbn; auto.
Qed.

Lemma memory_print_printed (v fmt ok : bool) (o o' : lyp_out) (msg : list byte) (w w' : world) :
  type o = LYP_OUT_MEMORY -> hole_count o = 0 ->
  lyp_print v fmt ok o msg w = Done (LY_SUCCESS, o', w') ->
  printed o' = size_t_add (printed o) (len msg) /\
  type o' = LYP_OUT_MEMORY /\ hole_count o' = 0.
Proof.
  intros Hty Hh Hw. unfold lyp_print, LYOUT_CHECK in Hw.
  destruct (status o) eqn:Hs; try discriminate Hw.
  rewrite Hty in Hw. cbn [LY_ERR_eqb negb] in Hw.
  destruct (fmt && (Z.of_nat (length msg) <=? INT_MAX)%Z); [|discriminate Hw].
  destruct (Z.ltb_spec (Z.of_nat (length msg)) 0); [lia|].
  replace (Z.to_N (Z.of_nat (length msg))) with (len msg) in Hw by (unfold len; lia).
  destruct (mem_buf o) as [p|]; [|discriminate].
  repeat match type of Hw with
         | (if ?c then _ else _) = _ => destruct c
         | match ?x with _ => _ end = _ => destruct x; try discriminate Hw
         end;
    injection Hw as <- <-; cbn; auto.
Qed.

Lemma memory_skip_printed (ok : bool) (o o' : lyp_out) (count : N) (pos : option N) :
  type o = LYP_OUT_MEMORY -> hole_count o = 0 ->
  ly_write_skip ok o count = Done (LY_SUCCESS, pos, o') ->
  printed o' = size_t_add (printed o) count /\
  type o' = LYP_OUT_MEMORY /\ hole_count o' = 0.
Proof.
  intros Hty Hh Hw. unfold ly_write_skip, LYOUT_CHECK in Hw.
  destruct (status o) eqn:Hs; try discriminate Hw.
  rewrite Hty in Hw. cbn [LY_ERR_eqb negb] in Hw.
  repeat match type of Hw with
         | (if ?c then _ else _) = _ => destruct c
         | match ?x with _ => _ end = _ => destruct x; try discriminate Hw
         end;
    injection Hw as <- <-; cbn; auto.
Qed.

(** On a memory sink the counter follows every request. *)
Lemma memory_run_printed (cs : list call) :
  forall o w toks o' w' toks',
    type o = LYP_OUT_MEMORY -> hole_count o = 0 -> printed o < SIZE_MOD ->
    writes_and_reservations cs = true ->
    run cs (o, w, toks) = Done (LY_SUCCESS, (o', w', toks')) ->
    printed o' = (printed o + volume cs) mod SIZE_MOD.
Proof.
  induction cs as [|c cs IH]; intros o w toks o' w' toks' Hty Hh Hp Hcs Hrun.
  - simpl in Hrun. injection Hrun as <- _ _. simpl.
    rewrite N.add_0_r. symmetry. now apply N.mod_small.
  - cbn [run] in Hrun. simpl in Hcs. apply andb_prop in Hcs as [Hc Hcs].
    assert (Hmod : forall a, size_t_add (printed o) a < SIZE_MOD)
      by (intros a; apply N.mod_upper_bound; discriminate).
    destruct c as [buf | msg | count | hole buf]; [| | |discriminate Hc]; cbn [step] in Hrun.
    + destruct (lyp_write true o (map Val buf) w) as [[[e o1] w1]| |] eqn:Hw;
        try discriminate Hrun.
      destruct e; try discriminate Hrun.
      destruct (memory_write_printed _ _ _ _ _ _ Hty Hh Hw) as (Hp1 & Hty1 & Hh1).
      rewrite (IH _ _ _ _ _ _ Hty1 Hh1 (eq_ind_r (fun n => n < SIZE_MOD) (Hmod _) Hp1) Hcs Hrun).
      rewrite Hp1. unfold size_t_add.
      change (volume (Write buf :: cs)) with (len buf + volume cs).
      rewrite N.Div0.add_mod_idemp_l. f_equal. list_len.
    + destruct (lyp_print true true true o msg w) as [[[e o1] w1]| |] eqn:Hw;
        try discriminate Hrun.
      destruct e; try discriminate Hrun.
      destruct (memory_print_printed _ _ _ _ _ _ _ _ Hty Hh Hw) as (Hp1 & Hty1 & Hh1).
      rewrite (IH _ _ _ _ _ _ Hty1 Hh1 (eq_ind_r (fun n => n < SIZE_MOD) (Hmod _) Hp1) Hcs Hrun).
      rewrite Hp1. unfold size_t_add.
      change (volume (Print msg :: cs)) with (len msg + volume cs).
      rewrite N.Div0.add_mod_idemp_l. f_equal. lia.
    + destruct (ly_write_skip true o count) as [[[e pos] o1]| |] eqn:Hw;
        try discriminate Hrun.
      assert (Hrun' : exists toks1, e = LY_SUCCESS /\
                        run cs (o1, w, toks1) = Done (LY_SUCCESS, (o', w', toks'))).
      { destruct pos; destruct e; try discriminate Hrun; eauto. }
      destruct Hrun' as (toks1 & -> & Hrun').
      destruct (memory_skip_printed _ _ _ _ _ Hty Hh Hw) as (Hp1 & Hty1 & Hh1).
      rewrite (IH _ _ _ _ _ _ Hty1 Hh1 (eq_ind_r (fun n => n < SIZE_MOD) (Hmod _) Hp1) Hcs Hrun').
      rewrite Hp1. unfold size_t_add.
      change (volume (Reserve count :: cs)) with (count + volume cs).
      rewrite N.Div0.add_mod_idemp_l. f_equal. lia.
Qed.

(** The last backfill of a hole context hands the whole hole buffer to
    the target; when the target accepts it, the counter grows by the
    buffer's length. *)
Lemma flush_counts_hole_buffer (o : lyp_out) (position : N) (buf : list memval)
    (r : response) (rs : list response) (cs : list (list memval)) :
  status o = LY_SUCCESS -> has_target (type o) = true -> hole_count o = 1 ->
  buffer_ok o -> position + len buf <= buf_len o ->
  written r = Z.of_N (buf_len o) ->
  exists o' data,
    ly_write_skipped o position buf {| pending := r :: rs; calls := cs |}
      = Done (LY_SUCCESS, o', {| pending := rs; calls := cs ++ [data] |}) /\
    len data = buf_len o /\
    printed o' = size_t_add (printed o) (buf_len o) /\
    hole_count o' = 0 /\ buf_len o' = 0.
Proof.
  intros Hs Ht Hh Hok Hin Hr.
  pose proof (len_hole_content _ Hok) as Hlc.
  destruct (firstn_plus (hole_content o) position (len buf)) as (old & Hold & Hcut); [lia|].
  pose proof (firstn_skipn (N.to_nat (position + len buf)) (hole_content o)) as Hsplit.
  rewrite Hcut, <- app_assoc in Hsplit.
  destruct (backfilled_hole o buf (firstn (N.to_nat position) (hole_content o)) old
              (skipn (N.to_nat (position + len buf)) (hole_content o))
              {| pending := r :: rs; calls := cs |})
    as (p & Hok1 & Hc1 & Hsk);
    [assumption | assumption | assumption | now symmetry | assumption
     | lia | rewrite Hh; unfold SIZE_MOD; lia |].
  cbv zeta in Hok1, Hc1, Hsk.
  rewrite len_firstn in Hsk by lia. rewrite Hsk, Hh. cbn [N.eqb Pos.eqb].
  cbn [pending calls lyp_write_repeat]. unfold lyp_write_check.
  assert (Hlen : len (firstn (N.to_nat position) (hole_content o) ++ buf ++
                      skipn (N.to_nat (position + len buf)) (hole_content o)) = buf_len o).
  { rewrite <- Hlc.
    transitivity (len (firstn (N.to_nat position) (hole_content o) ++ old ++
                       skipn (N.to_nat (position + len buf)) (hole_content o)));
      [list_len | now rewrite Hsplit]. }
  rewrite Hlen, Hr.
  destruct (Z.ltb_spec (Z.of_N (buf_len o)) 0); [lia|].
  rewrite N2Z.id, N.eqb_refl. cbn [negb].
  eexists. eexists. split; [reflexivity|]. split; [exact Hlen|]. cbn. auto.
Qed.

End Printed.

(** C2, as the code has it.  On a memory sink, after any successful
    sequence of writes, raw or formatted, and reservations the printed
    counter is the sum of all requested lengths (as a [size_t]): the
    counter grows at reservation time.  On a sink with a target the accounting is deferred:
    a reservation never changes the counter, nor does a raw write while a
    hole is outstanding; the counter grows by the length of the hole buffer
    when the backfill of the last outstanding hole hands the buffer to the
    target and the target accepts it. *)
Theorem printed_counts_requests_on_memory_sinks :
  (forall (cs : list call) (o : lyp_out) (w : world) (toks : list N)
          (o' : lyp_out) (w' : world) (toks' : list N),
     type o = LYP_OUT_MEMORY -> hole_count o = 0 -> printed o < SIZE_MOD ->
     writes_and_reservations cs = true ->
     run cs (o, w, toks) = Done (LY_SUCCESS, (o', w', toks')) ->
     printed o' = (printed o + volume cs) mod SIZE_MOD) /\
  (forall (ok : bool) (o : lyp_out) (count : N) (e : LY_ERR) (pos : option N) (o' : lyp_out),
     has_target (type o) = true ->
     ly_write_skip ok o count = Done (e, pos, o') -> printed o' = printed o) /\
  (forall (ok : bool) (o : lyp_out) (buf : list memval) (w : world)
          (e : LY_ERR) (o' : lyp_out) (w' : world),
     hole_count o <> 0 ->
     lyp_write ok o buf w = Done (e, o', w') -> printed o' = printed o /\ w' = w) /\
  (forall (o : lyp_out) (position : N) (buf : list memval)
          (r : response) (rs : list response) (cs : list (list memval)),
     status o = LY_SUCCESS -> has_target (type o) = true -> hole_count o = 1 ->
     buffer_ok o -> position + len buf <= buf_len o ->
     written r = Z.of_N (buf_len o) ->
     exists o' data,
       ly_write_skipped o position buf {| pending := r :: rs; calls := cs |}
         = Done (LY_SUCCESS, o', {| pending := rs; calls := cs ++ [data] |}) /\
       len data = buf_len o /\
       printed o' = size_t_add (printed o) (buf_len o) /\
       hole_count o' = 0 /\ buf_len o' = 0).
Proof.
  split; [|split; [|split]].
  - intros cs. apply memory_run_printed.
  - intros ok o count e pos o' Ht Hw. unfold ly_write_skip in Hw.
    destruct (LYOUT_CHECK o); [injection Hw as _ _ <-; reflexivity|].
    destruct (type o); simpl in Ht; try discriminate Ht;
      repeat match type of Hw with
             | (if ?c then _ else _) = _ => destruct c
             | match ?x with _ => _ end = _ => destruct x; try discriminate Hw
             end;
      injection Hw as _ _ <-; reflexivity.
  - intros ok o buf w e o' w' Hh Hw. unfold lyp_write in Hw.
    destruct (LYOUT_CHECK o); [injection Hw as _ <- <-; auto|].
    destruct (N.eqb_spec (hole_count o) 0); [contradiction|]. cbn [negb] in Hw.
    repeat match type of Hw with
           | (if ?c then _ else _) = _ => destruct c
           | match ?x with _ => _ end = _ => destruct x; try discriminate Hw
           end;
      injection Hw as _ <- <-; auto.
  - apply flush_counts_hole_buffer.
Qed.

(** C2 fails as stated: on a callback sink, after a reservation of two
    bytes and a raw write of "abc", five bytes have been requested and the
    printed counter is 0. *)
Lemma printed_waits_for_flush :
  run [Reserve 2; Write (str "abc")] (callback_sink, answers [], [])
    = Done (LY_SUCCESS, (buffering_sink ([Undef; Undef] ++ bytes "abc") 1, answers [], [0])) /\
  volume [Reserve 2; Write (str "abc")] = 5 /\
  printed (buffering_sink ([Undef; Undef] ++ bytes "abc") 1) = 0.
Proof. repeat split. Qed.

(** The theorem at the fresh memory sink: after the raw write of "abc",
    the reservation of four bytes and the formatted write of "xyz" the
    counter is 10. *)
Lemma printed_counts_requests_on_memory_sinks_witness :
  exists o' w' toks',
    run [Write (str "abc"); Reserve 4; Print (str "xyz")] (memory_sink, answers [], [])
      = Done (LY_SUCCESS, (o', w', toks')) /\
    printed o' = (printed memory_sink
                  + volume [Write (str "abc"); Reserve 4; Print (str "xyz")]) mod SIZE_MOD /\
    printed o' = 10.
Proof.
  do 3 eexists. split; [reflexivity|]. split; [|reflexivity].
  apply (proj1 printed_counts_requests_on_memory_sinks
           [Write (str "abc"); Reserve 4; Print (str "xyz")] memory_sink (answers []) []
           _ (answers []) [3]); reflexivity.
Defined.
(** * Further properties of the sink *)

(** ** The hole buffer as an invariant *)

(** The cases of a result that is known to be [Done]. *)
Ltac split_cases H :=
  repeat match type of H with
         | (if ?c then _ else _) = _ => destruct c
         | match ?x with _ => _ end = _ => destruct x; try discriminate H
         end.

Section BufferInvariant.

Lemma len_splice (cells : list memval) (pos : N) (src : list memval) :
  pos + len src <= len cells -> len (splice cells pos src) = len cells.
Proof.
  unfold splice, len. intros H.
  rewrite !length_app, length_firstn, length_skipn. lia.
Qed.

(** A copy that is defined keeps the block's length and keeps a pointer
    that is not released from being one. *)
Lemma memcpy_keeps (p p' : ptr) (pos : N) (src : list memval) :
  memcpy p pos src = Some p' ->
  len (cells_of p') = len (cells_of p) /\ (p <> Freed -> p' <> Freed).
Proof.
  unfold memcpy. destruct src as [|b src].
  - intros H. assert (E : p' = p).
    { destruct p as [|cells|]; [destruct (pos =? 0) | destruct (pos <=? len cells) |];
        congruence. }
    subst p'. auto.
  - destruct p as [|cells|]; try discriminate.
    destruct (N.leb_spec (pos + len (b :: src)) (len cells)) as [Hin|]; [|discriminate].
    intros Hm. injection Hm as <-. simpl. split; [now apply len_splice | discriminate].
Qed.

Lemma buffer_ok_set (out : lyp_out) (p : ptr) (l s : N) :
  p <> Freed -> len (cells_of p) = s -> l <= s -> s < SIZE_MOD ->
  buffer_ok (set_buffer p l s out).
Proof. unfold buffer_ok. simpl. auto. Qed.

Lemma size_t_add_fits (a b : N) : size_t_add a b < SIZE_MOD.
Proof. apply N.mod_upper_bound. discriminate. Qed.

Lemma buffer_ok_frame (out out' : lyp_out) :
  buffered out' = buffered out -> buf_len out' = buf_len out -> buf_size out' = buf_size out ->
  buffer_ok out -> buffer_ok out'.
Proof. unfold buffer_ok. intros -> -> ->. auto. Qed.

Lemma lyp_write_buffer_ok (ok : bool) (out : lyp_out) (buf : list memval) (w : world)
    (e : LY_ERR) (out' : lyp_out) (w' : world) :
  buffer_ok out -> lyp_write ok out buf w = Done (e, out', w') -> buffer_ok out'.
Proof.
  intros Hok Hw. pose proof Hok as (Hp & Hsz & Hle & Hfit).
  unfold lyp_write in Hw.
  destruct (LYOUT_CHECK out); [injection Hw as _ <- _; exact Hok|].
  destruct (negb (hole_count out =? 0)).
  - pose proof (size_t_add_fits (buf_len out) (len buf)) as Hneed.
    destruct (N.ltb_spec (buf_size out) (size_t_add (buf_len out) (len buf))) as [Hgrow|Hroom].
    + destruct ok.
      * rewrite ly_realloc_served in Hw by assumption.
        cbn [buffered buf_len buf_size set_buffer] in Hw.
        destruct (memcpy _ (buf_len out) buf) as [p'|] eqn:Hcp; [|discriminate].
        injection Hw as _ <- _. apply memcpy_keeps in Hcp as [Hl Hf].
        apply buffer_ok_set; [apply Hf; discriminate | | lia | assumption].
        rewrite Hl. simpl. apply len_resize.
      * destruct (buffered out); simpl in Hw; try contradiction;
          injection Hw as _ <- _; apply buffer_ok_set; (discriminate || reflexivity || lia).
    + destruct (memcpy (buffered out) (buf_len out) buf) as [p'|] eqn:Hcp; [|discriminate].
      injection Hw as _ <- _. apply memcpy_keeps in Hcp as [Hl Hf].
      apply buffer_ok_set; [now apply Hf | congruence | lia | assumption].
  - destruct (type out).
    + destruct (lyp_write_check out (len buf) _) as [[e0 o0]|] eqn:Hc; [|discriminate].
      injection Hw as _ <- _. unfold lyp_write_check in Hc.
      repeat match type of Hc with
             | (if ?c then _ else _) = _ => destruct c
             end; try discriminate; injection Hc as _ <-; exact Hok.
    + apply lyp_write_repeat_keeps in Hw as (H1 & _ & H2 & H3 & _).
      now apply (buffer_ok_frame out).
    + apply lyp_write_repeat_keeps in Hw as (H1 & _ & H2 & H3 & _).
      now apply (buffer_ok_frame out).
    + apply lyp_write_repeat_keeps in Hw as (H1 & _ & H2 & H3 & _).
      now apply (buffer_ok_frame out).
    + apply lyp_write_repeat_keeps in Hw as (H1 & _ & H2 & H3 & _).
      now apply (buffer_ok_frame out).
    + destruct (mem_buf out) as [p|]; [|discriminate].
      repeat match type of Hw with
             | (if ?c then _ else _) = _ => destruct c
             | match ?x with _ => _ end = _ => destruct x; try discriminate Hw
             end;
        injection Hw as _ <- _; exact Hok.
    + apply lyp_write_repeat_keeps in Hw as (H1 & _ & H2 & H3 & _).
      now apply (buffer_ok_frame out).
Qed.

End BufferInvariant.

Section SinkInvariant.

Lemma memcpy_in_range (p p' : ptr) (pos : N) (src : list memval) :
  src <> [] -> memcpy p pos src = Some p' -> pos + len src <= len (cells_of p).
Proof.
  unfold memcpy. destruct src as [|b src]; [congruence|]. intros _.
  destruct p as [|cells|]; try discriminate.
  destruct (N.leb_spec (pos + len (b :: src)) (len cells)) as [Hin|]; [|discriminate].
  intros _. exact Hin.
Qed.

Lemma ly_realloc_block (ok : bool) (p p' : ptr) (size : N) :
  ly_realloc ok p size = Some p' ->
  p' = Null \/ (p' <> Freed /\ len (cells_of p') = size /\ ok = true).
Proof.
  unfold ly_realloc. destruct p as [|cells|]; try discriminate; destruct ok;
    intros H; injection H as <-; auto; right; (split; [discriminate|]); split; try reflexivity;
    simpl; [list_len | apply len_resize].
Qed.

Lemma memory_ok_set (out : lyp_out) (p : ptr) (l s : N) :
  type out = LYP_OUT_MEMORY -> hole_count out = 0 ->
  p <> Freed -> s <= len (cells_of p) -> l <= s -> len (cells_of p) < SIZE_MOD ->
  memory_ok (set_mem (Some p) l s out) /\ block_fits (set_mem (Some p) l s out).
Proof.
  intros Hty Hh Hp Hs Hl Hfit. split.
  - unfold memory_ok. cbn. split; [assumption|]. split; [assumption|].
    exists p. auto.
  - intros q Hq. cbn in Hq. now injection Hq as <-.
Qed.

(** The two copies of a write to a memory sink, when both are defined:
    the terminator lands within the block, one cell behind the bytes. *)
Lemma terminated_in_range (p p1 p2 : ptr) (l : N) (buf : list memval) :
  p <> Freed -> len (cells_of p) < SIZE_MOD -> l <= len (cells_of p) ->
  memcpy p l buf = Some p1 ->
  memcpy p1 (size_t_add l (len buf)) [Val x00] = Some p2 ->
  size_t_add l (len buf) = l + len buf /\
  l + len buf + 1 <= len (cells_of p) /\
  size_t_add (size_t_add l (len buf)) 1 = l + len buf + 1 /\
  p2 <> Freed /\ len (cells_of p2) = len (cells_of p).
Proof.
  intros Hp Hfit Hl H1 H2.
  pose proof (memcpy_keeps _ _ _ _ H1) as [Hl1 Hf1].
  pose proof (memcpy_keeps _ _ _ _ H2) as [Hl2 Hf2].
  apply memcpy_in_range in H2; [|discriminate].
  change (len [Val x00]) with 1 in H2.
  assert (Hsum : size_t_add l (len buf) = l + len buf).
  { destruct buf as [|b buf].
    - change (len (@nil memval)) with 0. rewrite N.add_0_r. apply size_t_add_0_r. lia.
    - apply memcpy_in_range in H1; [|discriminate]. apply size_t_add_small. lia. }
  rewrite Hsum in *. split; [reflexivity|]. split; [lia|].
  split; [apply size_t_add_small; lia|]. split; [auto | congruence].
Qed.

Lemma lyp_write_memory_ok (ok : bool) (out : lyp_out) (buf : list memval) (w : world)
    (e : LY_ERR) (out' : lyp_out) (w' : world) :
  memory_ok out -> block_fits out ->
  lyp_write ok out buf w = Done (e, out', w') -> memory_ok out' /\ block_fits out'.
Proof.
  intros Hm Hb Hw. pose proof Hm as (Hty & Hh & p & Hbuf & Hp & Hsz & Hle).
  pose proof (Hb _ Hbuf) as Hfit.
  unfold lyp_write in Hw.
  destruct (LYOUT_CHECK out); [injection Hw as _ <- _; auto|].
  rewrite Hh, Hty, Hbuf in Hw. cbn [N.eqb negb] in Hw.
  destruct (N.ltb_spec (mem_size out) (size_t_add (size_t_add (mem_len out) (len buf)) 1))
    as [Hgrow|Hroom].
  - destruct (ly_realloc ok p _) as [p'|] eqn:Hre; [|discriminate].
    apply ly_realloc_block in Hre as [-> | (Hp' & Hl' & _)].
    + injection Hw as _ <- _. apply memory_ok_set; try assumption; try discriminate; simpl; list_len.
    + assert (Hw' : match memcpy p' (mem_len out) buf with
                    | Some p1 =>
                        match memcpy p1 (size_t_add (mem_len out) (len buf)) [Val x00] with
                        | Some p2 =>
                            Done (LY_SUCCESS,
                                  set_printed (size_t_add (printed out) (len buf))
                                    (set_mem (Some p2) (size_t_add (mem_len out) (len buf))
                                       (size_t_add (size_t_add (mem_len out) (len buf)) 1) out), w)
                        | None => Undefined
                        end
                    | None => Undefined
                    end = Done (e, out', w'))
        by (destruct p'; [exfalso; simpl in Hl'; list_len | exact Hw | contradiction]).
      clear Hw.
      destruct (memcpy p' (mem_len out) buf) as [p1|] eqn:H1; [|discriminate].
      destruct (memcpy p1 _ [Val x00]) as [p2|] eqn:H2; [|discriminate].
      injection Hw' as _ <- _.
      pose proof (size_t_add_fits (size_t_add (mem_len out) (len buf)) 1) as Hneed.
      destruct (terminated_in_range p' p1 p2 (mem_len out) buf) as (Hs1 & Hin & Hs2 & Hp2 & Hl2);
        try assumption; try lia.
      destruct (memory_ok_set out p2 (size_t_add (mem_len out) (len buf))
                  (size_t_add (size_t_add (mem_len out) (len buf)) 1));
        try assumption; try lia.
      split; assumption.
  - destruct (memcpy p (mem_len out) buf) as [p1|] eqn:H1; [|discriminate].
    destruct (memcpy p1 _ [Val x00]) as [p2|] eqn:H2; [|discriminate].
    injection Hw as _ <- _.
    destruct (terminated_in_range p p1 p2 (mem_len out) buf) as (Hs1 & Hin & Hs2 & Hp2 & Hl2);
      try assumption; try lia.
    destruct (memory_ok_set out p2 (size_t_add (mem_len out) (len buf)) (mem_size out));
      try assumption; try lia.
    split; assumption.
Qed.

Lemma memory_ok_frame (out out' : lyp_out) :
  type out' = type out -> hole_count out' = hole_count out ->
  mem_buf out' = mem_buf out -> mem_len out' = mem_len out -> mem_size out' = mem_size out ->
  memory_ok out /\ block_fits out -> memory_ok out' /\ block_fits out'.
Proof. unfold memory_ok, block_fits. intros -> -> -> -> ->. auto. Qed.

Lemma lyp_print_memory_ok (v fmt ok : bool) (out : lyp_out) (msg : list byte) (w : world)
    (e : LY_ERR) (out' : lyp_out) (w' : world) :
  memory_ok out -> block_fits out ->
  lyp_print v fmt ok out msg w = Done (e, out', w') -> e <> LY_EMEM ->
  memory_ok out' /\ block_fits out'.
Proof.
  intros Hm Hb Hw He. pose proof Hm as (Hty & Hh & p & Hbuf & Hp & Hsz & Hle).
  pose proof (Hb _ Hbuf) as Hfit.
  unfold lyp_print in Hw.
  destruct (LYOUT_CHECK out); [injection Hw as _ <- _; auto|].
  rewrite Hty, Hbuf in Hw.
  set (vs := if fmt && (Z.of_nat (length msg) <=? INT_MAX)%Z
             then Z.of_nat (length msg) else (-1)%Z) in *.
  destruct (Z.ltb_spec vs 0) as [Hneg|Hpos].
  - injection Hw as _ <- _. apply (memory_ok_frame out); auto.
  - assert (Hcount : Z.to_N vs = len (map Val msg)).
    { subst vs. destruct (fmt && (Z.of_nat (length msg) <=? INT_MAX)%Z); [list_len | lia]. }
    rewrite Hcount in Hw.
    destruct (N.ltb_spec (mem_size out)
                (size_t_add (size_t_add (mem_len out) (len (map Val msg))) 1)) as [Hgrow|Hroom].
    + destruct (ly_realloc ok p _) as [p'|] eqn:Hre; [|discriminate].
      apply ly_realloc_block in Hre as [-> | (Hp' & Hl' & _)].
      * injection Hw as <- _ _. congruence.
      * assert (Hw' : match memcpy p' (mem_len out) (map Val msg) with
                      | Some p1 =>
                          match memcpy p1 (size_t_add (mem_len out) (len (map Val msg)))
                                  [Val x00] with
                          | Some p2 =>
                              Done (LY_SUCCESS,
                                    set_printed (size_t_add (printed out) (len (map Val msg)))
                                      (set_mem (Some p2)
                                         (size_t_add (mem_len out) (len (map Val msg)))
                                         (size_t_add (size_t_add (mem_len out)
                                                        (len (map Val msg))) 1) out), w)
                          | None => Undefined
                          end
                      | None => Undefined
                      end = Done (e, out', w'))
          by (destruct p'; [exfalso; simpl in Hl'; list_len | exact Hw | contradiction]).
        clear Hw.
        destruct (memcpy p' (mem_len out) (map Val msg)) as [p1|] eqn:H1; [|discriminate].
        destruct (memcpy p1 _ [Val x00]) as [p2|] eqn:H2; [|discriminate].
        injection Hw' as _ <- _.
        pose proof (size_t_add_fits (size_t_add (mem_len out) (len (map Val msg))) 1) as Hneed.
        destruct (terminated_in_range p' p1 p2 (mem_len out) (map Val msg))
          as (Hs1 & Hin & Hs2 & Hp2 & Hl2); try assumption; try lia.
        destruct (memory_ok_set out p2 (size_t_add (mem_len out) (len (map Val msg)))
                    (size_t_add (size_t_add (mem_len out) (len (map Val msg))) 1));
          try assumption; try lia.
        split; assumption.
    + destruct (memcpy p (mem_len out) (map Val msg)) as [p1|] eqn:H1; [|discriminate].
      destruct (memcpy p1 _ [Val x00]) as [p2|] eqn:H2; [|discriminate].
      injection Hw as _ <- _.
      destruct (terminated_in_range p p1 p2 (mem_len out) (map Val msg))
        as (Hs1 & Hin & Hs2 & Hp2 & Hl2); try assumption; try lia.
      destruct (memory_ok_set out p2 (size_t_add (mem_len out) (len (map Val msg)))
                  (mem_size out)); try assumption; try lia.
      split; assumption.
Qed.

Lemma ly_write_skip_memory_ok (ok : bool) (out : lyp_out) (count : N)
    (e : LY_ERR) (pos : option N) (out' : lyp_out) :
  memory_ok out -> block_fits out ->
  ly_write_skip ok out count = Done (e, pos, out') -> memory_ok out' /\ block_fits out'.
Proof.
  intros Hm Hb Hw. pose proof Hm as (Hty & Hh & p & Hbuf & Hp & Hsz & Hle).
  pose proof (Hb _ Hbuf) as Hfit.
  unfold ly_write_skip in Hw.
  destruct (LYOUT_CHECK out); [injection Hw as _ _ <-; auto|].
  rewrite Hty, Hbuf in Hw.
  pose proof (size_t_add_fits (mem_len out) count) as Hneed.
  destruct (N.ltb_spec (mem_size out) (size_t_add (mem_len out) count)) as [Hgrow|Hroom].
  - destruct (ly_realloc ok p _) as [p'|] eqn:Hre; [|discriminate].
    apply ly_realloc_block in Hre as [-> | (Hp' & Hl' & _)].
    + injection Hw as _ _ <-.
      apply (memory_ok_frame (set_mem (Some Null) 0 0 out)); try reflexivity.
      apply memory_ok_set; try assumption; try discriminate; simpl; list_len.
    + assert (Hw' : Done (LY_SUCCESS, Some (mem_len out),
                          set_printed (size_t_add (printed out) count)
                            (set_mem (Some p') (size_t_add (mem_len out) count)
                               (size_t_add (mem_len out) count) out)) = Done (e, pos, out'))
        by (destruct p'; [exfalso; simpl in Hl'; list_len | exact Hw | contradiction]).
      injection Hw' as _ _ <-.
      apply (memory_ok_frame (set_mem (Some p') (size_t_add (mem_len out) count)
                                (size_t_add (mem_len out) count) out)); try reflexivity.
      apply memory_ok_set; try assumption; lia.
  - injection Hw as _ _ <-.
    apply (memory_ok_frame (set_mem (Some p) (size_t_add (mem_len out) count)
                              (mem_size out) out)); try reflexivity.
    apply memory_ok_set; try assumption; lia.
Qed.

Lemma ly_write_skipped_memory_ok (out : lyp_out) (position : N) (buf : list memval)
    (w : world) (e : LY_ERR) (out' : lyp_out) (w' : world) :
  memory_ok out -> block_fits out ->
  ly_write_skipped out position buf w = Done (e, out', w') -> memory_ok out' /\ block_fits out'.
Proof.
  intros Hm Hb Hw. pose proof Hm as (Hty & Hh & p & Hbuf & Hp & Hsz & Hle).
  pose proof (Hb _ Hbuf) as Hfit.
  unfold ly_write_skipped in Hw.
  destruct (LYOUT_CHECK out); [injection Hw as _ <- _; auto|].
  rewrite Hty, Hbuf in Hw.
  destruct (memcpy p position buf) as [p'|] eqn:Hcp; [|discriminate].
  injection Hw as _ <- _. apply memcpy_keeps in Hcp as [Hl Hf].
  apply memory_ok_set; try assumption; try lia; auto.
Qed.

(** No operation changes the type of the sink. *)
Lemma lyp_write_type (ok : bool) (out : lyp_out) (buf : list memval) (w : world)
    (e : LY_ERR) (out' : lyp_out) (w' : world) :
  lyp_write ok out buf w = Done (e, out', w') -> type out' = type out.
Proof.
  intros Hw. unfold lyp_write in Hw.
  destruct (LYOUT_CHECK out); [injection Hw as _ <- _; reflexivity|].
  destruct (negb (hole_count out =? 0)).
  - split_cases Hw; injection Hw as _ <- _; reflexivity.
  - destruct (type out) eqn:Hty;
      try (apply lyp_write_repeat_keeps in Hw as (_ & _ & _ & _ & Ht); congruence).
    + destruct (lyp_write_check out (len buf) _) as [[e0 o0]|] eqn:Hc; [|discriminate].
      injection Hw as _ <- _. unfold lyp_write_check in Hc.
      split_cases Hc; try discriminate Hc; injection Hc as _ <-; exact Hty.
    + split_cases Hw; injection Hw as _ <- _; exact Hty.
Qed.

Lemma lyp_print_keeps (v fmt ok : bool) (out : lyp_out) (msg : list byte) (w : world)
    (e : LY_ERR) (out' : lyp_out) (w' : world) :
  lyp_print v fmt ok out msg w = Done (e, out', w') ->
  type out' = type out /\ buffered out' = buffered out /\
  buf_len out' = buf_len out /\ buf_size out' = buf_size out /\
  hole_count out' = hole_count out.
Proof.
  intros Hw. unfold lyp_print in Hw.
  destruct (LYOUT_CHECK out); [injection Hw as _ <- _; auto|].
  destruct (type out) eqn:Hty; split_cases Hw; injection Hw as _ <- _; cbn; auto.
Qed.

Lemma ly_write_skip_type (ok : bool) (out : lyp_out) (count : N)
    (e : LY_ERR) (pos : option N) (out' : lyp_out) :
  ly_write_skip ok out count = Done (e, pos, out') -> type out' = type out.
Proof.
  intros Hw. unfold ly_write_skip in Hw.
  destruct (LYOUT_CHECK out); [injection Hw as _ _ <-; reflexivity|].
  destruct (type out) eqn:Hty; split_cases Hw; injection Hw as _ _ <-; exact Hty.
Qed.

Lemma ly_write_skip_buffer_ok (ok : bool) (out : lyp_out) (count : N)
    (e : LY_ERR) (pos : option N) (out' : lyp_out) :
  buffer_ok out -> ly_write_skip ok out count = Done (e, pos, out') -> buffer_ok out'.
Proof.
  intros Hok Hw. pose proof Hok as (Hp & Hsz & Hle & Hfit).
  pose proof (size_t_add_fits (buf_len out) count) as Hneed.
  assert (Htarget :
            (if buf_size out <? size_t_add (buf_len out) count
             then match ly_realloc ok (buffered out) (size_t_add (buf_len out) count) with
                  | None => Undefined
                  | Some Null =>
                      Done (LOGMEM_RET, None, set_status LY_ESYS (set_buffer Null 0 0 out))
                  | Some p' =>
                      Done (LY_SUCCESS, Some (buf_len out),
                            set_hole_count (size_t_add (hole_count out) 1)
                              (set_buffer p' (size_t_add (buf_len out) count)
                                 (size_t_add (buf_len out) count) out))
                  end
             else Done (LY_SUCCESS, Some (buf_len out),
                        set_hole_count (size_t_add (hole_count out) 1)
                          (set_buffer (buffered out) (size_t_add (buf_len out) count)
                             (buf_size out) out))) = Done (e, pos, out') ->
            buffer_ok out').
  { clear Hw. intros Hw.
    destruct (N.ltb_spec (buf_size out) (size_t_add (buf_len out) count)) as [Hgrow|Hroom].
    - destruct (ly_realloc ok (buffered out) _) as [p'|] eqn:Hre; [|discriminate].
      apply ly_realloc_block in Hre as [-> | (Hp' & Hl' & _)].
      + injection Hw as _ _ <-.
        apply (buffer_ok_frame (set_buffer Null 0 0 out)); try reflexivity.
        apply buffer_ok_set; try discriminate; try reflexivity; list_len.
      + assert (Hw' : Done (LY_SUCCESS, Some (buf_len out),
                            set_hole_count (size_t_add (hole_count out) 1)
                              (set_buffer p' (size_t_add (buf_len out) count)
                                 (size_t_add (buf_len out) count) out)) = Done (e, pos, out'))
          by (destruct p'; [exfalso; simpl in Hl'; list_len | exact Hw | contradiction]).
        injection Hw' as _ _ <-.
        apply (buffer_ok_frame (set_buffer p' (size_t_add (buf_len out) count)
                                  (size_t_add (buf_len out) count) out)); try reflexivity.
        apply buffer_ok_set; try assumption; lia.
    - injection Hw as _ _ <-.
      apply (buffer_ok_frame (set_buffer (buffered out) (size_t_add (buf_len out) count)
                                (buf_size out) out)); try reflexivity.
      apply buffer_ok_set; try assumption; lia. }
  unfold ly_write_skip in Hw.
  destruct (LYOUT_CHECK out); [injection Hw as _ _ <-; exact Hok|].
  destruct (type out); try (apply Htarget; exact Hw).
  - injection Hw as _ _ <-. exact Hok.
  - split_cases Hw; injection Hw as _ _ <-; apply (buffer_ok_frame out); auto.
Qed.

Lemma ly_write_skipped_keeps (out : lyp_out) (position : N) (buf : list memval)
    (w : world) (e : LY_ERR) (out' : lyp_out) (w' : world) :
  buffer_ok out -> ly_write_skipped out position buf w = Done (e, out', w') ->
  buffer_ok out' /\ type out' = type out.
Proof.
  intros Hok Hw. pose proof Hok as (Hp & Hsz & Hle & Hfit).
  assert (Htarget :
            (if buf_len out <? size_t_add position (len buf)
             then Done (LOGMEM_RET, set_status LY_ESYS out, w)
             else match memcpy (buffered out) position buf with
                  | None => Undefined
                  | Some p =>
                      if hole_count (set_hole_count (size_t_dec (hole_count out))
                                       (set_buffer p (buf_len out) (buf_size out) out)) =? 0
                      then match load (buffered (set_hole_count (size_t_dec (hole_count out))
                                          (set_buffer p (buf_len out) (buf_size out) out)))
                                   (buf_len (set_hole_count (size_t_dec (hole_count out))
                                          (set_buffer p (buf_len out) (buf_size out) out))) with
                           | None => Undefined
                           | Some data =>
                               match lyp_write true
                                       (set_hole_count (size_t_dec (hole_count out))
                                          (set_buffer p (buf_len out) (buf_size out) out))
                                       data w with
                               | Done (ret, out2, w2) =>
                                   Done (ret, set_buffer (buffered out2) 0 (buf_size out2) out2, w2)
                               | Undefined => Undefined
                               | Starved => Starved
                               end
                           end
                      else Done (LY_SUCCESS,
                                 set_hole_count (size_t_dec (hole_count out))
                                   (set_buffer p (buf_len out) (buf_size out) out), w)
                  end) = Done (e, out', w') ->
            buffer_ok out' /\ type out' = type out).
  { clear Hw. intros Hw.
    destruct (buf_len out <? size_t_add position (len buf)).
    - injection Hw as _ <- _. split; [|reflexivity]. apply (buffer_ok_frame out); auto.
    - destruct (memcpy (buffered out) position buf) as [p|] eqn:Hcp; [|discriminate].
      apply memcpy_keeps in Hcp as [Hl Hf].
      set (out1 := set_hole_count (size_t_dec (hole_count out))
                     (set_buffer p (buf_len out) (buf_size out) out)) in *.
      assert (Hok1 : buffer_ok out1).
      { apply (buffer_ok_frame (set_buffer p (buf_len out) (buf_size out) out));
          try reflexivity.
        apply buffer_ok_set; auto; congruence. }
      destruct (hole_count out1 =? 0).
      + destruct (load (buffered out1) (buf_len out1)) as [data|]; [|discriminate].
        destruct (lyp_write true out1 data w) as [[[ret out2] w2]| |] eqn:Hw2;
          try discriminate.
        injection Hw as _ <- _.
        pose proof (lyp_write_buffer_ok _ _ _ _ _ _ _ Hok1 Hw2) as (Hp2 & Hsz2 & Hle2 & Hfit2).
        apply lyp_write_type in Hw2. split; [|exact Hw2].
        apply buffer_ok_set; try assumption; lia.
      + injection Hw as _ <- _. split; [exact Hok1 | reflexivity]. }
  unfold ly_write_skipped in Hw.
  destruct (LYOUT_CHECK out); [injection Hw as _ <- _; auto|].
  destruct (type out) eqn:Hty; try (apply Htarget; exact Hw).
  - injection Hw as _ <- _. auto.
  - split_cases Hw; injection Hw as _ <- _. split; [|exact Hty].
    apply (buffer_ok_frame out); auto.
Qed.

Lemma sink_ok_intro (out out' : lyp_out) :
  sink_ok out -> buffer_ok out' -> type out' = type out ->
  (memory_ok out -> block_fits out -> memory_ok out' /\ block_fits out') ->
  sink_ok out'.
Proof.
  intros [Hb Hm] Hb' Hty Hm'. split; [exact Hb'|].
  rewrite Hty. intros Hmem. destruct (Hm Hmem) as [H1 H2]. auto.
Qed.

Lemma lyp_write_sink_ok (ok : bool) (out : lyp_out) (buf : list memval) (w : world)
    (e : LY_ERR) (out' : lyp_out) (w' : world) :
  sink_ok out -> lyp_write ok out buf w = Done (e, out', w') -> sink_ok out'.
Proof.
  intros Hok Hw. apply (sink_ok_intro out); [assumption | | |].
  - eapply lyp_write_buffer_ok; [apply Hok | exact Hw].
  - eapply lyp_write_type; exact Hw.
  - intros Hm Hf. eapply lyp_write_memory_ok; eauto.
Qed.

Lemma lyp_print_sink_ok (v fmt ok : bool) (out : lyp_out) (msg : list byte) (w : world)
    (e : LY_ERR) (out' : lyp_out) (w' : world) :
  sink_ok out -> lyp_print v fmt ok out msg w = Done (e, out', w') -> e <> LY_EMEM ->
  sink_ok out'.
Proof.
  intros Hok Hw He. pose proof (lyp_print_keeps _ _ _ _ _ _ _ _ _ Hw) as (Ht & H1 & H2 & H3 & _).
  apply (sink_ok_intro out); [assumption | | assumption |].
  - apply (buffer_ok_frame out); auto. apply Hok.
  - intros Hm Hf. eapply lyp_print_memory_ok; eauto.
Qed.

Lemma ly_write_skip_sink_ok (ok : bool) (out : lyp_out) (count : N)
    (e : LY_ERR) (pos : option N) (out' : lyp_out) :
  sink_ok out -> ly_write_skip ok out count = Done (e, pos, out') -> sink_ok out'.
Proof.
  intros Hok Hw. apply (sink_ok_intro out); [assumption | | |].
  - eapply ly_write_skip_buffer_ok; [apply Hok | exact Hw].
  - eapply ly_write_skip_type; exact Hw.
  - intros Hm Hf. eapply ly_write_skip_memory_ok; eauto.
Qed.

Lemma ly_write_skipped_sink_ok (out : lyp_out) (position : N) (buf : list memval)
    (w : world) (e : LY_ERR) (out' : lyp_out) (w' : world) :
  sink_ok out -> ly_write_skipped out position buf w = Done (e, out', w') -> sink_ok out'.
Proof.
  intros Hok Hw.
  destruct (ly_write_skipped_keeps _ _ _ _ _ _ _ (proj1 Hok) Hw) as [Hb Ht].
  apply (sink_ok_intro out); [assumption | assumption | assumption |].
  intros Hm Hf. eapply ly_write_skipped_memory_ok; eauto.
Qed.

Lemma lyp_out_reset_sink_ok (seek_ok : bool) (out : lyp_out) :
  sink_ok out -> sink_ok (snd (lyp_out_reset seek_ok out)).
Proof.
  intros Hok. unfold lyp_out_reset.
  destruct (type out) eqn:Hty; try (destruct seek_ok; exact Hok); try exact Hok.
  apply (sink_ok_intro out); [assumption | | reflexivity |].
  - apply (buffer_ok_frame out); auto. apply Hok.
  - intros (_ & Hh & p & Hbuf & Hp & Hsz & Hle) Hf. simpl.
    apply (memory_ok_frame (set_mem (Some p) 0 (mem_size out) out)); auto;
      apply memory_ok_set; auto; try lia; now apply Hf.
Qed.

Lemma step_sink_ok (c : call) (out : lyp_out) (w : world) (toks : list N)
    (e : LY_ERR) (out' : lyp_out) (w' : world) (toks' : list N) :
  sink_ok out -> step c (out, w, toks) = Done (e, (out', w', toks')) -> sink_ok out'.
Proof.
  intros Hok Hs. destruct c as [buf | msg | count | hole buf]; cbn [step] in Hs.
  - destruct (lyp_write true out (map Val buf) w) as [[[e1 o1] w1]| |] eqn:Hw;
      try discriminate.
    injection Hs as _ <- _ _. eapply lyp_write_sink_ok; eauto.
  - destruct (lyp_print true true true out msg w) as [[[e1 o1] w1]| |] eqn:Hw;
      try discriminate.
    injection Hs as _ <- _ _.
    destruct (LY_ERR_eqb e1 LY_EMEM) eqn:He.
    + (* with the allocator serving, the memory error is the stored status *)
      assert (o1 = out); [|now subst].
      unfold lyp_print in Hw. destruct (LYOUT_CHECK out); [now injection Hw as _ <- _|].
      destruct e1; try discriminate He.
      destruct (type out); try destruct (mem_buf out) as [[|cells|]|];
        cbn [ly_realloc] in Hw; split_cases Hw; try discriminate Hw;
        try (injection Hw as E _ _; discriminate E).
    + eapply lyp_print_sink_ok; eauto. intros ->. discriminate He.
  - destruct (ly_write_skip true out count) as [[[e1 pos] o1]| |] eqn:Hw; try discriminate.
    assert (o1 = out') by (destruct pos; now injection Hs as _ <- _ _). subst o1.
    eapply ly_write_skip_sink_ok; eauto.
  - destruct (nth_error toks hole) as [position|]; [|discriminate].
    destruct (ly_write_skipped out position (map Val buf) w) as [[[e1 o1] w1]| |] eqn:Hw;
      try discriminate.
    injection Hs as _ <- _ _. eapply ly_write_skipped_sink_ok; eauto.
Qed.

Lemma run_sink_ok (cs : list call) :
  forall out w toks e out' w' toks',
    sink_ok out -> run cs (out, w, toks) = Done (e, (out', w', toks')) -> sink_ok out'.
Proof.
  induction cs as [|c cs IH]; intros out w toks e out' w' toks' Hok Hrun.
  - simpl in Hrun. now injection Hrun as _ <- _ _.
  - cbn [run] in Hrun.
    destruct (step c (out, w, toks)) as [[e1 [[o1 w1] t1]]| |] eqn:Hs; try discriminate.
    pose proof (step_sink_ok _ _ _ _ _ _ _ _ Hok Hs) as Hok1.
    destruct e1; try (injection Hrun as _ <- _ _; exact Hok1).
    eapply IH; eauto.
Qed.

End SinkInvariant.

(** X1: the sinks the constructors return are in order (for the memory
    sink: when the caller's pointer is null or points to a block of at
    least [size] cells), and every operation that returns keeps a sink in
    order, whatever the allocator and the target answer: the raw write,
    the reservation, the backfill, the reset, any sequence of calls, and
    the formatted write unless it returns the memory error.  In order
    means: the hole buffer pointer is null or live, its block is
    [buf_size] cells long and [buf_len] stays within it; on a memory sink
    the caller's pointer is null or live, its block has at least
    [mem_size] cells and [mem_len] stays within [mem_size]. *)
Theorem sink_stays_in_order :
  (forall o, lyp_new_clb true = Some o \/ lyp_new_file true = Some o \/
             (exists v d f, lyp_new_fd v true d f = Done (Some o)) \/
             lyp_new_filepath true true = Some o -> sink_ok o) /\
  (forall strp size o,
     strp <> Freed -> size <= len (cells_of strp) -> len (cells_of strp) < SIZE_MOD ->
     lyp_new_memory true strp size = Some o -> sink_ok o) /\
  (forall out, sink_ok out ->
     (forall ok buf w e out' w',
        lyp_write ok out buf w = Done (e, out', w') -> sink_ok out') /\
     (forall v fmt ok msg w e out' w',
        lyp_print v fmt ok out msg w = Done (e, out', w') -> e <> LY_EMEM -> sink_ok out') /\
     (forall ok count e pos out',
        ly_write_skip ok out count = Done (e, pos, out') -> sink_ok out') /\
     (forall position buf w e out' w',
        ly_write_skipped out position buf w = Done (e, out', w') -> sink_ok out') /\
     (forall seek_ok, sink_ok (snd (lyp_out_reset seek_ok out))) /\
     (forall cs w toks e out' w' toks',
        run cs (out, w, toks) = Done (e, (out', w', toks')) -> sink_ok out')).
Proof.
  split; [|split].
  - assert (Hz : forall t, t <> LYP_OUT_MEMORY -> sink_ok (zeroed t)).
    { intros t Ht. split; [apply zeroed_buffer_ok | intros E; contradiction]. }
    intros o [H | [H | [(v & d & f & H) | H]]].
    + injection H as <-. apply Hz. discriminate.
    + injection H as <-. apply Hz. discriminate.
    + unfold lyp_new_fd in H. destruct v; [|destruct d; [destruct f|]; try discriminate];
        injection H as <-; apply Hz; discriminate.
    + injection H as <-. apply Hz. discriminate.
  - intros strp size o Hp Hs Hfit Hnew.
    destruct (lyp_new_memory_ok strp size o Hp Hs Hnew) as [Hm Hb].
    split; [exact Hb|]. intros _. split; [exact Hm|].
    intros p Hbuf. unfold lyp_new_memory in Hnew. injection Hnew as <-.
    destruct (size =? 0); [cbn in Hbuf; injection Hbuf as <-; list_len|].
    destruct strp; cbn in Hbuf; injection Hbuf as <-; assumption || list_len.
  - intros out Hok. split; [|split; [|split; [|split; [|split]]]].
    + intros ok buf w e out' w'. now apply lyp_write_sink_ok.
    + intros v fmt ok msg w e out' w'. now apply lyp_print_sink_ok.
    + intros ok count e pos out'. now apply ly_write_skip_sink_ok.
    + intros position buf w e out' w'. now apply ly_write_skipped_sink_ok.
    + intros seek_ok. now apply lyp_out_reset_sink_ok.
    + intros cs w toks e out' w' toks'. now apply run_sink_ok.
Qed.

(** The theorem at the callback sink: after a reservation of two bytes, a
    raw write of "abc" and the backfill with "Z!" the sink is in order. *)
Lemma sink_stays_in_order_witness :
  sink_ok (set_printed 5 (set_hole_count 0 (set_buffer (Block (bytes "Z!abc")) 0 5 callback_sink))).
Proof.
  apply (proj2 (proj2 (proj2 (proj2 (proj2
           (proj2 (proj2 sink_stays_in_order) callback_sink
              (proj1 sink_stays_in_order callback_sink (or_introl eq_refl)))))))
           [Reserve 2; Write (str "abc"); Backfill 0 (str "Z!")]
           (answers [accepted 5]) [] LY_SUCCESS _
           {| pending := []; calls := [bytes "Z!abc"] |} [0]).
  reflexivity.
Defined.

(** ** Defined behaviour *)

Section Defined.

Lemma memcpy_defined (p : ptr) (pos : N) (src : list memval) :
  p <> Freed -> pos + len src <= len (cells_of p) ->
  exists p', memcpy p pos src = Some p' /\ p' <> Freed /\ len (cells_of p') = len (cells_of p).
Proof.
  intros Hp Hin. unfold memcpy. destruct src as [|b src].
  { change (len []) with 0 in Hin. exists p.
    destruct p as [|cells|]; [| |contradiction]; simpl in Hin.
    - change (len []) with 0 in Hin. replace pos with 0 by lia. auto.
    - destruct (N.leb_spec pos (len cells)); [auto | lia]. }
  destruct p as [|cells|]; [exfalso; simpl in Hin; list_len | | contradiction].
  simpl in Hin. apply N.leb_le in Hin. rewrite Hin. eexists. split; [reflexivity|].
  split; [discriminate|]. simpl. apply len_splice. now apply N.leb_le.
Qed.







End Defined.




(** X3: the bounds check of the backfill adds [position] and [count] as
    [size_t] values, so a range that wraps around passes it.  On a sink
    with a target whose hole buffer is in order, a backfill of at least
    one byte with [position + count >= 2^64] and the wrapped sum within
    the buffer's length is not rejected: it copies outside the block,
    which is undefined behaviour. *)
Theorem backfill_check_wraps (out : lyp_out) (position : N) (buf : list memval) (w : world) :
  status out = LY_SUCCESS -> has_target (type out) = true -> buffer_ok out ->
  buf <> [] -> SIZE_MOD <= position + len buf ->
  size_t_add position (len buf) <= buf_len out ->
  ly_write_skipped out position buf w = Undefined.
Proof.
  intros Hs Ht (Hp & Hsz & Hle & Hfit) Hbuf Hwrap Hcheck.
  unfold ly_write_skipped. rewrite (LYOUT_CHECK_clear _ Hs).
  apply N.ltb_ge in Hcheck. rewrite Hcheck.
  assert (Hcp : memcpy (buffered out) position buf = None).
  { unfold memcpy. destruct buf as [|b buf]; [congruence|].
    destruct (buffered out) as [|cells|]; try reflexivity.
    simpl in Hsz. destruct (N.leb_spec (position + len (b :: buf)) (len cells)); [lia|].
    reflexivity. }
  rewrite Hcp. destruct (type out); try discriminate Ht; reflexivity.
Qed.

(** The theorem at the callback sink with a hole of two bytes: the
    backfill of two bytes at position [2^64 - 1] passes the check
    ([2^64 - 1 + 2] wraps to 1) and copies outside the buffer. *)
Lemma backfill_check_wraps_witness :
  ly_write_skipped (buffering_sink [Undef; Undef] 1) 18446744073709551615 (bytes "Z!")
    (answers [accepted 2]) = Undefined.
Proof.
  apply backfill_check_wraps.
  - reflexivity.
  - reflexivity.
  - unfold buffer_ok. cbn. split; [discriminate|]. split; [reflexivity|].
    split; [unfold SIZE_MOD; lia | reflexivity].
  - discriminate.
  - unfold SIZE_MOD. cbn. lia.
  - unfold size_t_add, SIZE_MOD. cbn. lia.
Defined.

(** ** The terminator of a memory sink *)

Section Terminator.

Lemma LYOUT_CHECK_status (out : lyp_out) : LYOUT_CHECK out = true -> status out <> LY_SUCCESS.
Proof. unfold LYOUT_CHECK. destruct (status out); simpl; congruence. Qed.

Lemma memcpy_nth (p p' : ptr) (pos : N) (v : memval) :
  memcpy p pos [v] = Some p' -> nth_error (cells_of p') (N.to_nat pos) = Some v.
Proof.
  unfold memcpy. destruct p as [|cells|]; try discriminate.
  destruct (N.leb_spec (pos + len [v]) (len cells)) as [Hin|]; [|discriminate].
  intros H. injection H as <-. simpl cells_of. unfold splice.
  rewrite nth_error_app2 by (rewrite length_firstn; list_len).
  rewrite length_firstn.
  replace (N.to_nat pos - Nat.min (N.to_nat pos) (length cells))%nat with 0%nat by list_len.
  reflexivity.
Qed.

(** What a successful raw write to a memory sink has done. *)
Lemma lyp_write_memory_inv (ok : bool) (out : lyp_out) (buf : list memval) (w : world)
    (out' : lyp_out) (w' : world) (p : ptr) :
  type out = LYP_OUT_MEMORY -> hole_count out = 0 -> mem_buf out = Some p ->
  lyp_write ok out buf w = Done (LY_SUCCESS, out', w') ->
  exists p0 p1 p2 size,
    memcpy p0 (mem_len out) buf = Some p1 /\
    memcpy p1 (size_t_add (mem_len out) (len buf)) [Val x00] = Some p2 /\
    out' = set_printed (size_t_add (printed out) (len buf))
             (set_mem (Some p2) (size_t_add (mem_len out) (len buf)) size out) /\
    w' = w.
Proof.
  intros Hty Hh Hbuf Hw. unfold lyp_write in Hw.
  destruct (LYOUT_CHECK out) eqn:Hc.
  { apply LYOUT_CHECK_status in Hc. injection Hw as E _ _. congruence. }
  rewrite Hh, Hty, Hbuf in Hw. cbn [N.eqb negb] in Hw.
  destruct (mem_size out <? _).
  - destruct (ly_realloc ok p _) as [[|cells|]|]; try discriminate.
    + destruct (memcpy (Block cells) (mem_len out) buf) as [p1|] eqn:H1; [|discriminate].
      destruct (memcpy p1 _ [Val x00]) as [p2|] eqn:H2; [|discriminate].
      injection Hw as <- <-. exists (Block cells), p1, p2. eauto.
    + destruct (memcpy Freed (mem_len out) buf) as [p1|] eqn:H1; [|discriminate].
      destruct (memcpy p1 _ [Val x00]) as [p2|] eqn:H2; [|discriminate].
      injection Hw as <- <-. exists Freed, p1, p2. eauto.
  - destruct (memcpy p (mem_len out) buf) as [p1|] eqn:H1; [|discriminate].
    destruct (memcpy p1 _ [Val x00]) as [p2|] eqn:H2; [|discriminate].
    injection Hw as <- <-. exists p, p1, p2. eauto.
Qed.

(** What a successful formatted write to a memory sink has done. *)
Lemma lyp_print_memory_inv (v fmt ok : bool) (out : lyp_out) (msg : list byte) (w : world)
    (out' : lyp_out) (w' : world) (p : ptr) :
  type out = LYP_OUT_MEMORY -> mem_buf out = Some p ->
  lyp_print v fmt ok out msg w = Done (LY_SUCCESS, out', w') ->
  exists p0 p1 p2 size,
    memcpy p0 (mem_len out) (map Val msg) = Some p1 /\
    memcpy p1 (size_t_add (mem_len out) (len msg)) [Val x00] = Some p2 /\
    out' = set_printed (size_t_add (printed out) (len msg))
             (set_mem (Some p2) (size_t_add (mem_len out) (len msg)) size out) /\
    w' = w.
Proof.
  intros Hty Hbuf Hw. unfold lyp_print in Hw.
  destruct (LYOUT_CHECK out) eqn:Hc.
  { apply LYOUT_CHECK_status in Hc. injection Hw as E _ _. congruence. }
  rewrite Hty, Hbuf in Hw.
  set (vs := if fmt && (Z.of_nat (length msg) <=? INT_MAX)%Z
             then Z.of_nat (length msg) else (-1)%Z) in *.
  destruct (Z.ltb_spec vs 0) as [Hneg|Hpos]; [discriminate|].
  assert (Hcount : Z.to_N vs = len msg).
  { subst vs. destruct (fmt && (Z.of_nat (length msg) <=? INT_MAX)%Z); [list_len | lia]. }
  rewrite Hcount in Hw.
  destruct (mem_size out <? _).
  - destruct (ly_realloc ok p _) as [[|cells|]|]; try discriminate.
    + destruct (memcpy (Block cells) (mem_len out) (map Val msg)) as [p1|] eqn:H1;
        [|discriminate].
      destruct (memcpy p1 _ [Val x00]) as [p2|] eqn:H2; [|discriminate].
      injection Hw as <- <-. exists (Block cells), p1, p2. eauto.
    + destruct (memcpy Freed (mem_len out) (map Val msg)) as [p1|] eqn:H1; [|discriminate].
      destruct (memcpy p1 _ [Val x00]) as [p2|] eqn:H2; [|discriminate].
      injection Hw as <- <-. exists Freed, p1, p2. eauto.
  - destruct (memcpy p (mem_len out) (map Val msg)) as [p1|] eqn:H1; [|discriminate].
    destruct (memcpy p1 _ [Val x00]) as [p2|] eqn:H2; [|discriminate].
    injection Hw as <- <-. exists p, p1, p2. eauto.
Qed.

End Terminator.

(** X4: a raw or formatted write to a memory sink that succeeds leaves
    the caller's buffer terminated: the cell at index [mem_len], one
    behind the content, holds the zero byte.  A reservation does not: when
    it grows the buffer, the block ends with the reserved cells and no
    cell is left behind the content. *)
Theorem memory_write_terminates (out : lyp_out) (p : ptr) :
  type out = LYP_OUT_MEMORY -> hole_count out = 0 -> mem_buf out = Some p ->
  (forall ok buf w out' w',
     lyp_write ok out buf w = Done (LY_SUCCESS, out', w') ->
     exists p', mem_buf out' = Some p' /\
                nth_error (cells_of p') (N.to_nat (mem_len out')) = Some (Val x00)) /\
  (forall v fmt ok msg w out' w',
     lyp_print v fmt ok out msg w = Done (LY_SUCCESS, out', w') ->
     exists p', mem_buf out' = Some p' /\
                nth_error (cells_of p') (N.to_nat (mem_len out')) = Some (Val x00)) /\
  (forall ok count pos out',
     mem_size out < size_t_add (mem_len out) count ->
     ly_write_skip ok out count = Done (LY_SUCCESS, pos, out') ->
     exists p', mem_buf out' = Some p' /\
                nth_error (cells_of p') (N.to_nat (mem_len out')) = None).
Proof.
  intros Hty Hh Hbuf. split; [|split].
  - intros ok buf w out' w' Hw.
    destruct (lyp_write_memory_inv _ _ _ _ _ _ _ Hty Hh Hbuf Hw)
      as (p0 & p1 & p2 & size & _ & H2 & -> & _).
    exists p2. split; [reflexivity|]. cbn. exact (memcpy_nth _ _ _ _ H2).
  - intros v fmt ok msg w out' w' Hw.
    destruct (lyp_print_memory_inv _ _ _ _ _ _ _ _ _ Hty Hbuf Hw)
      as (p0 & p1 & p2 & size & _ & H2 & -> & _).
    exists p2. split; [reflexivity|]. cbn. exact (memcpy_nth _ _ _ _ H2).
  - intros ok count pos out' Hgrow Hw. unfold ly_write_skip in Hw.
    destruct (LYOUT_CHECK out) eqn:Hc.
    { apply LYOUT_CHECK_status in Hc. injection Hw as E _ _. congruence. }
    rewrite Hty, Hbuf in Hw. apply N.ltb_lt in Hgrow. rewrite Hgrow in Hw.
    destruct (ly_realloc ok p _) as [p'|] eqn:Hre; [|discriminate].
    pose proof (ly_realloc_block _ _ _ _ Hre) as [-> | (Hp' & Hl' & _)]; [discriminate|].
    assert (Hw' : Done (LY_SUCCESS, Some (mem_len out),
                        set_printed (size_t_add (printed out) count)
                          (set_mem (Some p') (size_t_add (mem_len out) count)
                             (size_t_add (mem_len out) count) out))
                  = Done (LY_SUCCESS, pos, out'))
      by (destruct p'; [discriminate Hw | exact Hw | contradiction]).
    injection Hw' as _ <-. exists p'. split; [reflexivity|]. cbn.
    apply nth_error_None. list_len.
Qed.

(** The theorem at the fresh memory sink: after the raw write of "abc"
    the cell behind the three bytes holds the zero byte. *)
Lemma memory_write_terminates_witness :
  exists p', mem_buf (set_printed 3 (set_mem (Some (Block (bytes "abc" ++ [Val x00]))) 3 4
                                       memory_sink)) = Some p' /\
             nth_error (cells_of p')
               (N.to_nat (mem_len (set_printed 3
                                     (set_mem (Some (Block (bytes "abc" ++ [Val x00]))) 3 4
                                        memory_sink)))) = Some (Val x00).
Proof.
  apply (proj1 (memory_write_terminates memory_sink Null eq_refl eq_refl eq_refl)
           true (bytes "abc") (answers []) _ (answers [])).
  reflexivity.
Defined.

(** ** Raw writes compose *)

Lemma size_t_add_assoc (n a b : N) :
  size_t_add (size_t_add n a) b = size_t_add n (a + b).
Proof.
  unfold size_t_add. rewrite N.Div0.add_mod_idemp_l. f_equal. lia.
Qed.

(** X5: two raw writes in a row leave what one raw write of the
    concatenated bytes leaves.  On a memory sink whose allocator serves:
    the same content, length and printed counter.  While a hole is
    outstanding: the same content and length of the hole buffer, and in
    both cases nothing has reached the target. *)
Theorem raw_writes_compose (out : lyp_out) (a b : list memval) (w : world) :
  status out = LY_SUCCESS ->
  (memory_ok out -> mem_len out + len a + len b + 1 < SIZE_MOD ->
   exists o1 o2 o12,
     lyp_write true out a w = Done (LY_SUCCESS, o1, w) /\
     lyp_write true o1 b w = Done (LY_SUCCESS, o2, w) /\
     lyp_write true out (a ++ b) w = Done (LY_SUCCESS, o12, w) /\
     mem_content o2 = mem_content o12 /\ mem_len o2 = mem_len o12 /\
     printed o2 = printed o12) /\
  (hole_count out <> 0 -> buffer_ok out -> buf_len out + len a + len b < SIZE_MOD ->
   exists o1 o2 o12,
     lyp_write true out a w = Done (LY_SUCCESS, o1, w) /\
     lyp_write true o1 b w = Done (LY_SUCCESS, o2, w) /\
     lyp_write true out (a ++ b) w = Done (LY_SUCCESS, o12, w) /\
     hole_content o2 = hole_content o12 /\ buf_len o2 = buf_len o12 /\
     printed o2 = printed o12).
Proof.
  intros Hs. split.
  - intros Hok Hfit.
    destruct (memory_write true out a w) as (p1 & s1 & Hw1 & Hok1 & Hc1);
      [assumption | assumption | lia | now left |].
    cbv zeta in Hw1, Hok1, Hc1.
    set (o1 := set_printed _ _) in *.
    destruct (memory_write true o1 b w) as (p2 & s2 & Hw2 & Hok2 & Hc2);
      [assumption | exact Hs | subst o1; cbn [mem_len set_printed set_mem]; lia | now left |].
    cbv zeta in Hw2, Hok2, Hc2.
    destruct (memory_write true out (a ++ b) w) as (p3 & s3 & Hw3 & Hok3 & Hc3);
      [assumption | assumption | rewrite len_app; lia | now left |].
    cbv zeta in Hw3, Hok3, Hc3.
    eexists. eexists. eexists.
    split; [exact Hw1|]. split; [exact Hw2|]. split; [exact Hw3|].
    split; [|split].
    + rewrite Hc2, Hc1, Hc3. now rewrite app_assoc.
    + subst o1. cbn [mem_len set_printed set_mem]. rewrite len_app. lia.
    + subst o1. cbn [printed set_printed set_mem]. rewrite len_app. apply size_t_add_assoc.
  - intros Hh Hok Hfit.
    destruct (buffered_write out a w) as (p1 & s1 & Hw1 & Hok1 & Hc1);
      [assumption | assumption | assumption | lia |].
    set (o1 := set_buffer p1 _ s1 out) in *.
    destruct (buffered_write o1 b w) as (p2 & s2 & Hw2 & Hok2 & Hc2);
      [exact Hs | exact Hh | assumption | subst o1; cbn [buf_len set_buffer]; lia |].
    destruct (buffered_write out (a ++ b) w) as (p3 & s3 & Hw3 & Hok3 & Hc3);
      [assumption | assumption | assumption | rewrite len_app; lia |].
    eexists. eexists. eexists.
    split; [exact Hw1|]. split; [exact Hw2|]. split; [exact Hw3|].
    split; [|split].
    + rewrite Hc2, Hc1, Hc3. now rewrite app_assoc.
    + subst o1. cbn [buf_len set_buffer]. rewrite len_app. lia.
    + reflexivity.
Qed.

(** The theorem at the fresh memory sink: "abc" then "xyz" leave what
    "abcxyz" leaves. *)
Lemma raw_writes_compose_witness :
  exists o1 o2 o12,
    lyp_write true memory_sink (bytes "abc") (answers []) = Done (LY_SUCCESS, o1, answers []) /\
    lyp_write true o1 (bytes "xyz") (answers []) = Done (LY_SUCCESS, o2, answers []) /\
    lyp_write true memory_sink (bytes "abc" ++ bytes "xyz") (answers [])
      = Done (LY_SUCCESS, o12, answers []) /\
    mem_content o2 = mem_content o12 /\ mem_len o2 = mem_len o12 /\
    printed o2 = printed o12.
Proof.
  apply (proj1 (raw_writes_compose memory_sink (bytes "abc") (bytes "xyz") (answers [])
                  eq_refl)).
  - split; [reflexivity|]. split; [reflexivity|].
    exists Null. split; [reflexivity|]. split; [discriminate|].
    cbn. split; unfold SIZE_MOD; lia.
  - reflexivity.
Defined.

(** ** Formatted and raw writes to a memory sink *)

(** X6: on a memory sink a formatted write whose text renders is the raw
    write of the rendered bytes: same return value, same sink, same
    world, undefined in the same cases, as long as the allocator serves
    the request or the buffer has room.  (Only when the buffer must grow
    and cannot do the two differ.) *)
Theorem formatted_is_raw_on_memory (v ok : bool) (out : lyp_out) (msg : list byte) (w : world) :
  type out = LYP_OUT_MEMORY -> hole_count out = 0 ->
  (Z.of_nat (length msg) <= INT_MAX)%Z ->
  ok = true \/ size_t_add (size_t_add (mem_len out) (len msg)) 1 <= mem_size out ->
  lyp_print v true ok out msg w = lyp_write ok out (map Val msg) w.
Proof.
  intros Hty Hh Hint Hok. unfold lyp_print, lyp_write.
  destruct (LYOUT_CHECK out); [reflexivity|].
  rewrite Hty, Hh. cbn [N.eqb negb andb].
  destruct (Z.leb_spec (Z.of_nat (length msg)) INT_MAX); [|lia].
  destruct (Z.ltb_spec (Z.of_nat (length msg)) 0); [lia|].
  replace (Z.to_N (Z.of_nat (length msg))) with (len msg) by (unfold len; lia).
  replace (len (map Val msg)) with (len msg) by list_len.
  destruct (mem_buf out) as [p|]; [|reflexivity].
  destruct (N.ltb_spec (mem_size out) (size_t_add (size_t_add (mem_len out) (len msg)) 1))
    as [Hgrow|Hroom]; [|reflexivity].
  destruct Hok as [-> | Hroom]; [|lia].
  destruct p; reflexivity.
Qed.

(** The theorem at the fresh memory sink and the text "abc". *)
Lemma formatted_is_raw_on_memory_witness :
  lyp_print true true true memory_sink (str "abc") (answers [])
    = lyp_write true memory_sink (map Val (str "abc")) (answers []).
Proof.
  apply formatted_is_raw_on_memory.
  - reflexivity.
  - reflexivity.
  - unfold INT_MAX. simpl. lia.
  - now left.
Defined.

(** X7: a formatted write to a memory sink whose buffer must grow and
    cannot returns the memory error without setting the sticky status,
    and stores the null pointer in [out->method.mem.buf] itself (the
    address of the caller's pointer, not the pointer).  The sink is left
    open to every call, and the calls that read the caller's pointer read
    through the null address and are undefined: the raw write, the
    formatted write of a text that renders, the reservation of one byte
    or more, the backfill and the query of the buffer.  The reservation
    of no byte does not grow the buffer and so does not read the pointer:
    it returns success with the position 0 and leaves the sink as it
    is, the null address included. *)
Theorem formatted_growth_failure_poisons (v : bool) (out : lyp_out) (msg : list byte)
    (w : world) (p : ptr) :
  status out = LY_SUCCESS -> type out = LYP_OUT_MEMORY -> hole_count out = 0 ->
  mem_buf out = Some p -> p <> Freed ->
  (Z.of_nat (length msg) <= INT_MAX)%Z ->
  mem_size out < size_t_add (size_t_add (mem_len out) (len msg)) 1 ->
  lyp_print v true false out msg w = Done (LY_EMEM, set_mem None 0 0 out, w) /\
  status (set_mem None 0 0 out) = LY_SUCCESS /\
  (forall ok buf w', lyp_write ok (set_mem None 0 0 out) buf w' = Undefined) /\
  (forall v' ok msg' w',
     (Z.of_nat (length msg') <= INT_MAX)%Z ->
     lyp_print v' true ok (set_mem None 0 0 out) msg' w' = Undefined) /\
  (forall ok count,
     0 < count -> count < SIZE_MOD ->
     ly_write_skip ok (set_mem None 0 0 out) count = Undefined) /\
  (forall ok,
     exists out',
       ly_write_skip ok (set_mem None 0 0 out) 0 = Done (LY_SUCCESS, Some 0, out') /\
       mem_buf out' = None /\ mem_len out' = 0 /\ mem_size out' = 0 /\
       status out' = LY_SUCCESS) /\
  (forall position buf w', ly_write_skipped (set_mem None 0 0 out) position buf w' = Undefined) /\
  (forall strp size, lyp_memory (set_mem None 0 0 out) strp size = Undefined).
Proof.
  intros Hs Hty Hh Hbuf Hp Hint Hgrow.
  assert (Hc : LYOUT_CHECK (set_mem None 0 0 out) = false) by now apply LYOUT_CHECK_clear.
  split; [|split; [exact Hs|split; [|split; [|split; [|split; [|split]]]]]].
  - unfold lyp_print. rewrite (LYOUT_CHECK_clear _ Hs), Hty, Hbuf. cbn [andb].
    destruct (Z.leb_spec (Z.of_nat (length msg)) INT_MAX); [|lia].
    destruct (Z.ltb_spec (Z.of_nat (length msg)) 0); [lia|].
    replace (Z.to_N (Z.of_nat (length msg))) with (len msg) by (unfold len; lia).
    apply N.ltb_lt in Hgrow. rewrite Hgrow.
    destruct p; [reflexivity | reflexivity | contradiction].
  - intros ok buf w'. unfold lyp_write. rewrite Hc.
    cbn [hole_count type mem_buf set_mem]. rewrite Hh, Hty. reflexivity.
  - intros v' ok msg' w' Hint'. unfold lyp_print. rewrite Hc.
    cbn [type mem_buf set_mem]. rewrite Hty. cbn [andb].
    destruct (Z.leb_spec (Z.of_nat (length msg')) INT_MAX); [|lia].
    destruct (Z.ltb_spec (Z.of_nat (length msg')) 0); [lia|]. reflexivity.
  - intros ok count Hpos Hfit. unfold ly_write_skip. rewrite Hc.
    cbn [type mem_buf mem_len mem_size set_mem]. rewrite Hty.
    rewrite size_t_add_small by lia.
    destruct (N.ltb_spec 0 (0 + count)); [reflexivity | lia].
  - intros ok. unfold ly_write_skip. rewrite Hc.
    cbn [type mem_buf mem_len mem_size set_mem]. rewrite Hty.
    eexists. split; [reflexivity|]. cbn. auto.
  - intros position buf w'. unfold ly_write_skipped. rewrite Hc.
    cbn [type mem_buf set_mem]. rewrite Hty. reflexivity.
  - intros strp size. unfold lyp_memory. cbn [type mem_buf set_mem]. rewrite Hty. reflexivity.
Qed.

(** The theorem at the fresh memory sink: the formatted write of "abc"
    fails for want of memory, and the raw write of "xyz" that follows is
    undefined. *)
Lemma formatted_growth_failure_poisons_witness :
  lyp_print true true false memory_sink (str "abc") (answers [])
    = Done (LY_EMEM, set_mem None 0 0 memory_sink, answers []) /\
  lyp_write true (set_mem None 0 0 memory_sink) (bytes "xyz") (answers []) = Undefined.
Proof.
  destruct (formatted_growth_failure_poisons true memory_sink (str "abc") (answers []) Null)
    as (H1 & _ & H2 & _);
    [reflexivity | reflexivity | reflexivity | reflexivity | discriminate
     | unfold INT_MAX; simpl; lia | reflexivity |].
  split; [exact H1 | apply H2].
Defined.

(** ** Allocation failure on a memory sink *)

(** X8: when the buffer of a memory sink must grow and cannot, the raw
    write returns the memory error, drops the content (the caller's
    pointer is null, length and size are zero) and leaves the sticky
    status clear and the printed counter as it was: the next raw write
    that is served succeeds, the sink then holds its bytes alone and the
    counter has gone on from the old value.  The reservation in the same
    position returns the memory error too but stores the system error as
    sticky status, which is what every later call returns. *)
Theorem raw_growth_failure_is_not_sticky (out : lyp_out) (w : world) :
  status out = LY_SUCCESS -> memory_ok out ->
  (forall buf,
     mem_size out < size_t_add (size_t_add (mem_len out) (len buf)) 1 ->
     lyp_write false out buf w = Done (LY_EMEM, set_mem (Some Null) 0 0 out, w) /\
     status (set_mem (Some Null) 0 0 out) = LY_SUCCESS /\
     printed (set_mem (Some Null) 0 0 out) = printed out /\
     forall buf' w', len buf' + 1 < SIZE_MOD ->
       exists o', lyp_write true (set_mem (Some Null) 0 0 out) buf' w'
                    = Done (LY_SUCCESS, o', w') /\
                  mem_content o' = buf' /\
                  printed o' = size_t_add (printed out) (len buf')) /\
  (forall count,
     mem_size out < size_t_add (mem_len out) count ->
     ly_write_skip false out count
       = Done (LY_EMEM, None, set_status LY_ESYS (set_mem (Some Null) 0 0 out)) /\
     forall ok buf' w',
       lyp_write ok (set_status LY_ESYS (set_mem (Some Null) 0 0 out)) buf' w'
         = Done (LY_ESYS, set_status LY_ESYS (set_mem (Some Null) 0 0 out), w')).
Proof.
  intros Hs (Hty & Hh & p & Hbuf & Hp & Hsz & Hle). split.
  - intros buf Hgrow. split; [|split; [exact Hs|split; [reflexivity|]]].
    + unfold lyp_write. rewrite (LYOUT_CHECK_clear _ Hs), Hh, Hty, Hbuf. cbn [N.eqb negb].
      apply N.ltb_lt in Hgrow. rewrite Hgrow.
      destruct p; [reflexivity | reflexivity | contradiction].
    + intros buf' w' Hfit.
      destruct (memory_write true (set_mem (Some Null) 0 0 out) buf' w')
        as (p' & s' & Hw & _ & Hc);
        [ | exact Hs | cbn [mem_len set_mem]; lia | now left | ].
      { split; [exact Hty|]. split; [exact Hh|].
        exists Null. split; [reflexivity|]. split; [discriminate|].
        cbn. split; unfold SIZE_MOD; lia. }
      cbv zeta in Hw, Hc. eexists. split; [exact Hw|]. split; [exact Hc | reflexivity].
  - intros count Hgrow. split.
    + unfold ly_write_skip. rewrite (LYOUT_CHECK_clear _ Hs), Hty, Hbuf.
      apply N.ltb_lt in Hgrow. rewrite Hgrow.
      destruct p; [reflexivity | reflexivity | contradiction].
    + intros ok buf' w'. unfold lyp_write. rewrite LYOUT_CHECK_set by discriminate.
      reflexivity.
Qed.

(** The theorem at the fresh memory sink: the raw write of "abc" fails
    for want of memory, the raw write of "xyz" that follows succeeds. *)
Lemma raw_growth_failure_is_not_sticky_witness :
  lyp_write false memory_sink (bytes "abc") (answers [])
    = Done (LY_EMEM, set_mem (Some Null) 0 0 memory_sink, answers []) /\
  exists o', lyp_write true (set_mem (Some Null) 0 0 memory_sink) (bytes "xyz") (answers [])
               = Done (LY_SUCCESS, o', answers []) /\
             mem_content o' = bytes "xyz" /\
             printed o' = size_t_add (printed memory_sink) (len (bytes "xyz")).
Proof.
  destruct (proj1 (raw_growth_failure_is_not_sticky memory_sink (answers []) eq_refl
                     (conj eq_refl (conj eq_refl
                        (ex_intro _ Null (conj eq_refl (conj (fun E => eq_ind Null
                           (fun q => match q with Freed => False | _ => True end) I Freed E)
                           (conj (N.le_refl 0) (N.le_refl 0))))))))
             (bytes "abc") eq_refl) as (H1 & _ & _ & H2).
  split; [exact H1|]. apply H2. reflexivity.
Defined.

(** ** The hole buffer after a flush *)

(** X9: the flush releases the block of the hole buffer and keeps the
    pointer.  On a sink whose hole buffer is allocated the flush returns
    and leaves a released pointer with length and size zero; from then on
    a second flush releases the block again, a raw write of at least one
    byte made while a hole is counted and a reservation of at least one
    byte hand the released pointer to the allocator: all three are
    undefined.  A sink whose hole buffer was never allocated can be
    flushed any number of times. *)
Theorem flush_keeps_released_pointer (out : lyp_out) :
  (forall cells, buffered out = Block cells ->
     ly_print_flush out = Done (set_buffer Freed 0 0 out) /\
     ly_print_flush (set_buffer Freed 0 0 out) = Undefined /\
     (status out = LY_SUCCESS ->
      (forall ok buf w,
         hole_count out <> 0 -> buf <> [] -> len buf < SIZE_MOD ->
         lyp_write ok (set_buffer Freed 0 0 out) buf w = Undefined) /\
      (forall ok count,
         has_target (type out) = true -> 0 < count -> count < SIZE_MOD ->
         ly_write_skip ok (set_buffer Freed 0 0 out) count = Undefined))) /\
  (buffered out = Null ->
     ly_print_flush out = Done (set_buffer Null 0 0 out) /\
     ly_print_flush (set_buffer Null 0 0 out) = Done (set_buffer Null 0 0 out)).
Proof.
  split.
  - intros cells Hb. split; [|split; [reflexivity|]].
    + unfold ly_print_flush. rewrite Hb. reflexivity.
    + intros Hs. split.
      * intros ok buf w Hh Hbuf Hfit. unfold lyp_write.
        rewrite LYOUT_CHECK_clear by exact Hs.
        cbn [hole_count buf_len buf_size buffered set_buffer].
        destruct (N.eqb_spec (hole_count out) 0); [contradiction|]. cbn [negb].
        rewrite size_t_add_small by (simpl; lia).
        destruct (N.ltb_spec 0 (0 + len buf)) as [_|Hz]; [reflexivity|].
        exfalso. apply Hbuf. apply len_nil_inv. lia.
      * intros ok count Ht Hpos Hfit. unfold ly_write_skip.
        rewrite LYOUT_CHECK_clear by exact Hs.
        cbn [type buf_len buf_size buffered set_buffer].
        rewrite size_t_add_small by (simpl; lia).
        destruct (N.ltb_spec 0 (0 + count)) as [_|Hz]; [|lia].
        destruct (type out); try discriminate Ht; reflexivity.
  - intros Hb. split; [|reflexivity].
    unfold ly_print_flush. rewrite Hb. reflexivity.
Qed.

(** The theorem at the callback sink that reserved two bytes: the flush
    leaves the released pointer, and the reservation of one more byte is
    undefined. *)
Lemma flush_keeps_released_pointer_witness :
  ly_print_flush (buffering_sink [Undef; Undef] 1)
    = Done (set_buffer Freed 0 0 (buffering_sink [Undef; Undef] 1)) /\
  ly_write_skip true (set_buffer Freed 0 0 (buffering_sink [Undef; Undef] 1)) 1 = Undefined.
Proof.
  destruct (proj1 (flush_keeps_released_pointer (buffering_sink [Undef; Undef] 1))
              [Undef; Undef] eq_refl) as (H1 & _ & H2).
  split; [exact H1|]. apply (proj2 (H2 eq_refl)); reflexivity.
Defined.

(** ** After a hole context *)

Section Ready.

Variable w0 : world.

Lemma run_single (c : call) (s : caller) (e : LY_ERR) (s' : caller) :
  run [c] s = Done (e, s') -> step c s = Done (e, s').
Proof.
  cbn [run]. destruct (step c s) as [[e1 s1]| |]; try discriminate.
  destruct e1; intros H; injection H as <- <-; reflexivity.
Qed.

(** The calls of a hole context, from a sink whose hole buffer holds the
    sequence so far: when the last backfill returns, no hole is counted
    and the hole buffer is empty and in order. *)
Lemma inside_run_ready (cs : list call) :
  forall next es final o toks,
    inside next es cs = Some final ->
    laid_out toks 0 es (hole_content o) -> length toks = next ->
    hole_count o = N.of_nat (outstanding es) -> outstanding es <> 0%nat ->
    status o = LY_SUCCESS -> has_target (type o) = true ->
    buffer_ok o ->
    buf_len o + volume cs < SIZE_MOD ->
    N.of_nat (outstanding es) + N.of_nat (length cs) < SIZE_MOD ->
    forall e o' w' toks',
      run cs (o, w0, toks) = Done (e, (o', w', toks')) ->
      hole_count o' = 0 /\ buf_len o' = 0 /\ buffer_ok o' /\ type o' = type o /\
      (e = LY_SUCCESS -> status o' = LY_SUCCESS).
Proof.
  induction cs as [|c cs IH];
    intros next es final o toks Hin Hlaid Hnext Hh Hopen Hs Ht Hok Hvol Hcnt e o' w' toks' Hrun.
  - discriminate.
  - assert (Hh0 : hole_count o <> 0) by lia.
    destruct c as [buf | msg | count | hole buf]; simpl in Hin, Hvol, Hcnt;
      [| discriminate Hin | |].
    + (* a raw write *)
      destruct (buffered_write o (map Val buf) w0) as (p & s & Hw & Hok1 & Hc1);
        [assumption | assumption | assumption | list_len |].
      set (o1 := set_buffer p (buf_len o + len (map Val buf)) s o) in *.
      assert (Hstep : step (Write buf) (o, w0, toks) = Done (LY_SUCCESS, (o1, w0, toks)))
        by (simpl; now rewrite Hw).
      rewrite (run_step _ _ _ _ Hstep) in Hrun.
      apply (IH next (es ++ [Bytes buf]) final o1 toks) in Hrun;
        [ exact Hrun
        | first [ assumption
                | rewrite Hc1; apply laid_out_app; [assumption|];
                  rewrite <- (app_nil_r (map Val buf)); constructor; constructor
                | rewrite outstanding_bytes; first [assumption | lia]
                | subst o1; cbn [buf_len set_buffer]; list_len ] .. ].
    + (* a reservation *)
      destruct (reserved o count) as (p & s & junk & Hr & Hok1 & Hc1 & Hj);
        [assumption | assumption | assumption | lia | lia |].
      cbv zeta in Hr, Hok1, Hc1.
      set (o1 := set_hole_count (hole_count o + 1) (set_buffer p (buf_len o + count) s o)) in *.
      assert (Hstep : step (Reserve count) (o, w0, toks)
                      = Done (LY_SUCCESS, (o1, w0, toks ++ [buf_len o])))
        by (simpl; now rewrite Hr).
      assert (Hlaid1 : laid_out (toks ++ [buf_len o]) 0 (es ++ [Hole next count])
                         (hole_content o1)).
      { rewrite Hc1. apply laid_out_app; [now apply laid_out_more_tokens|].
        rewrite <- (app_nil_r junk). constructor; [|assumption|constructor].
        rewrite nth_error_app2 by lia. rewrite <- Hnext, Nat.sub_diag. simpl.
        f_equal. rewrite len_hole_content by assumption. reflexivity. }
      rewrite (run_step _ _ _ _ Hstep) in Hrun.
      apply (IH (S next) (es ++ [Hole next count]) final o1 (toks ++ [buf_len o])) in Hrun;
        [ exact Hrun
        | first [ assumption
                | rewrite length_app; simpl; lia
                | subst o1; cbn [hole_count buf_len set_buffer set_hole_count];
                  rewrite ?outstanding_hole; lia
                | rewrite outstanding_hole; lia ] .. ].
    + (* a backfill *)
      destruct (backfilled hole buf es) as [es'|] eqn:Hb; [|discriminate].
      destruct (laid_out_backfilled _ _ _ _ Hlaid _ _ _ Hb)
        as (pre & old & post & Hc & Ho & Htok & Hl').
      pose proof (outstanding_backfilled _ _ _ _ Hb) as Hout.
      destruct (backfilled_hole o (map Val buf) pre old post w0) as (p & Hok1 & Hc1 & Hsk);
        [assumption | assumption | assumption | assumption | assumption | lia | lia |].
      cbv zeta in Hok1, Hc1, Hsk.
      set (o1 := set_hole_count (hole_count o - 1) (set_buffer p (buf_len o) (buf_size o) o)) in *.
      simpl in Htok.
      destruct (Nat.eqb_spec (outstanding es') 0) as [Hz|Hnz].
      * (* the last hole is retired *)
        destruct cs; [|discriminate].
        destruct (N.eqb_spec (hole_count o) 1) as [H1|H1]; [|lia].
        apply run_single in Hrun. simpl in Hrun. rewrite Htok, Hsk in Hrun.
        destruct (lyp_write_repeat o1 (pre ++ map Val buf ++ post) (pending w0) (calls w0))
          as [[[ret out2] w2]| |] eqn:Hrep; try discriminate.
        injection Hrun as <- <- _ _.
        pose proof (lyp_write_repeat_keeps _ _ _ _ _ _ _ Hrep) as (Hb2 & Hh2 & Hl2 & Hs2 & Ht2).
        destruct Hok1 as (Hp1 & Hsz1 & Hle1 & Hfit1).
        cbn [hole_count buf_len type set_buffer].
        split; [rewrite Hh2; subst o1; cbn [hole_count set_hole_count]; lia|].
        split; [reflexivity|]. split; [|split; [exact Ht2|]].
        -- apply buffer_ok_set; try congruence; try lia.
        -- intros ->. clear - Hrep Hs.
           assert (Hs1 : status o1 = LY_SUCCESS) by exact Hs.
           revert Hrep. generalize (calls w0). generalize (pending w0).
           intros rs. induction rs as [|r rs IHrs]; intros cs0 Hrep; [discriminate|].
           cbn [lyp_write_repeat] in Hrep.
           destruct (lyp_write_check o1 _ r) as [[e1 o2]|] eqn:Hchk; [|now apply (IHrs _ Hrep)].
           injection Hrep as -> -> _. unfold lyp_write_check in Hchk.
           split_cases Hchk; try discriminate Hchk; injection Hchk as <-; exact Hs1.
      * destruct (N.eqb_spec (hole_count o) 1) as [H1|_]; [lia|].
        assert (Hstep : step (Backfill hole buf) (o, w0, toks) = Done (LY_SUCCESS, (o1, w0, toks)))
          by (simpl; now rewrite Htok, Hsk).
        rewrite (run_step _ _ _ _ Hstep) in Hrun.
        apply (IH next es' final o1 toks) in Hrun;
          [ exact Hrun
          | first [ assumption
                  | now rewrite Hc1
                  | subst o1; cbn [hole_count buf_len set_buffer set_hole_count]; lia
                  | lia ] .. ].
Qed.

End Ready.

(** X10: a hole context leaves the sink ready for the next one.  On a
    sink with a target, with no hole counted and an empty hole buffer in
    order, take the calls of a hole context (from the reservation that
    opens the first hole to the backfill that retires the last one).
    However the target answers the last backfill, when the calls return
    the sink has no hole counted, its hole buffer is empty and in order
    and its type is the same, and when they return success its status
    is clear: the conditions the context started from.  With a target
    that accepts the bytes the calls do return success. *)
Theorem hole_context_leaves_sink_ready (out : lyp_out) (w : world) (cs : list call)
    (final : list entry) :
  status out = LY_SUCCESS -> has_target (type out) = true ->
  hole_count out = 0 -> buf_len out = 0 -> buffer_ok out ->
  hole_context cs = Some final ->
  volume cs < SIZE_MOD -> N.of_nat (length cs) < SIZE_MOD ->
  (forall e out' w' toks',
     run cs (out, w, []) = Done (e, (out', w', toks')) ->
     hole_count out' = 0 /\ buf_len out' = 0 /\ buffer_ok out' /\ type out' = type out /\
     (e = LY_SUCCESS -> status out' = LY_SUCCESS)) /\
  (forall rs, pending w = accepted (Z.of_N (len (resolved final))) :: rs ->
     exists out' toks',
       run cs (out, w, [])
         = Done (LY_SUCCESS,
                 (out', {| pending := rs; calls := calls w ++ [map Val (resolved final)] |},
                  toks')) /\
       status out' = LY_SUCCESS /\ hole_count out' = 0 /\ buf_len out' = 0 /\
       buffer_ok out').
Proof.
  intros Hs Ht Hh Hl Hok Hctx Hvol Hcnt.
  destruct cs as [|[buf | msg | count | hole buf] cs]; try discriminate.
  simpl in Hctx, Hvol. cbn [length] in Hcnt.
  destruct (reserved out count) as (p & s & junk & Hr & Hok1 & Hc1 & Hj);
    [assumption | assumption | assumption | lia | rewrite Hh; unfold SIZE_MOD; lia |].
  cbv zeta in Hr, Hok1, Hc1.
  set (o1 := set_hole_count (hole_count out + 1) (set_buffer p (buf_len out + count) s out)) in *.
  assert (Hstep : step (Reserve count) (out, w, []) = Done (LY_SUCCESS, (o1, w, [buf_len out])))
    by (simpl; now rewrite Hr).
  assert (Hempty : hole_content out = []) by (unfold hole_content; now rewrite Hl).
  assert (Hlaid1 : laid_out [buf_len out] 0 [Hole 0 count] (hole_content o1)).
  { rewrite Hc1, Hempty. simpl. rewrite <- (app_nil_r junk).
    constructor; [now rewrite Hl | assumption | constructor]. }
  assert (Hready : forall e out' w' toks',
             run (Reserve count :: cs) (out, w, []) = Done (e, (out', w', toks')) ->
             hole_count out' = 0 /\ buf_len out' = 0 /\ buffer_ok out' /\
             type out' = type out /\ (e = LY_SUCCESS -> status out' = LY_SUCCESS)).
  { intros e out' w' toks' Hrun. rewrite (run_step _ _ _ _ Hstep) in Hrun.
    apply (inside_run_ready w cs 1%nat [Hole 0 count] final o1 [buf_len out]) in Hrun;
      [ exact Hrun
      | first [ assumption | reflexivity
              | subst o1; cbn [hole_count buf_len set_buffer set_hole_count];
                unfold outstanding; cbn [filter length]; list_len ] .. ]. }
  split; [exact Hready|].
  intros rs Hrs.
  destruct (inside_run out w Ht cs 1%nat [Hole 0 count] final o1 [buf_len out])
    as [_ Hobs];
    [ first [ assumption | reflexivity
            | subst o1; cbn [hole_count buf_len set_buffer set_hole_count];
              unfold outstanding; cbn [filter length]; list_len ] .. | ].
  rewrite <- (run_step _ _ _ _ Hstep) in Hobs. rewrite Hrs in Hobs.
  cbn [lyp_write_repeat] in Hobs. unfold lyp_write_check, accepted in Hobs.
  cbn [written] in Hobs.
  destruct (Z.ltb_spec (Z.of_N (len (resolved final))) 0); [lia|].
  rewrite N2Z.id in Hobs.
  replace (len (map Val (resolved final))) with (len (resolved final)) in Hobs by list_len.
  rewrite N.eqb_refl in Hobs. cbn [negb observe] in Hobs.
  destruct (run (Reserve count :: cs) (out, w, [])) as [[e [[out' w'] toks']]| |] eqn:Hrun;
    try discriminate Hobs.
  cbn [observe_run] in Hobs. injection Hobs as -> _ _ ->.
  destruct (Hready _ _ _ _ eq_refl) as (H1 & H2 & H3 & _ & H5).
  exists out', toks'. split; [reflexivity|]. auto.
Qed.

(** The theorem at the callback sink: after the reservation of two
    bytes, the raw write of "abc" and the backfill with "Z!", accepted
    by the callback, the sink is ready. *)
Lemma hole_context_leaves_sink_ready_witness :
  exists out' toks',
    run [Reserve 2; Write (str "abc"); Backfill 0 (str "Z!")]
        (callback_sink, answers [accepted 5], [])
      = Done (LY_SUCCESS,
              (out', {| pending := []; calls := [] ++ [map Val (str "Z!abc")] |}, toks')) /\
    status out' = LY_SUCCESS /\ hole_count out' = 0 /\ buf_len out' = 0 /\ buffer_ok out'.
Proof.
  apply (proj2 (hole_context_leaves_sink_ready callback_sink (answers [accepted 5])
                  [Reserve 2; Write (str "abc"); Backfill 0 (str "Z!")]
                  [Bytes (str "Z!"); Bytes (str "abc")]
                  eq_refl eq_refl eq_refl eq_refl (zeroed_buffer_ok LYP_OUT_CALLBACK)
                  eq_refl eq_refl eq_refl) []).
  reflexivity.
Defined.

(** ** Writes without holes *)

(** X11: on a sink with a target and no hole counted, a sequence of raw
    and formatted writes whose bytes the target accepts call by call
    succeeds, hands the target the bytes of each write in one call of its
    own, in order, and leaves the printed counter at the old value plus
    the total (as a [size_t]); status, hole counter and hole buffer stay
    as they were. *)
Theorem writes_reach_target_in_order (cs : list call) :
  forall (out : lyp_out) (w : world) (toks : list N) (rest : list response),
    status out = LY_SUCCESS -> hole_count out = 0 -> has_target (type out) = true ->
    printed out < SIZE_MOD ->
    writes_only cs = true ->
    Forall (fun c => (Z.of_N (len (payload c)) <= INT_MAX)%Z) cs ->
    pending w = map (fun c => accepted (Z.of_N (len (payload c)))) cs ++ rest ->
    exists out',
      run cs (out, w, toks)
        = Done (LY_SUCCESS,
                (out', {| pending := rest;
                          calls := calls w ++ map (fun c => map Val (payload c)) cs |}, toks)) /\
      printed out' = (printed out + volume cs) mod SIZE_MOD /\
      status out' = LY_SUCCESS /\ hole_count out' = 0 /\ type out' = type out /\
      buffered out' = buffered out /\ buf_len out' = buf_len out.
Proof.
  induction cs as [|c cs IH]; intros out w toks rest Hs Hh Ht Hp Hcs Hint Hpend.
  - simpl in Hpend. exists out. simpl. rewrite app_nil_r, N.add_0_r, N.mod_small by assumption.
    destruct w as [pw cw]. simpl in Hpend |- *. subst pw. auto 10.
  - simpl in Hcs. apply andb_prop in Hcs as [Hc Hcs].
    inversion Hint as [|c0 cs0 Hlen Hint' E]; subst c0 cs0.
    cbn [map app] in Hpend.
    assert (Hnext : forall o1,
              printed o1 = size_t_add (printed out) (len (payload c)) ->
              status o1 = LY_SUCCESS -> hole_count o1 = 0 -> type o1 = type out ->
              buffered o1 = buffered out -> buf_len o1 = buf_len out ->
              step c (out, w, toks)
                = Done (LY_SUCCESS,
                        (o1, {| pending := map (fun c => accepted (Z.of_N (len (payload c)))) cs
                                           ++ rest;
                                calls := calls w ++ [map Val (payload c)] |}, toks)) ->
              exists out',
                run (c :: cs) (out, w, toks)
                  = Done (LY_SUCCESS,
                          (out', {| pending := rest;
                                    calls := calls w
                                             ++ map (fun c => map Val (payload c)) (c :: cs) |},
                           toks)) /\
                printed out' = (printed out + volume (c :: cs)) mod SIZE_MOD /\
                status out' = LY_SUCCESS /\ hole_count out' = 0 /\ type out' = type out /\
                buffered out' = buffered out /\ buf_len out' = buf_len out).
    { intros o1 Hp1 Hs1 Hh1 Ht1 Hb1 Hl1 Hstep.
      destruct (IH o1 {| pending := map (fun c => accepted (Z.of_N (len (payload c)))) cs ++ rest;
                         calls := calls w ++ [map Val (payload c)] |} toks rest)
        as (out' & Hrun & Hp' & Hs' & Hh' & Ht' & Hb' & Hl');
        [ assumption | assumption | now rewrite Ht1
        | rewrite Hp1; apply size_t_add_fits | assumption | assumption | reflexivity | ].
      exists out'. rewrite (run_step _ _ _ _ Hstep), Hrun. cbn [pending calls map].
      rewrite <- app_assoc. split; [reflexivity|].
      split; [|split; [assumption|split; [assumption|split; [congruence|split; congruence]]]].
      rewrite Hp', Hp1. unfold size_t_add. rewrite N.Div0.add_mod_idemp_l. f_equal.
      assert (Hv : volume (c :: cs) = len (payload c) + volume cs)
        by (destruct c; try discriminate Hc; reflexivity).
      rewrite Hv. lia. }
    assert (Hacc : forall n : N, (Z.of_N n <? 0)%Z = false) by (intros n; apply Z.ltb_ge; lia).
    destruct c as [buf | msg | count | hole buf]; try discriminate Hc; cbn [payload] in *.
    + apply (Hnext (set_printed (size_t_add (printed out) (len buf)) out));
        try reflexivity; try assumption.
      cbn [step]. rewrite lyp_write_direct by assumption. rewrite Hpend.
      cbn [lyp_write_repeat]. unfold lyp_write_check, accepted. cbn [written].
      rewrite Hacc, N2Z.id.
      replace (len (map Val buf)) with (len buf) by list_len.
      rewrite N.eqb_refl. reflexivity.
    + apply (Hnext (set_printed (size_t_add (printed out) (len msg)) out));
        try reflexivity; try assumption.
      cbn [step]. unfold lyp_print. rewrite (LYOUT_CHECK_clear _ Hs), Hpend.
      cbn [andb]. unfold accepted. cbn [written].
      replace (Z.of_nat (length msg)) with (Z.of_N (len msg)) by (unfold len; lia).
      destruct (Z.leb_spec (Z.of_N (len msg)) INT_MAX); [|lia].
      rewrite Hacc, N2Z.id.
      destruct (type out); try discriminate Ht; reflexivity.
Qed.

(** The theorem at the callback sink: the raw write of "abc" and the
    formatted write of "xyz" reach the callback as two calls. *)
Lemma writes_reach_target_in_order_witness :
  exists out',
    run [Write (str "abc"); Print (str "xyz")]
        (callback_sink, answers [accepted 3; accepted 3], [])
      = Done (LY_SUCCESS,
              (out', {| pending := [];
                        calls := calls (answers [accepted 3; accepted 3])
                                 ++ map (fun c => map Val (payload c))
                                      [Write (str "abc"); Print (str "xyz")] |}, [])) /\
    printed out' = (printed callback_sink
                    + volume [Write (str "abc"); Print (str "xyz")]) mod SIZE_MOD /\
    status out' = LY_SUCCESS /\ hole_count out' = 0 /\ type out' = type callback_sink /\
    buffered out' = buffered callback_sink /\ buf_len out' = buf_len callback_sink.
Proof.
  apply (writes_reach_target_in_order [Write (str "abc"); Print (str "xyz")]
           callback_sink (answers [accepted 3; accepted 3]) [] []);
    try reflexivity.
  repeat constructor; unfold INT_MAX; simpl; lia.
Defined.

(** * The target of a sink *)

(** ** Query and replacement *)

(** X12: [lyp_memory].  A query (null [strp]) returns the caller's
    current pointer and changes nothing.  A replacement returns the
    pointer the sink has written through, with everything written, and
    binds the sink to the new pointer exactly as [lyp_new_memory] binds a
    fresh sink (same pointer, length zero, same size), with the printed
    counter at zero; the sticky status and the hole state are not
    touched, so a sink whose status is set still refuses every write
    after the replacement.  On a sink whose status is clear, bound to a
    pointer that is null or has the [size] cells announced, a raw write
    then succeeds and leaves its bytes as the content and their number as
    the printed counter.  A sink of another type, whatever its state,
    answers with the null pointer and is left alone. *)
Theorem memory_rebinding (out : lyp_out) :
  (forall p,
   type out = LYP_OUT_MEMORY -> mem_buf out = Some p ->
   (forall size, lyp_memory out None size = Done (p, out)) /\
   (forall q size fresh,
      lyp_new_memory true q size = Some fresh ->
      exists out',
        lyp_memory out (Some q) size = Done (p, out') /\
        mem_buf out' = mem_buf fresh /\ mem_len out' = 0 /\ mem_size out' = mem_size fresh /\
        printed out' = 0 /\ type out' = LYP_OUT_MEMORY /\
        status out' = status out /\ hole_count out' = hole_count out /\
        buffered out' = buffered out /\
        (status out <> LY_SUCCESS ->
         forall ok buf w, lyp_write ok out' buf w = Done (status out, out', w)) /\
        (status out = LY_SUCCESS -> hole_count out = 0 ->
         q <> Freed -> size <= len (cells_of q) ->
         forall buf w, len buf + 1 < SIZE_MOD ->
           exists o2, lyp_write true out' buf w = Done (LY_SUCCESS, o2, w) /\
                      mem_content o2 = buf /\ printed o2 = len buf))) /\
  (type out <> LYP_OUT_MEMORY ->
   forall strp size, lyp_memory out strp size = Done (Null, out)).
Proof.
  split.
  - intros p Hty Hbuf. split.
    + intros size. unfold lyp_memory. rewrite Hty, Hbuf. reflexivity.
    + intros q size fresh Hnew. unfold lyp_new_memory in Hnew. injection Hnew as <-.
      unfold lyp_memory. rewrite Hty, Hbuf. cbn [LYP_OUT_TYPE_eqb LY_CHECK_ARG_RET].
      eexists. split; [reflexivity|].
      assert (Hfields :
                forall o, o = (if size =? 0
                               then set_mem (Some Null) 0 0
                                      (set_printed 0 (set_mem (Some q) 0 0 out))
                               else match q with
                                    | Null => set_printed 0 (set_mem (Some q) 0 0 out)
                                    | _ => set_mem (Some q) 0 size
                                             (set_printed 0 (set_mem (Some q) 0 0 out))
                                    end) ->
                  mem_len o = 0 /\ printed o = 0 /\ type o = LYP_OUT_MEMORY /\
                  status o = status out /\ hole_count o = hole_count out /\
                  buffered o = buffered out).
      { intros o ->. destruct (size =? 0); [|destruct q]; cbn; auto 10. }
      destruct (Hfields _ eq_refl) as (Hl & Hp & Ht & Hs & Hh & Hb).
      split; [destruct (size =? 0); [|destruct q]; reflexivity|].
      split; [exact Hl|].
      split; [destruct (size =? 0); [|destruct q]; reflexivity|].
      split; [exact Hp|]. split; [exact Ht|]. split; [exact Hs|].
      split; [exact Hh|]. split; [exact Hb|]. split.
      * intros Hfail ok buf w. unfold lyp_write.
        rewrite LYOUT_CHECK_set by now rewrite Hs. now rewrite Hs.
      * intros Hclear Hh0 Hq Hsize buf w Hfit.
        set (o := if size =? 0 then _ else _) in *.
        assert (Hok : memory_ok o).
        { split; [exact Ht|]. split; [congruence|]. subst o.
          destruct (size =? 0).
          - exists Null. cbn. repeat split; try discriminate; lia.
          - destruct q as [|cells|]; [| |contradiction].
            + exists Null. cbn. repeat split; try discriminate; lia.
            + exists (Block cells). cbn. repeat split; try discriminate; try lia.
              exact Hsize. }
        destruct (memory_write true o buf w) as (p' & s' & Hw & _ & Hc);
          [assumption | congruence | rewrite Hl; lia | now left |].
        cbv zeta in Hw, Hc. eexists. split; [exact Hw|]. split.
        -- rewrite Hc. unfold mem_content.
           destruct (mem_buf o); [rewrite Hl|]; reflexivity.
        -- cbn [printed set_printed]. rewrite Hp. apply size_t_add_small. simpl. lia.
  - intros Hty strp size. unfold lyp_memory.
    destruct (type out); try contradiction; reflexivity.
Qed.

(** The theorem at the memory sink that holds "abc": the replacement by
    a null pointer returns the block with "abc" and its terminator, and
    the raw write of "xyz" then leaves "xyz" alone; and at the callback
    sink [lyp_new_clb] returns: the null pointer, the sink as it was. *)
Lemma memory_rebinding_witness :
  (exists out',
     lyp_memory (memory_holding (bytes "abc" ++ [Val x00]) 3) (Some Null) 0
       = Done (Block (bytes "abc" ++ [Val x00]), out') /\
     exists o2, lyp_write true out' (bytes "xyz") (answers []) = Done (LY_SUCCESS, o2, answers []) /\
                mem_content o2 = bytes "xyz" /\ printed o2 = len (bytes "xyz")) /\
  lyp_memory callback_sink (Some Null) 0 = Done (Null, callback_sink).
Proof.
  split.
  - destruct (proj2 (proj1 (memory_rebinding (memory_holding (bytes "abc" ++ [Val x00]) 3))
                       (Block (bytes "abc" ++ [Val x00])) eq_refl eq_refl)
                Null 0 _ eq_refl)
      as (out' & H1 & _ & _ & _ & _ & _ & _ & _ & _ & _ & H2).
    exists out'. split; [exact H1|].
    apply H2; try reflexivity; try discriminate.
  - apply (proj2 (memory_rebinding callback_sink)). discriminate.
Defined.

Section TargetQueries.

Import Target.

Variable value : LYP_OUT_TYPE -> Z.

(** X13: query and replacement of the callback, its argument, the stream
    of a stream sink and the descriptor of a descriptor sink.  A
    replacement returns the value that was bound and binds the new one:
    the query that follows returns it; neither touches the state of the
    sink or the other members.  The null pointer (for the descriptor: -1)
    asks for a query and is therefore never bound.  A sink of another
    type answers with the null pointer (-1) and is left alone. *)
Theorem query_returns_replacement (h : handle) :
  (forall c,
     type (sink h) = LYP_OUT_CALLBACK ->
     lyp_clb h (Some c)
       = (clb_func (target h), retarget (set_clb_func (Some c) (target h)) h) /\
     lyp_clb (snd (lyp_clb h (Some c))) None = (Some c, snd (lyp_clb h (Some c))) /\
     lyp_clb h None = (clb_func (target h), h) /\
     fst (lyp_clb_arg (snd (lyp_clb h (Some c))) None) = clb_arg (target h)) /\
  (forall a,
     type (sink h) = LYP_OUT_CALLBACK ->
     lyp_clb_arg h (Some a)
       = (clb_arg (target h), retarget (set_clb_arg (Some a) (target h)) h) /\
     lyp_clb_arg (snd (lyp_clb_arg h (Some a))) None = (Some a, snd (lyp_clb_arg h (Some a))) /\
     lyp_clb_arg h None = (clb_arg (target h), h) /\
     fst (lyp_clb (snd (lyp_clb_arg h (Some a))) None) = clb_func (target h)) /\
  (forall s,
     type (sink h) = LYP_OUT_FILE ->
     lyp_file h (Some s) = (f (target h), retarget (set_f (Some s) (target h)) h) /\
     lyp_file (snd (lyp_file h (Some s))) None = (Some s, snd (lyp_file h (Some s))) /\
     lyp_file h None = (f (target h), h)) /\
  (forall d dup_result fdopen_result,
     type (sink h) = LYP_OUT_FD -> (value LYP_OUT_FD <= value LYP_OUT_FDSTREAM)%Z ->
     d <> (-1)%Z ->
     lyp_fd value dup_result fdopen_result h d
       = Done (fd (target h), retarget (set_fd d (target h)) h, []) /\
     lyp_fd value dup_result fdopen_result (retarget (set_fd d (target h)) h) (-1)
       = Done (d, retarget (set_fd d (target h)) h, []) /\
     lyp_fd value dup_result fdopen_result h (-1) = Done (fd (target h), h, [])) /\
  (forall x, type (sink h) <> LYP_OUT_CALLBACK ->
     lyp_clb h x = (None, h) /\ lyp_clb_arg h x = (None, h)) /\
  (forall x, type (sink h) <> LYP_OUT_FILE -> lyp_file h x = (None, h)) /\
  (forall d dup_result fdopen_result,
     (value LYP_OUT_FDSTREAM < value (type (sink h)))%Z ->
     lyp_fd value dup_result fdopen_result h d = Done ((-1)%Z, h, [])).
Proof.
  split; [|split; [|split; [|split; [|split; [|split]]]]].
  - intros c Hty. unfold lyp_clb, lyp_clb_arg. cbn. rewrite !Hty. cbn. rewrite ?Hty. cbn. auto.
  - intros a Hty. unfold lyp_clb, lyp_clb_arg. cbn. rewrite !Hty. cbn. rewrite ?Hty. cbn. auto.
  - intros s Hty. unfold lyp_file. cbn. rewrite !Hty. cbn. rewrite ?Hty. cbn. auto.
  - intros d dup_result fdopen_result Hty Hle Hd. unfold lyp_fd. cbn [sink retarget target].
    rewrite Hty. apply Z.leb_le in Hle. rewrite Hle. cbn [LY_CHECK_ARG_RET LYP_OUT_TYPE_eqb].
    destruct (Z.eqb_spec d (-1)); [contradiction|]. cbn. auto.
  - intros x Hty. unfold lyp_clb, lyp_clb_arg.
    destruct (type (sink h)); try contradiction; auto.
  - intros x Hty. unfold lyp_file. destruct (type (sink h)); try contradiction; auto.
  - intros d dup_result fdopen_result Hlt. unfold lyp_fd.
    destruct (Z.leb_spec (value (type (sink h))) (value LYP_OUT_FDSTREAM)); [lia|].
    reflexivity.
Qed.

(** X14: the descriptor of a descriptor-stream sink.  [lyp_new_fd]
    (built without [vdprintf]) binds the descriptor it is given and
    opens its stream on a duplicate.  A replacement duplicates the new
    descriptor, opens a stream on the duplicate, closes the old stream
    and returns the bound descriptor, but it binds the duplicate, not the
    descriptor it was given: the query that follows returns the
    duplicate, the next replacement returns it after closing the stream
    that was opened on it, and a release with [destroy] closes that
    stream and then the duplicate again; the descriptor handed in is
    never closed.  When [dup] or [fdopen] fails the replacement returns
    -1 and leaves the sink as it was, the old stream open; after a
    failed [fdopen] the new duplicate is closed. *)
Theorem descriptor_stream_replacement (h : handle) (s0 : FILE) :
  type (sink h) = LYP_OUT_FDSTREAM -> f (target h) = Some s0 ->
  (forall d d1 s1,
     d <> (-1)%Z -> (0 <= d1)%Z ->
     let h1 := retarget (set_fdstream_fd d1 (set_f (Some s1) (target h))) h in
     lyp_fd value d1 (Some s1) h d
       = Done (fdstream_fd (target h), h1,
               [sys_dup d d1; sys_fdopen d1 (Some s1); sys_fclose s0]) /\
     (forall x y, lyp_fd value x y h1 (-1) = Done (d1, h1, [])) /\
     (forall d' d2 s2,
        d' <> (-1)%Z -> (0 <= d2)%Z ->
        exists h2,
          lyp_fd value d2 (Some s2) h1 d'
            = Done (d1, h2, [sys_dup d' d2; sys_fdopen d2 (Some s2); sys_fclose s1])) /\
     (forall destructor,
        lyp_free (Some h1) destructor true
          = Done [sys_fclose s1; sys_close d1; sys_free_handle])) /\
  (forall d d1 fdopen_result,
     d <> (-1)%Z -> (d1 < 0)%Z ->
     lyp_fd value d1 fdopen_result h d = Done ((-1)%Z, h, [sys_dup d d1])) /\
  (forall d d1,
     d <> (-1)%Z -> (0 <= d1)%Z ->
     lyp_fd value d1 None h d
       = Done ((-1)%Z, h, [sys_dup d d1; sys_fdopen d1 None; sys_close d1])) /\
  (forall x y, lyp_fd value x y h (-1) = Done (fdstream_fd (target h), h, [])) /\
  (forall destructor,
     lyp_free (Some h) destructor true
       = Done [sys_fclose s0; sys_close (fdstream_fd (target h)); sys_free_handle]).
Proof.
  intros Hty Hf.
  assert (Hguard : (value LYP_OUT_FDSTREAM <=? value LYP_OUT_FDSTREAM)%Z = true)
    by (apply Z.leb_le; lia).
  assert (Hrepl : forall (g : handle) (old : FILE) d d1 s1,
            type (sink g) = LYP_OUT_FDSTREAM -> f (target g) = Some old ->
            d <> (-1)%Z -> (0 <= d1)%Z ->
            lyp_fd value d1 (Some s1) g d
              = Done (fdstream_fd (target g),
                      retarget (set_fdstream_fd d1 (set_f (Some s1) (target g))) g,
                      [sys_dup d d1; sys_fdopen d1 (Some s1); sys_fclose old])).
  { intros g old d d1 s1 Hg Hold Hd Hd1. unfold lyp_fd. rewrite Hg, Hguard, Hold.
    cbn [LY_CHECK_ARG_RET LYP_OUT_TYPE_eqb].
    destruct (Z.eqb_spec d (-1)); [contradiction|]. cbn [negb].
    destruct (Z.ltb_spec d1 0); [lia|]. reflexivity. }
  assert (Hquery : forall (g : handle) x y,
            type (sink g) = LYP_OUT_FDSTREAM ->
            lyp_fd value x y g (-1) = Done (fdstream_fd (target g), g, [])).
  { intros g x y Hg. unfold lyp_fd. rewrite Hg, Hguard. reflexivity. }
  split; [|split; [|split; [|split]]].
  - intros d d1 s1 Hd Hd1 h1. split; [now apply Hrepl|]. split; [|split].
    + intros x y. now rewrite Hquery.
    + intros d' d2 s2 Hd' Hd2. eexists. now apply Hrepl.
    + intros destructor. unfold lyp_free. subst h1. cbn [sink retarget target]. rewrite Hty.
      reflexivity.
  - intros d d1 fdopen_result Hd Hd1. unfold lyp_fd. rewrite Hty, Hguard.
    cbn [LY_CHECK_ARG_RET LYP_OUT_TYPE_eqb].
    destruct (Z.eqb_spec d (-1)); [contradiction|]. cbn [negb].
    destruct (Z.ltb_spec d1 0); [reflexivity | lia].
  - intros d d1 Hd Hd1. unfold lyp_fd. rewrite Hty, Hguard.
    cbn [LY_CHECK_ARG_RET LYP_OUT_TYPE_eqb].
    destruct (Z.eqb_spec d (-1)); [contradiction|]. cbn [negb].
    destruct (Z.ltb_spec d1 0); [lia | reflexivity].
  - intros x y. now apply Hquery.
  - intros destructor. unfold lyp_free. rewrite Hty, Hf. reflexivity.
Qed.

End TargetQueries.

(** The theorem at a callback sink bound to callback 1 and argument 2:
    the replacement by callback 7 returns 1, the query that follows
    returns 7. *)
Lemma query_returns_replacement_witness :
  Target.lyp_clb {| Target.sink := callback_sink;
                    Target.target := Target.set_clb_arg (Some 2)
                                       (Target.set_clb_func (Some 1) Target.zero) |} (Some 7)
    = (Some 1,
       {| Target.sink := callback_sink;
          Target.target := Target.set_clb_func (Some 7)
                             (Target.set_clb_arg (Some 2)
                                (Target.set_clb_func (Some 1) Target.zero)) |}) /\
  Target.lyp_clb
    (snd (Target.lyp_clb {| Target.sink := callback_sink;
                            Target.target := Target.set_clb_arg (Some 2)
                                               (Target.set_clb_func (Some 1) Target.zero) |}
            (Some 7))) None
    = (Some 7,
       snd (Target.lyp_clb {| Target.sink := callback_sink;
                              Target.target := Target.set_clb_arg (Some 2)
                                                 (Target.set_clb_func (Some 1) Target.zero) |}
              (Some 7))).
Proof.
  destruct (proj1 (query_returns_replacement (fun _ => 0%Z)
                     {| Target.sink := callback_sink;
                        Target.target := Target.set_clb_arg (Some 2)
                                           (Target.set_clb_func (Some 1) Target.zero) |})
              7 eq_refl) as (H1 & H2 & _).
  split; [exact H1 | exact H2].
Defined.

(** The theorem at the sink [lyp_new_fd] builds for descriptor 5 (the
    duplicate is 6, the stream 1): the replacement by descriptor 8
    (duplicate 9, stream 2) returns 5, and the query that follows returns
    9. *)
Lemma descriptor_stream_replacement_witness :
  Target.lyp_new_fd false true 6 (Some 1) 5
    = Done (Some {| Target.sink := zeroed LYP_OUT_FDSTREAM;
                    Target.target := Target.set_f (Some 1)
                                       (Target.set_fdstream_fd 5 Target.zero) |},
            [Target.sys_dup 5 6; Target.sys_fdopen 6 (Some 1)]) /\
  Target.lyp_fd (fun _ => 0%Z) 9 (Some 2)
      {| Target.sink := zeroed LYP_OUT_FDSTREAM;
         Target.target := Target.set_f (Some 1) (Target.set_fdstream_fd 5 Target.zero) |} 8
    = Done (5%Z,
            Target.retarget
              (Target.set_fdstream_fd 9
                 (Target.set_f (Some 2)
                    (Target.set_f (Some 1) (Target.set_fdstream_fd 5 Target.zero))))
              {| Target.sink := zeroed LYP_OUT_FDSTREAM;
                 Target.target := Target.set_f (Some 1)
                                    (Target.set_fdstream_fd 5 Target.zero) |},
            [Target.sys_dup 8 9; Target.sys_fdopen 9 (Some 2); Target.sys_fclose 1]) /\
  Target.lyp_fd (fun _ => 0%Z) 0 None
      (Target.retarget
         (Target.set_fdstream_fd 9
            (Target.set_f (Some 2)
               (Target.set_f (Some 1) (Target.set_fdstream_fd 5 Target.zero))))
         {| Target.sink := zeroed LYP_OUT_FDSTREAM;
            Target.target := Target.set_f (Some 1)
                               (Target.set_fdstream_fd 5 Target.zero) |}) (-1)
    = Done (9%Z,
            Target.retarget
              (Target.set_fdstream_fd 9
                 (Target.set_f (Some 2)
                    (Target.set_f (Some 1) (Target.set_fdstream_fd 5 Target.zero))))
              {| Target.sink := zeroed LYP_OUT_FDSTREAM;
                 Target.target := Target.set_f (Some 1)
                                    (Target.set_fdstream_fd 5 Target.zero) |}, []).
Proof.
  split; [reflexivity|].
  destruct (proj1 (descriptor_stream_replacement (fun _ => 0%Z)
                     {| Target.sink := zeroed LYP_OUT_FDSTREAM;
                        Target.target := Target.set_f (Some 1)
                                           (Target.set_fdstream_fd 5 Target.zero) |}
                     1 eq_refl eq_refl) 8%Z 9%Z 2)
    as (H1 & H2 & _); [discriminate | lia |].
  split; [exact H1 | apply H2].
Defined.

Section TargetPath.

Import Target.

(** X15: the path of a file-path sink.  A query returns the path the
    sink remembers.  A replacement whose file cannot be opened returns
    [(void * )-1] and leaves the sink as it was: old stream open, old
    path kept.  A replacement whose file opens closes the old stream,
    releases the old path, remembers a copy of the new one (the query
    that follows returns the copy) and returns the null pointer; so does,
    without doing anything, a replacement asked of a sink of another
    type.  A replacement by the very pointer the query returned is
    undefined once the file opens: the path is released before it is
    copied. *)
Theorem file_path_replacement (h : handle) (s0 : FILE) :
  type (sink h) = LYP_OUT_FILEPATH -> f (target h) = Some s0 ->
  (forall x y, lyp_filepath x y h None = Done (path (fpath_filepath (target h)), h, [])) /\
  (forall new r, lyp_filepath None r h (Some new) = Done (minus_one, h, [sys_fopen new None])) /\
  (forall new s1 r,
     (forall p, fpath_filepath (target h) = Some p -> addr p <> addr new) ->
     let h1 := retarget (set_fpath_filepath (strdup new r) (set_f (Some s1) (target h))) h in
     lyp_filepath (Some s1) r h (Some new)
       = Done (path None, h1,
               [sys_fopen new (Some s1); sys_fclose s0;
                sys_free_path (fpath_filepath (target h)); sys_strdup new r]) /\
     (forall x y, lyp_filepath x y h1 None = Done (path (strdup new r), h1, [])) /\
     (forall a, r = Some a -> option_map text (strdup new r) = Some (text new))) /\
  (forall p s1 r,
     fpath_filepath (target h) = Some p ->
     lyp_filepath None None h None = Done (path (Some p), h, []) /\
     lyp_filepath (Some s1) r h (Some p) = Undefined) /\
  (forall g new x y,
     type (sink g) <> LYP_OUT_FILEPATH ->
     lyp_filepath x y g (Some new) = Done (path None, g, []) /\
     lyp_filepath x y g None = Done (minus_one, g, [])).
Proof.
  intros Hty Hf.
  assert (Hquery : forall g x y, type (sink g) = LYP_OUT_FILEPATH ->
            lyp_filepath x y g None = Done (path (fpath_filepath (target g)), g, [])).
  { intros g x y Hg. unfold lyp_filepath. rewrite Hg. reflexivity. }
  split; [|split; [|split; [|split]]].
  - intros x y. now apply Hquery.
  - intros new r. unfold lyp_filepath. rewrite Hty. reflexivity.
  - intros new s1 r Hfresh h1. split; [|split].
    + unfold lyp_filepath. rewrite Hty, Hf. cbn [LY_CHECK_ARG_RET LYP_OUT_TYPE_eqb].
      destruct (fpath_filepath (target h)) as [p|] eqn:Hp; [|reflexivity].
      destruct (N.eqb_spec (addr p) (addr new)) as [E|_]; [|reflexivity].
      exfalso. exact (Hfresh p eq_refl E).
    + intros x y. rewrite Hquery by exact Hty. reflexivity.
    + intros a ->. reflexivity.
  - intros p s1 r Hp. split.
    + rewrite Hquery by exact Hty. now rewrite Hp.
    + unfold lyp_filepath. rewrite Hty, Hf, Hp. cbn [LY_CHECK_ARG_RET LYP_OUT_TYPE_eqb].
      now rewrite N.eqb_refl.
  - intros g new x y Hg. unfold lyp_filepath.
    destruct (type (sink g)); try contradiction; auto.
Qed.

End TargetPath.

(** The theorem at the sink [lyp_new_filepath] builds for the path "a"
    (stream 1, the copy at address 20): the replacement by the path "b"
    (stream 2, the copy at address 30) returns the null pointer, and the
    query that follows returns the copy of "b". *)
Lemma file_path_replacement_witness :
  Target.lyp_new_filepath true (Some 1) (Some 20) {| Target.addr := 10; Target.text := "a" |}
    = (Some {| Target.sink := zeroed LYP_OUT_FILEPATH;
               Target.target :=
                 Target.set_fpath_filepath (Some {| Target.addr := 20; Target.text := "a" |})
                   (Target.set_f (Some 1) Target.zero) |},
       [Target.sys_fopen {| Target.addr := 10; Target.text := "a" |} (Some 1);
        Target.sys_strdup {| Target.addr := 10; Target.text := "a" |} (Some 20)]) /\
  exists h1,
    Target.lyp_filepath (Some 2) (Some 30)
        {| Target.sink := zeroed LYP_OUT_FILEPATH;
           Target.target :=
             Target.set_fpath_filepath (Some {| Target.addr := 20; Target.text := "a" |})
               (Target.set_f (Some 1) Target.zero) |}
        (Some {| Target.addr := 11; Target.text := "b" |})
      = Done (Target.path None, h1,
              [Target.sys_fopen {| Target.addr := 11; Target.text := "b" |} (Some 2);
               Target.sys_fclose 1;
               Target.sys_free_path (Some {| Target.addr := 20; Target.text := "a" |});
               Target.sys_strdup {| Target.addr := 11; Target.text := "b" |} (Some 30)]) /\
    Target.lyp_filepath None None h1 None
      = Done (Target.path (Some {| Target.addr := 30; Target.text := "b" |}), h1, []).
Proof.
  split; [reflexivity|].
  destruct (proj1 (proj2 (proj2
              (file_path_replacement
                 {| Target.sink := zeroed LYP_OUT_FILEPATH;
                    Target.target :=
                      Target.set_fpath_filepath
                        (Some {| Target.addr := 20; Target.text := "a" |})
                        (Target.set_f (Some 1) Target.zero) |} 1 eq_refl eq_refl)))
              {| Target.addr := 11; Target.text := "b" |} 2 (Some 30))
    as (H1 & H2 & _).
  - intros p Hp. injection Hp as <-. discriminate.
  - eexists. split; [exact H1 | apply H2].
Defined.

(** ** Release *)

Section TargetRelease.

Import Target.

(** X16: what [lyp_free] releases.  Whenever it returns, its last call
    releases the handle.  The only buffer it releases is the caller's
    buffer of a memory sink, and only with [destroy]; the hole buffer is
    never released.  It closes a descriptor only with [destroy].  The
    only stream it closes is the one the sink is bound to, and without
    [destroy] only on a descriptor-stream sink: the stream a file-path
    sink opened itself stays open.  The destructor of the callback
    argument is called whenever one is given to a callback sink, with or
    without [destroy].  The null handle is released without any call.
    With [destroy], the release of a memory sink that holds a null
    address or a released pointer is undefined. *)
Theorem release_calls (h : handle) (destructor destroy : bool) :
  (forall log,
     lyp_free (Some h) destructor destroy = Done log ->
     (exists calls, log = calls ++ [sys_free_handle] /\ ~ In sys_free_handle calls) /\
     (forall p, In (sys_free_buffer p) log ->
        type (sink h) = LYP_OUT_MEMORY /\ destroy = true /\ mem_buf (sink h) = Some p) /\
     (forall d, In (sys_close d) log -> destroy = true) /\
     (forall s, In (sys_fclose s) log ->
        f (target h) = Some s /\ (destroy = true \/ type (sink h) = LYP_OUT_FDSTREAM)) /\
     (forall a, In (sys_clb_arg_destructor a) log <->
        type (sink h) = LYP_OUT_CALLBACK /\ destructor = true /\ a = clb_arg (target h))) /\
  (type (sink h) = LYP_OUT_FILEPATH ->
   lyp_free (Some h) destructor false
     = Done [sys_free_path (fpath_filepath (target h)); sys_free_handle]) /\
  (type (sink h) = LYP_OUT_MEMORY ->
   mem_buf (sink h) = None \/ mem_buf (sink h) = Some Freed ->
   lyp_free (Some h) destructor true = Undefined) /\
  lyp_free None destructor destroy = Done [].
Proof.
  split; [|split; [|split]].
  - intros log Hfree. unfold lyp_free in Hfree.
    match type of Hfree with
    | match ?r with _ => _ end = _ => destruct r as [calls| |] eqn:Hrel
    end; try discriminate Hfree.
    injection Hfree as <-.
    split; [exists calls; split; [reflexivity|]|];
      destruct (type (sink h)) eqn:Hty;
      repeat match type of Hrel with
             | context [if destroy then _ else _] => destruct destroy
             | context [if destructor then _ else _] => destruct destructor
             | context [match f (target h) with _ => _ end] =>
                 destruct (f (target h)) as [s|]
             | context [match mem_buf (sink h) with _ => _ end] =>
                 destruct (mem_buf (sink h)) as [p|]
             | context [match free ?p with _ => _ end] => destruct (free p)
             end;
      try discriminate Hrel; injection Hrel as <-;
      try (simpl; intuition discriminate);
      (split; [intros q Hq; simpl in Hq;
               repeat (destruct Hq as [Hq|Hq]; try discriminate Hq);
               try contradiction; injection Hq as <-; auto|]);
      (split; [intros d Hd; simpl in Hd;
               repeat (destruct Hd as [Hd|Hd]; try discriminate Hd);
               try contradiction; reflexivity|]);
      (split; [intros s' Hs; simpl in Hs;
               repeat (destruct Hs as [Hs|Hs]; try discriminate Hs);
               try contradiction; injection Hs as <-; auto|]);
      (intros a; split;
       [ intros Ha; simpl in Ha;
         repeat (destruct Ha as [Ha|Ha]; try discriminate Ha);
         try contradiction; injection Ha as <-; auto
       | intros (E1 & E2 & E3); try discriminate E1; try discriminate E2;
         subst a; simpl; auto ]).
  - intros Hty. unfold lyp_free. rewrite Hty. reflexivity.
  - intros Hty Hbuf. unfold lyp_free. rewrite Hty.
    destruct Hbuf as [-> | ->]; reflexivity.
  - reflexivity.
Qed.

(** X17: from construction to release.  Every stream a constructor
    opens is closed by the release with [destroy], and the copy of the
    path is released: the calls of the release close exactly the streams
    the constructor opened.  Without [destroy] this holds for the
    descriptor-stream sink only: the stream of a file-path sink stays
    open, and [lyp_file] does not hand it out.  When construction fails
    after the handle was allocated, a failed [dup] releases the handle, a
    failed [fopen] returns no handle and does not release it, and a
    failed [fdopen] passes the descriptor number to [fclose]. *)
Theorem streams_opened_are_closed (d d1 : Z) (s : FILE) (r : option address) (name : c_string) :
  (0 <= d1)%Z ->
  (exists h log,
     Target.lyp_new_fd false true d1 (Some s) d = Done (Some h, log) /\
     forall destructor destroy,
       exists log', lyp_free (Some h) destructor destroy = Done log' /\
                    closed log' = opened log) /\
  (exists h log,
     Target.lyp_new_filepath true (Some s) r name = (Some h, log) /\
     (forall destructor,
        exists log', lyp_free (Some h) destructor true = Done log' /\
                     closed log' = opened log /\ released_paths log' = copied log) /\
     (forall destructor,
        exists log', lyp_free (Some h) destructor false = Done log' /\
                     closed log' = [] /\ opened log = [s] /\
                     released_paths log' = copied log) /\
     (forall x, lyp_file h x = (None, h))) /\
  (forall d2 x, (d2 < 0)%Z ->
     Target.lyp_new_fd false true d2 x d = Done (None, [sys_dup d d2; sys_free_handle])) /\
  Target.lyp_new_fd false true d1 None d = Undefined /\
  Target.lyp_new_filepath true None r name = (None, [sys_fopen name None]).
Proof.
  intros Hd1.
  assert (Hdup : (d1 <? 0)%Z = false) by (apply Z.ltb_ge; lia).
  split; [|split; [|split; [|split]]].
  - unfold Target.lyp_new_fd. rewrite Hdup. eexists. eexists. split; [reflexivity|].
    intros destructor destroy. eexists. split; [reflexivity|]. destruct destroy; reflexivity.
  - eexists. eexists. split; [reflexivity|]. split; [|split].
    + intros destructor. eexists. split; [reflexivity|]. split; reflexivity.
    + intros destructor. eexists. split; [reflexivity|]. auto.
    + intros x. reflexivity.
  - intros d2 x Hd2. unfold Target.lyp_new_fd. apply Z.ltb_lt in Hd2. now rewrite Hd2.
  - unfold Target.lyp_new_fd. now rewrite Hdup.
  - reflexivity.
Qed.

End TargetRelease.

(** The theorem at the file-path sink bound to stream 1 and the path "a":
    the release without [destroy] releases the path and the handle and
    leaves the stream open. *)
Lemma release_calls_witness :
  Target.lyp_free
    (Some {| Target.sink := zeroed LYP_OUT_FILEPATH;
             Target.target :=
               Target.set_fpath_filepath (Some {| Target.addr := 20; Target.text := "a" |})
                 (Target.set_f (Some 1) Target.zero) |}) false false
    = Done [Target.sys_free_path (Some {| Target.addr := 20; Target.text := "a" |});
            Target.sys_free_handle].
Proof.
  apply (proj1 (proj2 (release_calls
                         {| Target.sink := zeroed LYP_OUT_FILEPATH;
                            Target.target :=
                              Target.set_fpath_filepath
                                (Some {| Target.addr := 20; Target.text := "a" |})
                                (Target.set_f (Some 1) Target.zero) |} false false))).
  reflexivity.
Defined.

(** The theorem at descriptor 5 (duplicate 6) and "a" (stream 1, the copy
    at address 20): the sink [lyp_new_fd] builds is released with the
    stream closed. *)
Lemma streams_opened_are_closed_witness :
  exists h log,
    Target.lyp_new_fd false true 6 (Some 1) 5 = Done (Some h, log) /\
    forall destructor destroy,
      exists log', Target.lyp_free (Some h) destructor destroy = Done log' /\
                   Target.closed log' = Target.opened log.
Proof.
  apply (streams_opened_are_closed 5 6 1 (Some 20)
           {| Target.addr := 10; Target.text := "a" |}).
  lia.
Defined.

(** * The type of a sink *)

Section SinkType.

Lemma ly_write_skipped_type (out : lyp_out) (position : N) (buf : list memval)
    (w : world) (e : LY_ERR) (out' : lyp_out) (w' : world) :
  ly_write_skipped out position buf w = Done (e, out', w') -> type out' = type out.
Proof.
  intros Hw. unfold ly_write_skipped in Hw. cbv zeta in Hw.
  destruct (LYOUT_CHECK out); [injection Hw as _ <- _; reflexivity|].
  assert (Htarget :
            (if buf_len out <? size_t_add position (len buf)
             then Done (LOGMEM_RET, set_status LY_ESYS out, w)
             else match memcpy (buffered out) position buf with
                  | None => Undefined
                  | Some p =>
                      if hole_count (set_hole_count (size_t_dec (hole_count out))
                                       (set_buffer p (buf_len out) (buf_size out) out)) =? 0
                      then match load (buffered (set_hole_count (size_t_dec (hole_count out))
                                          (set_buffer p (buf_len out) (buf_size out) out)))
                                   (buf_len (set_hole_count (size_t_dec (hole_count out))
                                          (set_buffer p (buf_len out) (buf_size out) out))) with
                           | None => Undefined
                           | Some data =>
                               match lyp_write true
                                       (set_hole_count (size_t_dec (hole_count out))
                                          (set_buffer p (buf_len out) (buf_size out) out))
                                       data w with
                               | Done (ret, out2, w2) =>
                                   Done (ret, set_buffer (buffered out2) 0 (buf_size out2) out2, w2)
                               | Undefined => Undefined
                               | Starved => Starved
                               end
                           end
                      else Done (LY_SUCCESS,
                                 set_hole_count (size_t_dec (hole_count out))
                                   (set_buffer p (buf_len out) (buf_size out) out), w)
                  end) = Done (e, out', w') ->
            type out' = type out).
  { clear Hw. intros Hw.
    destruct (buf_len out <? size_t_add position (len buf));
      [injection Hw as _ <- _; reflexivity|].
    destruct (memcpy (buffered out) position buf) as [p|]; [|discriminate].
    destruct (hole_count _ =? 0); [|injection Hw as _ <- _; reflexivity].
    destruct (load _ _) as [data|]; [|discriminate].
    destruct (lyp_write true _ data w) as [[[ret out2] w2]| |] eqn:Hw2; try discriminate.
    injection Hw as _ <- _. apply lyp_write_type in Hw2. exact Hw2. }
  destruct (type out) eqn:Hty; try (apply Htarget; exact Hw).
  - injection Hw as _ <- _. exact Hty.
  - split_cases Hw; injection Hw as _ <- _; exact Hty.
Qed.

Lemma step_type (c : call) (out : lyp_out) (w : world) (toks : list N)
    (e : LY_ERR) (out' : lyp_out) (w' : world) (toks' : list N) :
  step c (out, w, toks) = Done (e, (out', w', toks')) -> type out' = type out.
Proof.
  intros Hs. destruct c as [buf | msg | count | hole buf]; cbn [step] in Hs.
  - destruct (lyp_write true out (map Val buf) w) as [[[e1 o1] w1]| |] eqn:Hw;
      try discriminate.
    injection Hs as _ <- _ _. eapply lyp_write_type; eauto.
  - destruct (lyp_print true true true out msg w) as [[[e1 o1] w1]| |] eqn:Hw;
      try discriminate.
    injection Hs as _ <- _ _. eapply lyp_print_keeps; eauto.
  - destruct (ly_write_skip true out count) as [[[e1 pos] o1]| |] eqn:Hw; try discriminate.
    assert (o1 = out') by (destruct pos; now injection Hs as _ <- _ _). subst o1.
    eapply ly_write_skip_type; eauto.
  - destruct (nth_error toks hole) as [position|]; [|discriminate].
    destruct (ly_write_skipped out position (map Val buf) w) as [[[e1 o1] w1]| |] eqn:Hw;
      try discriminate.
    injection Hs as _ <- _ _. eapply ly_write_skipped_type; eauto.
Qed.

Lemma run_type (cs : list call) :
  forall out w toks e out' w' toks',
    run cs (out, w, toks) = Done (e, (out', w', toks')) -> type out' = type out.
Proof.
  induction cs as [|c cs IH]; intros out w toks e out' w' toks' Hrun.
  - simpl in Hrun. now injection Hrun as _ <- _ _.
  - cbn [run] in Hrun.
    destruct (step c (out, w, toks)) as [[e1 [[o1 w1] t1]]| |] eqn:Hs; try discriminate.
    pose proof (step_type _ _ _ _ _ _ _ _ Hs) as Ht.
    destruct e1; try (injection Hrun as _ <- _ _; exact Ht).
    rewrite <- Ht. eapply IH; eauto.
Qed.

End SinkType.

(** X18: the type of a sink.  [lyp_out_type] reports the null handle as
    the error type, and a handle a constructor returns as the type of
    that constructor (for [lyp_new_fd]: the descriptor sink when the
    library is built with [vdprintf], the descriptor-stream sink
    otherwise): no constructor returns a sink of the error type.  No
    call changes the type: not a sequence of writes, reservations and
    backfills, whatever it returns, nor the reset, the flush or the
    replacement of the memory buffer. *)
Theorem type_is_fixed_at_construction :
  lyp_out_type None = LYP_OUT_ERROR /\
  (forall ok, lyp_out_type (lyp_new_clb ok) = if ok then LYP_OUT_CALLBACK else LYP_OUT_ERROR) /\
  (forall ok, lyp_out_type (lyp_new_file ok) = if ok then LYP_OUT_FILE else LYP_OUT_ERROR) /\
  (forall v ok d s o, lyp_new_fd v ok d s = Done (Some o) ->
     lyp_out_type (Some o) = if v then LYP_OUT_FD else LYP_OUT_FDSTREAM) /\
  (forall ok s o, lyp_new_filepath ok s = Some o -> lyp_out_type (Some o) = LYP_OUT_FILEPATH) /\
  (forall ok strp size o, lyp_new_memory ok strp size = Some o ->
     lyp_out_type (Some o) = LYP_OUT_MEMORY) /\
  (forall cs out w toks e out' w' toks',
     run cs (out, w, toks) = Done (e, (out', w', toks')) ->
     lyp_out_type (Some out') = lyp_out_type (Some out)) /\
  (forall seek_ok out,
     lyp_out_type (Some (snd (lyp_out_reset seek_ok out))) = lyp_out_type (Some out)) /\
  (forall out o, ly_print_flush out = Done o -> lyp_out_type (Some o) = lyp_out_type (Some out)) /\
  (forall out strp size data o,
     lyp_memory out strp size = Done (data, o) ->
     lyp_out_type (Some o) = lyp_out_type (Some out)).
Proof.
  split; [reflexivity|].
  split; [intros []; reflexivity|].
  split; [intros []; reflexivity|].
  split.
  { intros v ok d s o H. unfold lyp_new_fd in H.
    destruct ok; [|discriminate]. destruct v; [now injection H as <-|].
    destruct d; [|discriminate]. destruct s; [now injection H as <-|discriminate]. }
  split.
  { intros ok s o H. unfold lyp_new_filepath in H.
    destruct ok; [|discriminate]. destruct s; [now injection H as <-|discriminate]. }
  split.
  { intros ok strp size o H. unfold lyp_new_memory in H.
    destruct ok; [|discriminate]. injection H as <-.
    destruct (size =? 0); [reflexivity|]. destruct strp; reflexivity. }
  split.
  { intros cs out w toks e out' w' toks' Hrun. simpl. eapply run_type; eauto. }
  split.
  { intros seek_ok out. unfold lyp_out_reset.
    destruct (type out) eqn:Hty; try destruct seek_ok; simpl; congruence. }
  split.
  { intros out o H. unfold ly_print_flush in H.
    destruct (free (buffered out)); [|discriminate]. now injection H as <-. }
  intros out strp size data o H. unfold lyp_memory in H.
  destruct (type out) eqn:Hty; cbn [LYP_OUT_TYPE_eqb LY_CHECK_ARG_RET] in H;
    try (injection H as _ <-; reflexivity).
  destruct (mem_buf out) as [p|]; [|discriminate].
  destruct strp as [q|]; [|now injection H as _ <-].
  injection H as _ <-. simpl. rewrite Hty.
  destruct (size =? 0); [exact Hty|]. destruct q; exact Hty.
Qed.

(** The theorem at the callback sink: after a reservation, a raw write
    and the backfill the sink is still a callback sink. *)
Lemma type_is_fixed_at_construction_witness :
  lyp_out_type
    (Some (set_printed 5 (set_hole_count 0 (set_buffer (Block (bytes "Z!abc")) 0 5
                                              callback_sink))))
    = lyp_out_type (Some callback_sink).
Proof.
  apply (proj1 (proj2 (proj2 (proj2 (proj2 (proj2 (proj2 type_is_fixed_at_construction))))))
           [Reserve 2; Write (str "abc"); Backfill 0 (str "Z!")]
           callback_sink (answers [accepted 5]) [] LY_SUCCESS _
           {| pending := []; calls := [bytes "Z!abc"] |} [0]).
  reflexivity.
Defined.

(** * Backfills at the edges *)

(** X19: the backfill on a memory sink is checked against nothing, the
    logical length included.  With the caller's pointer at a live block
    it is defined exactly when its range lies within the block, and this
    holds for the empty range too: the address of the cell at [position]
    must lie within the block or at its end.  When it is defined it succeeds,
    puts the bytes at [position], and leaves the logical length, the size
    and the printed counter as they were; a range that starts at or
    behind the logical length leaves the content as it was.  Through a
    released pointer the backfill is undefined whatever the range, and
    through the null pointer it is undefined for every range but the
    empty one at position 0. *)
Theorem memory_backfill_is_unchecked (out : lyp_out) (p : ptr) (position : N)
    (buf : list memval) (w : world) :
  status out = LY_SUCCESS -> type out = LYP_OUT_MEMORY -> mem_buf out = Some p ->
  (forall cells,
     p = Block cells ->
     (defined (ly_write_skipped out position buf w) = true <->
      position + len buf <= len cells) /\
     (position + len buf <= len cells ->
      ly_write_skipped out position buf w
        = Done (LY_SUCCESS,
                set_mem (Some (Block (splice cells position buf))) (mem_len out) (mem_size out)
                  out, w) /\
      (mem_len out <= position ->
       mem_content (set_mem (Some (Block (splice cells position buf))) (mem_len out)
                      (mem_size out) out) = mem_content out))) /\
  (p = Freed -> ly_write_skipped out position buf w = Undefined) /\
  (p = Null -> buf <> [] \/ position <> 0 ->
   ly_write_skipped out position buf w = Undefined).
Proof.
  intros Hs Hty Hbuf.
  assert (Hsk : ly_write_skipped out position buf w
                = match memcpy p position buf with
                  | None => Undefined
                  | Some p' =>
                      Done (LY_SUCCESS, set_mem (Some p') (mem_len out) (mem_size out) out, w)
                  end).
  { unfold ly_write_skipped. now rewrite (LYOUT_CHECK_clear _ Hs), Hty, Hbuf. }
  split; [|split].
  - intros cells ->. split.
    + rewrite Hsk. unfold memcpy. destruct buf as [|b buf].
      * change (len []) with 0. rewrite N.add_0_r.
        destruct (N.leb_spec position (len cells)) as [Hin|Hout].
        -- split; [intros _; exact Hin | reflexivity].
        -- split; [discriminate | lia].
      * destruct (N.leb_spec (position + len (b :: buf)) (len cells)) as [Hin|Hout].
        -- split; [intros _; exact Hin | reflexivity].
        -- split; [discriminate | lia].
    + intros Hin. split.
      * rewrite Hsk. now rewrite memcpy_block.
      * intros Hbehind. unfold mem_content. cbn [mem_buf mem_len set_mem]. rewrite Hbuf.
        simpl cells_of. unfold splice.
        rewrite firstn_app, length_firstn.
        replace (N.to_nat (mem_len out) - Nat.min (N.to_nat position) (length cells))%nat
          with 0%nat by list_len.
        rewrite firstn_firstn. simpl firstn. rewrite app_nil_r. f_equal. lia.
  - intros ->. rewrite Hsk. unfold memcpy. destruct buf; reflexivity.
  - intros -> Hrange. rewrite Hsk. unfold memcpy. destruct buf as [|b buf]; [|reflexivity].
    destruct Hrange as [E|Hpos]; [contradiction|].
    apply N.eqb_neq in Hpos. now rewrite Hpos.
Qed.

(** The theorem at the memory sink that holds "abc" in a block of four
    cells: a backfill of two bytes at position 3 would end behind the
    block and is undefined, as is a backfill of no byte at position 5; a
    backfill of one byte at position 3 is accepted (it overwrites the
    terminator). *)
Lemma memory_backfill_is_unchecked_witness :
  defined (ly_write_skipped (memory_holding (bytes "abc" ++ [Val x00]) 3) 3 (bytes "de")
             (answers [])) = false /\
  defined (ly_write_skipped (memory_holding (bytes "abc" ++ [Val x00]) 3) 5 []
             (answers [])) = false /\
  ly_write_skipped (memory_holding (bytes "abc" ++ [Val x00]) 3) 3 (bytes "d") (answers [])
    = Done (LY_SUCCESS,
            set_mem (Some (Block (splice (bytes "abc" ++ [Val x00]) 3 (bytes "d"))))
              (mem_len (memory_holding (bytes "abc" ++ [Val x00]) 3))
              (mem_size (memory_holding (bytes "abc" ++ [Val x00]) 3))
              (memory_holding (bytes "abc" ++ [Val x00]) 3), answers []).
Proof.
  pose proof (fun position buf =>
                proj1 (memory_backfill_is_unchecked
                         (memory_holding (bytes "abc" ++ [Val x00]) 3)
                         (Block (bytes "abc" ++ [Val x00])) position buf (answers [])
                         eq_refl eq_refl eq_refl) (bytes "abc" ++ [Val x00]) eq_refl) as H.
  split; [|split].
  - apply Bool.not_true_is_false. intros Hd. apply (H 3 (bytes "de")) in Hd.
    unfold len in Hd. simpl in Hd. lia.
  - apply Bool.not_true_is_false. intros Hd. apply (H 5 []) in Hd.
    unfold len in Hd. simpl in Hd. lia.
  - apply (H 3 (bytes "d")). unfold len. simpl. lia.
Defined.

(** X20: the backfill does not ask whether a hole is outstanding.  On a
    sink with a target, no hole counted and the hole buffer in order, a
    backfill whose range passes the check (the empty range at position 0
    always does) succeeds without a call to the target and takes the
    counter from 0 to [2^64 - 1].  From then on the sink is buffering:
    every raw write that is served succeeds, is appended to the hole
    buffer and makes no call to the target. *)
Theorem backfill_without_hole_wraps_counter (out : lyp_out) (position : N)
    (buf : list memval) (w : world) :
  status out = LY_SUCCESS -> has_target (type out) = true -> hole_count out = 0 ->
  buffer_ok out -> position + len buf <= buf_len out ->
  exists p,
    ly_write_skipped out position buf w
      = Done (LY_SUCCESS,
              set_hole_count (SIZE_MOD - 1) (set_buffer p (buf_len out) (buf_size out) out), w) /\
    forall buf' w',
      buf_len out + len buf' < SIZE_MOD ->
      exists o2,
        lyp_write true
          (set_hole_count (SIZE_MOD - 1) (set_buffer p (buf_len out) (buf_size out) out))
          buf' w' = Done (LY_SUCCESS, o2, w') /\
        hole_count o2 = SIZE_MOD - 1 /\
        hole_content o2
          = hole_content (set_hole_count (SIZE_MOD - 1)
                            (set_buffer p (buf_len out) (buf_size out) out)) ++ buf'.
Proof.
  intros Hs Ht Hh Hok Hin. pose proof Hok as (Hp & Hsz & Hle & Hfit).
  destruct (memcpy_defined (buffered out) position buf) as (p & Hcp & Hp' & Hl');
    [assumption | lia |].
  exists p. split.
  - unfold ly_write_skipped. rewrite (LYOUT_CHECK_clear _ Hs).
    rewrite size_t_add_small by lia.
    destruct (N.ltb_spec (buf_len out) (position + len buf)) as [Hout|_]; [lia|].
    rewrite Hcp, Hh. cbn [hole_count set_hole_count].
    change (size_t_dec 0) with (SIZE_MOD - 1).
    destruct (type out); try discriminate Ht; reflexivity.
  - intros buf' w' Hfit'.
    set (o1 := set_hole_count (SIZE_MOD - 1) (set_buffer p (buf_len out) (buf_size out) out)).
    assert (Hok1 : buffer_ok o1).
    { apply (buffer_ok_frame (set_buffer p (buf_len out) (buf_size out) out));
        try reflexivity.
      apply buffer_ok_set; try assumption. congruence. }
    destruct (buffered_write o1 buf' w') as (p2 & s2 & Hw & _ & Hc);
      [exact Hs | discriminate | exact Hok1 | exact Hfit' |].
    eexists. split; [exact Hw|]. split; [reflexivity | exact Hc].
Qed.

(** The theorem at the fresh callback sink: the backfill of no byte at
    position 0 succeeds, and the raw write of "abc" that follows is kept
    from the callback. *)
Lemma backfill_without_hole_wraps_counter_witness :
  exists p,
    ly_write_skipped callback_sink 0 [] (answers [accepted 3])
      = Done (LY_SUCCESS,
              set_hole_count (SIZE_MOD - 1)
                (set_buffer p (buf_len callback_sink) (buf_size callback_sink) callback_sink),
              answers [accepted 3]) /\
    forall buf' w',
      buf_len callback_sink + len buf' < SIZE_MOD ->
      exists o2,
        lyp_write true
          (set_hole_count (SIZE_MOD - 1)
             (set_buffer p (buf_len callback_sink) (buf_size callback_sink) callback_sink))
          buf' w' = Done (LY_SUCCESS, o2, w') /\
        hole_count o2 = SIZE_MOD - 1 /\
        hole_content o2
          = hole_content (set_hole_count (SIZE_MOD - 1)
                            (set_buffer p (buf_len callback_sink) (buf_size callback_sink)
                               callback_sink)) ++ buf'.
Proof.
  apply (backfill_without_hole_wraps_counter callback_sink 0 [] (answers [accepted 3])
           eq_refl eq_refl eq_refl (zeroed_buffer_ok LYP_OUT_CALLBACK)).
  reflexivity.
Defined.

(** * Large writes *)

(** X21: the raw write keeps the result of the target's primitive in an
    [int].  On a sink with a target and no hole counted, a raw write of
    more than [INT_MAX] bytes therefore never succeeds, whatever the
    target accepts: each result is taken for a failure, a request to
    retry or a short write, so the call sets the sticky status and
    returns the system error, having handed the bytes to the target, or
    it is still retrying. *)
Theorem large_raw_write_never_succeeds (ok : bool) (out : lyp_out) (buf : list memval)
    (rs : list response) :
  status out = LY_SUCCESS -> hole_count out = 0 -> has_target (type out) = true ->
  (INT_MAX < Z.of_N (len buf))%Z ->
  Forall (fun r => (written r <= INT_MAX)%Z) rs ->
  forall cs,
    lyp_write ok out buf {| pending := rs; calls := cs |} = Starved \/
    exists w', lyp_write ok out buf {| pending := rs; calls := cs |}
                 = Done (LY_ESYS, set_status LY_ESYS out, w') /\
               In buf (calls w').
Proof.
  intros Hs Hh Ht Hlarge Hint cs. rewrite lyp_write_direct by assumption.
  cbn [pending calls]. revert cs.
  induction Hint as [|r rs Hr Hint IH]; intros cs; [now left|].
  cbn [lyp_write_repeat]. unfold lyp_write_check.
  destruct (Z.ltb_spec (written r) 0) as [Hneg|Hpos].
  - destruct ((errno r =? EAGAIN)%Z || (errno r =? EWOULDBLOCK)%Z); [apply IH|].
    right. eexists. split; [reflexivity|]. cbn [calls]. apply in_or_app. right. now left.
  - destruct (N.eqb_spec (Z.to_N (written r)) (len buf)) as [E|_]; [lia|]. cbn [negb].
    right. eexists. split; [reflexivity|]. cbn [calls]. apply in_or_app. right. now left.
Qed.

(** The theorem at the callback sink and a buffer of [2^31] cells: the
    callback reports [INT_MAX] bytes, and the write fails. *)
Lemma large_raw_write_never_succeeds_witness :
  lyp_write true callback_sink (repeat Undef (N.to_nat 2147483648))
      {| pending := [accepted INT_MAX]; calls := [] |} = Starved \/
  exists w', lyp_write true callback_sink (repeat Undef (N.to_nat 2147483648))
                 {| pending := [accepted INT_MAX]; calls := [] |}
               = Done (LY_ESYS, set_status LY_ESYS callback_sink, w') /\
             In (repeat Undef (N.to_nat 2147483648)) (calls w').
Proof.
  apply large_raw_write_never_succeeds.
  - reflexivity.
  - reflexivity.
  - reflexivity.
  - unfold len. rewrite repeat_length, N2Nat.id. reflexivity.
  - constructor; [apply Z.le_refl | constructor].
Defined.

(** * Releasing attributes ([src/tree_data_free.c]) *)

Section Attributes.

Import Tree.

Lemma segment_frame (h h' : heap) (first rest : option address) (l : list address) :
  attr_segment h first l rest -> (forall x, In x l -> attrs h' x = attrs h x) ->
  attr_segment h' first l rest.
Proof.
  induction 1 as [|a r l rest Ha Hl IH]; intros Hsame; [constructor|].
  apply (segment_cons h' a r l rest).
  - rewrite Hsame by now left. exact Ha.
  - apply IH. intros x Hx. apply Hsame. now right.
Qed.

Lemma segment_app (h : heap) (l1 l2 : list address) :
  forall first rest,
    attr_segment h first (l1 ++ l2) rest <->
    exists mid, attr_segment h first l1 mid /\ attr_segment h mid l2 rest.
Proof.
  induction l1 as [|c l1 IH]; intros first rest; simpl.
  - split.
    + intros H. exists first. split; [constructor | exact H].
    + intros (mid & H1 & H2). inversion H1; subst. exact H2.
  - split.
    + intros H. inversion H as [|c' rc l' rest' Hc Hrest]; subst.
      apply IH in Hrest as (mid & H1 & H2).
      exists mid. split; [now apply (segment_cons h c rc) | exact H2].
    + intros (mid & H1 & H2). inversion H1 as [|c' rc l' rest' Hc Hrest]; subst.
      apply (segment_cons h c rc); [exact Hc|]. apply IH. eauto.
Qed.

Lemma segment_head (h : heap) (first rest : option address) (a : address) (l : list address) :
  attr_segment h first (a :: l) rest ->
  first = Some a /\ exists r, attrs h a = Some r /\ attr_segment h (next r) l rest.
Proof. inversion 1; subst. eauto. Qed.

Lemma same_refl (a : address) : same (Some a) (Some a) = true.
Proof. simpl. apply N.eqb_refl. Qed.

Lemma same_neq (a b : address) : a <> b -> same (Some b) (Some a) = false.
Proof. intros H. simpl. apply N.eqb_neq. congruence. Qed.

Lemma attrs_store_same (a : address) (r : option lyd_attr) (h : heap) :
  attrs (store_attr a r h) a = r.
Proof. simpl. now rewrite N.eqb_refl. Qed.

Lemma attrs_store_other (a x : address) (r : option lyd_attr) (h : heap) :
  x <> a -> attrs (store_attr a r h) x = attrs h x.
Proof. intros H. simpl. apply N.eqb_neq in H. now rewrite H. Qed.

(** The search for the attribute before [a] finds it. *)
Lemma find_previous_found (h : heap) (a b : address) (l1 : list address) :
  forall first fuel,
    attr_segment h first (l1 ++ [b]) (Some a) -> ~ In a (l1 ++ [b]) ->
    (length l1 < fuel)%nat ->
    find_previous fuel h first a = Done b.
Proof.
  induction l1 as [|c l1 IH]; intros first fuel Hseg Hnot Hfuel;
    (destruct fuel as [|fuel]; [lia|]); simpl in Hseg.
  - apply segment_head in Hseg as (-> & rb & Hb & Hrest).
    assert (E : next rb = Some a) by (inversion Hrest; congruence).
    simpl. rewrite Hb, E, same_refl. reflexivity.
  - apply segment_head in Hseg as (-> & rc & Hc & Hrest).
    simpl. rewrite Hc.
    assert (Hnext : same (next rc) (Some a) = false).
    { destruct (l1 ++ [b]) as [|d l'] eqn:E; [destruct l1; discriminate|].
      apply segment_head in Hrest as (-> & _). apply same_neq.
      intros ->. apply Hnot. right. rewrite E. now left. }
    rewrite Hnext. simpl. apply IH; [exact Hrest | | simpl in Hfuel; lia].
    intros Hin. apply Hnot. now right.
Qed.

(** The search runs off the end of a list that does not hold [a]. *)
Lemma find_previous_absent (h : heap) (a : address) (l : list address) :
  forall first fuel,
    attr_list h first l -> ~ In a l -> (length l < fuel)%nat ->
    find_previous fuel h first a = Undefined.
Proof.
  induction l as [|c l IH]; intros first fuel Hseg Hnot Hfuel;
    (destruct fuel as [|fuel]; [lia|]).
  - inversion Hseg; subst. reflexivity.
  - apply segment_head in Hseg as (-> & rc & Hc & Hrest).
    simpl. rewrite Hc.
    assert (Hnext : same (next rc) (Some a) = false).
    { destruct l as [|d l'].
      - assert (E : next rc = None) by (inversion Hrest; congruence). now rewrite E.
      - apply segment_head in Hrest as (-> & _). apply same_neq.
        intros ->. apply Hnot. right. now left. }
    rewrite Hnext. simpl. apply IH; [exact Hrest | | simpl in Hfuel; lia].
    intros Hin. apply Hnot. now right.
Qed.

Lemma strings_of_frame (h h' : heap) (l : list address) :
  (forall x, In x l -> attrs h' x = attrs h x) -> strings_of h' l = strings_of h l.
Proof.
  intros Hsame. unfold strings_of. rewrite !flat_map_concat_map. f_equal.
  apply map_ext_in. intros x Hx. now rewrite Hsame.
Qed.

(** The release loop on a list: it releases the attributes of the list,
    in order, and nothing else. *)
Lemma free_attrs_list (l : list address) :
  forall h first fuel,
    attr_list h first l -> NoDup l -> (length l <= fuel)%nat ->
    exists h' evs,
      free_attrs fuel h first = Done (h', evs) /\
      released evs = l /\ strings evs = strings_of h l /\
      (forall x, In x l -> attrs h' x = None) /\
      (forall x, ~ In x l -> attrs h' x = attrs h x) /\
      nodes h' = nodes h.
Proof.
  induction l as [|a l IH]; intros h first fuel Hseg Hnd Hfuel.
  - inversion Hseg; subst. exists h, [].
    split; [destruct fuel; reflexivity|]. split; [reflexivity|]. split; [reflexivity|].
    split; [intros x []|]. split; [reflexivity|reflexivity].
  - apply segment_head in Hseg as (-> & r & Ha & Hrest).
    destruct fuel as [|fuel]; [simpl in Hfuel; lia|].
    inversion Hnd as [|a' l' Hnot Hnd']; subst.
    destruct (IH (store_attr a None h) (next r) fuel)
      as (h' & evs & Hfree & Hrel & Hstr & Hgone & Hkept & Hnodes);
      [ apply (segment_frame h); [exact Hrest|];
        intros x Hx; apply attrs_store_other; intros ->; contradiction
      | exact Hnd' | simpl in Hfuel; lia | ].
    exists h'. eexists. simpl free_attrs. rewrite Ha, Hfree. split; [reflexivity|].
    split; [simpl; now rewrite Hrel|].
    split; [|split; [|split]].
    + unfold strings_of. simpl. rewrite Ha. simpl. f_equal. f_equal.
      rewrite Hstr. apply strings_of_frame.
      intros x Hx. apply attrs_store_other. intros ->. contradiction.
    + intros x [<- | Hx]; [|now apply Hgone].
      rewrite Hkept by exact Hnot. apply attrs_store_same.
    + intros x Hx. rewrite Hkept by (intros Hin; apply Hx; now right).
      apply attrs_store_other. intros ->. apply Hx. now left.
    + exact Hnodes.
Qed.

(** The call on the first attribute of its node, up to the release loop. *)
Lemma lyd_free_attr_first (h : heap) (p : address) (n : lyd_node) (a : address)
    (r : lyd_attr) (fuel : nat) (recursive : bool) :
  nodes h p = Some n -> attr n = Some a -> attrs h a = Some r -> parent r = Some p ->
  lyd_free_attr fuel true h (Some a) recursive
    = free_attrs fuel
        (if recursive then store_node p {| attr := None |} h
         else store_attr a (Some (set_next None r)) (store_node p {| attr := next r |} h))
        (Some a).
Proof.
  intros Hn Hfirst Ha Hp. unfold lyd_free_attr. cbn [LY_CHECK_ARG_RET].
  rewrite Ha, Hp, Hn, Hfirst, same_refl.
  destruct recursive; [reflexivity|].
  cbn [attrs store_node]. now rewrite Ha.
Qed.

(** The call on an attribute that has another one before it, up to the
    release loop. *)
Lemma lyd_free_attr_inner (h : heap) (p : address) (n : lyd_node) (a b : address)
    (r rb : lyd_attr) (l : list address) (fuel : nat) (recursive : bool) :
  nodes h p = Some n -> attr_segment h (attr n) (l ++ [b]) (Some a) -> ~ In a (l ++ [b]) ->
  attrs h a = Some r -> parent r = Some p -> attrs h b = Some rb ->
  (length l < fuel)%nat ->
  next rb = Some a /\
  lyd_free_attr fuel true h (Some a) recursive
    = free_attrs fuel
        (if recursive then store_attr b (Some (set_next None rb)) h
         else store_attr a (Some (set_next None r))
                (store_attr b (Some (set_next (next r) rb)) h))
        (Some a).
Proof.
  intros Hn Hseg Hnot Ha Hp Hb Hfuel.
  assert (Hnext : next rb = Some a).
  { apply segment_app in Hseg as (mid & _ & Hlast).
    apply segment_head in Hlast as (_ & rb' & Hb' & Hnil).
    rewrite Hb in Hb'. injection Hb' as <-. inversion Hnil; congruence. }
  split; [exact Hnext|].
  assert (Hfirst : same (attr n) (Some a) = false).
  { destruct (l ++ [b]) as [|c l'] eqn:E; [destruct l; discriminate|].
    apply segment_head in Hseg as (-> & _). apply same_neq.
    intros ->. apply Hnot. now left. }
  assert (Hab : a <> b) by (intros ->; apply Hnot; apply in_or_app; right; now left).
  unfold lyd_free_attr. cbn [LY_CHECK_ARG_RET].
  rewrite Ha, Hp, Hn, Hfirst, (find_previous_found h a b l) by assumption.
  rewrite Hb, Hnext.
  destruct recursive; [reflexivity|].
  rewrite attrs_store_other by exact Hab. now rewrite Ha.
Qed.

(** A list with a relinked last attribute. *)
Lemma segment_relinked (h h' : heap) (first rest : option address) (l : list address)
    (b : address) (rb : lyd_attr) (a : address) :
  attr_segment h first (l ++ [b]) (Some a) -> NoDup (l ++ [b]) ->
  attrs h' b = Some (set_next rest rb) ->
  (forall x, In x l -> attrs h' x = attrs h x) ->
  attr_segment h' first (l ++ [b]) rest.
Proof.
  intros Hseg Hnd Hb Hsame.
  apply segment_app in Hseg as (mid & Hl & Hlast).
  apply segment_head in Hlast as (-> & _).
  apply segment_app. exists (Some b). split.
  - now apply (segment_frame h).
  - apply (segment_cons h' b (set_next rest rb)); [exact Hb | constructor].
Qed.

(** X22: [lyd_free_attr] on an attribute of a node's list.  Let the
    attributes linked from the node be [l1 ++ a :: l2], all different,
    and let [a] name the node as its parent.  Without [recursive] the
    call returns, releases [a] alone (its name, its canonized value, then
    the attribute) and leaves the node with the list [l1 ++ l2]; with
    [recursive] it releases [a] and every attribute behind it, in order,
    and leaves the node with the list [l1].  In both cases the
    attributes outside the list are as they were, the attributes of [l1]
    keep their parent, name and value, and no other node is touched. *)
Theorem attribute_removed_from_list (h : heap) (p : address) (n : lyd_node)
    (l1 l2 : list address) (a : address) (r : lyd_attr) (fuel : nat) :
  nodes h p = Some n -> attr_list h (attr n) (l1 ++ a :: l2) -> NoDup (l1 ++ a :: l2) ->
  attrs h a = Some r -> parent r = Some p -> (length (l1 ++ a :: l2) < fuel)%nat ->
  (exists h' evs n',
     lyd_free_attr fuel true h (Some a) false = Done (h', evs) /\
     released evs = [a] /\ strings evs = [name r; value_canonized r] /\
     nodes h' p = Some n' /\ attr_list h' (attr n') (l1 ++ l2) /\
     attrs h' a = None /\
     (forall x, ~ In x (l1 ++ [a]) -> attrs h' x = attrs h x) /\
     (forall x rx, In x l1 -> attrs h x = Some rx ->
        exists rx', attrs h' x = Some rx' /\ parent rx' = parent rx /\
                    name rx' = name rx /\ value_canonized rx' = value_canonized rx) /\
     (forall q, q <> p -> nodes h' q = nodes h q)) /\
  (exists h' evs n',
     lyd_free_attr fuel true h (Some a) true = Done (h', evs) /\
     released evs = a :: l2 /\ strings evs = strings_of h (a :: l2) /\
     nodes h' p = Some n' /\ attr_list h' (attr n') l1 /\
     (forall x, In x (a :: l2) -> attrs h' x = None) /\
     (forall x, ~ In x (l1 ++ a :: l2) -> attrs h' x = attrs h x) /\
     (forall x rx, In x l1 -> attrs h x = Some rx ->
        exists rx', attrs h' x = Some rx' /\ parent rx' = parent rx /\
                    name rx' = name rx /\ value_canonized rx' = value_canonized rx) /\
     (forall q, q <> p -> nodes h' q = nodes h q)).
Proof.
  intros Hn Hlist Hnd Ha Hp Hfuel.
  pose proof Hlist as Hsplit. apply segment_app in Hsplit as (mid & Hl1 & Htail).
  pose proof Htail as Hhead. apply segment_head in Hhead as (-> & r' & Ha' & Hl2).
  rewrite Ha in Ha'. injection Ha' as <-.
  assert (Hnd2 : NoDup (a :: l2)) by (apply NoDup_app_remove_l in Hnd; exact Hnd).
  assert (Hnd1 : NoDup l1) by (apply NoDup_app_remove_r in Hnd; exact Hnd).
  assert (Ha1 : ~ In a l1).
  { intros Hin. apply NoDup_remove_2 in Hnd. apply Hnd. apply in_or_app. now left. }
  assert (Ha2 : ~ In a l2) by (inversion Hnd2; assumption).
  assert (Hdisj : forall x, In x l1 -> ~ In x (a :: l2)).
  { intros x H1 H2. revert Hnd. clear - H1 H2. induction l1 as [|c l1 IH]; [contradiction|].
    simpl. intros Hnd. inversion Hnd as [|c' l' Hc Hnd']; subst.
    destruct H1 as [<- | H1]; [apply Hc; apply in_or_app; now right | now apply IH]. }
  rewrite length_app in Hfuel. simpl in Hfuel.
  destruct (list_eq_dec N.eq_dec l1 []) as [-> | Hne].
  - (* [a] is the first attribute of its node *)
    simpl app in *.
    assert (Hfirst : attr n = Some a) by (inversion Hl1; congruence).
    split.
    + rewrite (lyd_free_attr_first h p n a r fuel false) by assumption.
      set (h2 := store_attr a _ _).
      destruct (free_attrs_list [a] h2 (Some a) fuel)
        as (h' & evs & Hfree & Hrel & Hstr & Hgone & Hkept & Hnodes).
      { apply (segment_cons h2 a (set_next None r) []);
          [apply attrs_store_same | constructor]. }
      { repeat constructor. intros []. }
      { simpl. lia. }
      exists h', evs, {| attr := next r |}.
      split; [exact Hfree|]. split; [exact Hrel|].
      split; [rewrite Hstr; unfold strings_of; simpl; now rewrite N.eqb_refl|].
      split; [rewrite Hnodes; simpl; now rewrite N.eqb_refl|].
      split; [|split; [|split; [|split]]].
      * apply (segment_frame h); [exact Hl2|].
        intros x Hx. rewrite Hkept by (intros [<-|[]]; contradiction).
        unfold h2. rewrite attrs_store_other; [reflexivity|]. intros ->. contradiction.
      * apply Hgone. now left.
      * intros x Hx. rewrite Hkept by (intros [<-|[]]; apply Hx; now left).
        unfold h2. rewrite attrs_store_other; [reflexivity|]. intros ->. apply Hx. now left.
      * intros x rx [].
      * intros q Hq. rewrite Hnodes. simpl. apply N.eqb_neq in Hq. now rewrite Hq.
    + rewrite (lyd_free_attr_first h p n a r fuel true) by assumption.
      set (h2 := store_node p _ h).
      destruct (free_attrs_list (a :: l2) h2 (Some a) fuel)
        as (h' & evs & Hfree & Hrel & Hstr & Hgone & Hkept & Hnodes);
        [ apply (segment_frame h); [exact Htail | reflexivity] | exact Hnd2 | simpl; lia | ].
      exists h', evs, {| attr := None |}.
      split; [exact Hfree|]. split; [exact Hrel|]. split; [exact Hstr|].
      split; [rewrite Hnodes; simpl; now rewrite N.eqb_refl|].
      split; [constructor|]. split; [exact Hgone|]. split; [exact Hkept|].
      split; [intros x rx []|].
      intros q Hq. rewrite Hnodes. simpl. apply N.eqb_neq in Hq. now rewrite Hq.
  - (* another attribute stands before [a] *)
    destruct (exists_last Hne) as (l & b & ->).
    assert (Hb1 : In b (l ++ [b])) by (apply in_or_app; right; now left).
    assert (Hab : a <> b) by (intros ->; contradiction).
    assert (Hbl : ~ In b l).
    { intros Hin. apply NoDup_remove_2 in Hnd1. apply Hnd1. now rewrite app_nil_r. }
    assert (Hb2 : ~ In b (a :: l2)) by now apply Hdisj.
    pose proof Hl1 as Hlast. apply segment_app in Hlast as (mid & _ & Hlast).
    apply segment_head in Hlast as (_ & rb & Hb & _).
    rewrite length_app in Hfuel. simpl in Hfuel.
    assert (Hkeep : forall (h' : heap) rest,
              attrs h' b = Some (set_next rest rb) ->
              (forall x, x <> a -> x <> b -> attrs h' x = attrs h x) ->
              forall x rx, In x (l ++ [b]) -> attrs h x = Some rx ->
                exists rx', attrs h' x = Some rx' /\ parent rx' = parent rx /\
                            name rx' = name rx /\ value_canonized rx' = value_canonized rx).
    { intros h' rest Hb' Hsame x rx Hx Hrx.
      destruct (N.eq_dec x b) as [-> | Hxb].
      - rewrite Hb in Hrx. injection Hrx as <-. exists (set_next rest rb). auto.
      - exists rx. rewrite Hsame; auto. intros ->. contradiction. }
    split.
    + destruct (lyd_free_attr_inner h p n a b r rb l fuel false) as [Hnext ->];
        try assumption; [unfold address in *; lia|].
      set (h1 := store_attr b _ h). set (h2 := store_attr a _ h1).
      destruct (free_attrs_list [a] h2 (Some a) fuel)
        as (h' & evs & Hfree & Hrel & Hstr & Hgone & Hkept & Hnodes).
      { apply (segment_cons h2 a (set_next None r) []);
          [apply attrs_store_same | constructor]. }
      { repeat constructor. intros []. }
      { simpl. lia. }
      assert (Hother : forall x, x <> a -> x <> b -> attrs h' x = attrs h x).
      { intros x Hxa Hxb. rewrite Hkept by (intros [<-|[]]; contradiction).
        unfold h2, h1. now rewrite !attrs_store_other. }
      assert (Hb' : attrs h' b = Some (set_next (next r) rb)).
      { rewrite Hkept by (intros [E|[]]; congruence).
        unfold h2, h1. rewrite attrs_store_other by congruence. apply attrs_store_same. }
      exists h', evs, n.
      split; [exact Hfree|]. split; [exact Hrel|].
      split; [rewrite Hstr; unfold strings_of, h2; simpl; now rewrite N.eqb_refl|].
      split; [now rewrite Hnodes|].
      split; [|split; [|split; [|split]]].
      * apply segment_app. exists (next r). split.
        -- apply (segment_relinked h h' (attr n) (next r) l b rb a);
             [exact Hl1 | exact Hnd1 | exact Hb' |].
           intros x Hx. apply Hother; [|intros ->; contradiction].
           intros ->. apply Ha1. apply in_or_app. now left.
        -- apply (segment_frame h); [exact Hl2|].
           intros x Hx. apply Hother; [intros ->; contradiction|].
           intros ->. apply Hb2. now right.
      * apply Hgone. now left.
      * intros x Hx. apply Hother.
        -- intros ->. apply Hx. apply in_or_app. right. now left.
        -- intros ->. apply Hx. apply in_or_app. now left.
      * now apply (Hkeep h' (next r)).
      * intros q Hq. now rewrite Hnodes.
    + destruct (lyd_free_attr_inner h p n a b r rb l fuel true) as [Hnext ->];
        try assumption; [unfold address in *; lia|].
      set (h1 := store_attr b _ h).
      destruct (free_attrs_list (a :: l2) h1 (Some a) fuel)
        as (h' & evs & Hfree & Hrel & Hstr & Hgone & Hkept & Hnodes);
        [ apply (segment_frame h); [exact Htail|];
          intros x Hx; apply attrs_store_other; intros ->; contradiction
        | exact Hnd2 | simpl; unfold address in *; lia | ].
      assert (Hother : forall x, ~ In x (a :: l2) -> x <> b -> attrs h' x = attrs h x).
      { intros x Hx Hxb. rewrite Hkept by exact Hx. unfold h1. now apply attrs_store_other. }
      assert (Hb' : attrs h' b = Some (set_next None rb)).
      { rewrite Hkept by exact Hb2. apply attrs_store_same. }
      exists h', evs, n.
      split; [exact Hfree|]. split; [exact Hrel|].
      split; [rewrite Hstr; apply strings_of_frame;
              intros x Hx; apply attrs_store_other; intros ->; contradiction|].
      split; [now rewrite Hnodes|].
      split; [|split; [|split; [|split]]].
      * apply (segment_relinked h h' (attr n) None l b rb a);
          [exact Hl1 | exact Hnd1 | exact Hb' |].
        intros x Hx. apply Hother; [|intros ->; contradiction].
        apply Hdisj. apply in_or_app. now left.
      * exact Hgone.
      * intros x Hx. apply Hother.
        -- intros Hin. apply Hx. apply in_or_app. now right.
        -- intros ->. apply Hx. apply in_or_app. now left.
      * intros x rx Hx Hrx.
        destruct (N.eq_dec x b) as [-> | Hxb].
        -- rewrite Hb in Hrx. injection Hrx as <-. exists (set_next None rb). auto.
        -- exists rx. rewrite Hother; auto.
      * intros q Hq. now rewrite Hnodes.
Qed.

(** X23: [lyd_free_attr] at the edges.  Without a context, or for the
    null attribute, the call does nothing.  On a released attribute it
    is undefined, so a second release of an attribute is.  On an
    attribute that names a node as its parent without being in that
    node's list, the search for the attribute before it runs off the end
    of the list: undefined.  On an attribute without a parent no node is
    touched: with [recursive] the call releases the attribute and all
    that are linked behind it, without it the attribute alone, and the
    ones behind it stay as they were. *)
Theorem attribute_release_edges (h : heap) (fuel : nat) :
  (forall attribute recursive, lyd_free_attr fuel false h attribute recursive = Done (h, [])) /\
  (forall ctx recursive, lyd_free_attr fuel ctx h None recursive = Done (h, [])) /\
  (forall a recursive,
     attrs h a = None -> lyd_free_attr fuel true h (Some a) recursive = Undefined) /\
  (forall p n l a r recursive,
     nodes h p = Some n -> attr_list h (attr n) l -> ~ In a l ->
     attrs h a = Some r -> parent r = Some p -> (length l < fuel)%nat ->
     lyd_free_attr fuel true h (Some a) recursive = Undefined) /\
  (forall a r l,
     attrs h a = Some r -> parent r = None ->
     attr_list h (Some a) (a :: l) -> NoDup (a :: l) -> (length l < fuel)%nat ->
     (exists h' evs,
        lyd_free_attr fuel true h (Some a) true = Done (h', evs) /\
        released evs = a :: l /\ nodes h' = nodes h /\
        (forall x, In x (a :: l) -> attrs h' x = None) /\
        (forall x, ~ In x (a :: l) -> attrs h' x = attrs h x)) /\
     (exists h' evs,
        lyd_free_attr fuel true h (Some a) false = Done (h', evs) /\
        released evs = [a] /\ nodes h' = nodes h /\
        attrs h' a = None /\ attr_list h' (next r) l /\
        (forall x, x <> a -> attrs h' x = attrs h x))).
Proof.
  split; [reflexivity|]. split; [intros []; reflexivity|]. split; [|split].
  - intros a recursive Ha. unfold lyd_free_attr. cbn [LY_CHECK_ARG_RET]. now rewrite Ha.
  - intros p n l a r recursive Hn Hlist Hnot Ha Hp Hfuel.
    unfold lyd_free_attr. cbn [LY_CHECK_ARG_RET]. rewrite Ha, Hp, Hn.
    assert (Hfirst : same (attr n) (Some a) = false).
    { destruct l as [|c l'].
      - assert (E : attr n = None) by (inversion Hlist; congruence). now rewrite E.
      - apply segment_head in Hlist as (-> & _). apply same_neq.
        intros ->. apply Hnot. now left. }
    rewrite Hfirst, (find_previous_absent h a l) by assumption. reflexivity.
  - intros a r l Ha Hp Hlist Hnd Hfuel.
    pose proof Hlist as Hhead. apply segment_head in Hhead as (_ & r' & Ha' & Hl).
    rewrite Ha in Ha'. injection Ha' as <-.
    assert (Hal : ~ In a l) by (inversion Hnd; assumption).
    split.
    + unfold lyd_free_attr. cbn [LY_CHECK_ARG_RET]. rewrite Ha, Hp.
      destruct (free_attrs_list (a :: l) h (Some a) fuel)
        as (h' & evs & Hfree & Hrel & _ & Hgone & Hkept & Hnodes);
        [exact Hlist | exact Hnd | simpl; lia |].
      exists h', evs. auto.
    + unfold lyd_free_attr. cbn [LY_CHECK_ARG_RET]. rewrite Ha, Hp, Ha.
      set (h2 := store_attr a _ h).
      destruct (free_attrs_list [a] h2 (Some a) fuel)
        as (h' & evs & Hfree & Hrel & _ & Hgone & Hkept & Hnodes).
      { apply (segment_cons h2 a (set_next None r) []);
          [apply attrs_store_same | constructor]. }
      { repeat constructor. intros []. }
      { simpl. lia. }
      assert (Hother : forall x, x <> a -> attrs h' x = attrs h x).
      { intros x Hx. rewrite Hkept by (intros [E|[]]; congruence).
        now apply attrs_store_other. }
      exists h', evs. split; [exact Hfree|]. split; [exact Hrel|].
      split; [exact Hnodes|]. split; [apply Hgone; now left|]. split; [|exact Hother].
      apply (segment_frame h); [exact Hl|].
      intros x Hx. apply Hother. intros ->. contradiction.
Qed.

End Attributes.

(** The theorem at the node with the attributes at 10, 11 and 12: the
    release of the one at 11 leaves the node with the list of 10 and 12. *)
Lemma attribute_removed_from_list_witness :
  exists h' evs n',
    Tree.lyd_free_attr 4 true Tree.three_attributes (Some 11) false = Done (h', evs) /\
    Tree.released evs = [11] /\
    Tree.strings evs = [Some "b"%string; None] /\
    Tree.nodes h' 1 = Some n' /\ Tree.attr_list h' (Tree.attr n') ([10] ++ [12]) /\
    Tree.attrs h' 11 = None.
Proof.
  destruct (proj1 (attribute_removed_from_list Tree.three_attributes 1
                     {| Tree.attr := Some 10 |} [10] [12] 11
                     {| Tree.parent := Some 1; Tree.next := Some 12;
                        Tree.name := Some "b"%string; Tree.value_canonized := None |}
                     4 eq_refl
                     (Tree.segment_cons Tree.three_attributes 10 _ _ None eq_refl
                        (Tree.segment_cons Tree.three_attributes 11 _ _ None eq_refl
                           (Tree.segment_cons Tree.three_attributes 12 _ _ None eq_refl
                              (Tree.segment_nil Tree.three_attributes None))))
                     ltac:(repeat constructor; simpl; intuition discriminate)
                     eq_refl eq_refl ltac:(simpl; lia)))
    as (h' & evs & n' & H1 & H2 & H3 & H4 & H5 & H6 & _).
  exists h', evs, n'. auto 10.
Defined.

(** The theorem at the same node: the attribute at 11 is released twice,
    and the second release is undefined. *)
Lemma attribute_release_edges_witness :
  Tree.lyd_free_attr 4 true (Tree.store_attr 11 None Tree.three_attributes) (Some 11) false
    = Undefined.
Proof.
  apply (proj1 (proj2 (proj2 (attribute_release_edges
                                (Tree.store_attr 11 None Tree.three_attributes) 4)))).
  reflexivity.
Defined.

(** * Unlinking a node from its siblings *)

Section Unlink.

Import Node.

Variable lyd_node_children_p : option address -> action (option address).

Lemma update_same (a : address) (r : lyd_node) (f : address -> option lyd_node) :
  update a r f a = Some r.
Proof. unfold update. now rewrite N.eqb_refl. Qed.

Lemma update_other (a x : address) (r : lyd_node) (f : address -> option lyd_node) :
  x <> a -> update a r f x = f x.
Proof. intros H. unfold update. apply N.eqb_neq in H. now rewrite H. Qed.

Lemma siblings_frame (f g : address -> option lyd_node) (par before first after : option address)
    (l : list address) :
  (forall x, In x l -> g x = f x) ->
  segment f par before first l after -> segment g par before first l after.
Proof.
  intros Hfg Hs. induction Hs as [|before x r l after Hx Hp Hb Hs IH].
  - constructor.
  - apply segment_cons with (r := r); auto.
    + rewrite Hfg; [exact Hx | now left].
    + apply IH. intros y Hy. apply Hfg. now right.
Qed.

Lemma siblings_update (f : address -> option lyd_node) (par before first after : option address)
    (l : list address) (a : address) (r : lyd_node) :
  ~ In a l ->
  segment f par before first l after -> segment (update a r f) par before first l after.
Proof.
  intros Ha. apply siblings_frame. intros x Hx. apply update_other.
  intros ->. contradiction.
Qed.

Lemma siblings_first (f : address -> option lyd_node) (par before first after : option address)
    (l : list address) :
  segment f par before first l after ->
  first = match l with [] => after | x :: _ => Some x end.
Proof. intros Hs. destruct Hs; reflexivity. Qed.

Lemma last_default (y d d' : address) (l : list address) :
  last (y :: l) d = last (y :: l) d'.
Proof.
  revert y. induction l as [|z l IH]; intros y; [reflexivity|].
  change (last (z :: l) d = last (z :: l) d'). apply IH.
Qed.

Lemma last_of_cons (before : option address) (x : address) (l : list address) :
  last_of before (x :: l) = last_of (Some x) l.
Proof.
  destruct l as [|y l]; [reflexivity|]. cbn [last_of]. f_equal.
  change (last (y :: l) x = last (y :: l) y). apply last_default.
Qed.

Lemma last_of_app (before : option address) (l1 l2 : list address) :
  last_of before (l1 ++ l2) = last_of (last_of before l1) l2.
Proof.
  revert before. induction l1 as [|x l1 IH]; intros before.
  - reflexivity.
  - change ((x :: l1) ++ l2) with (x :: (l1 ++ l2)). now rewrite !last_of_cons, IH.
Qed.

Lemma siblings_app (f : address -> option lyd_node) (par before first after : option address)
    (l1 l2 : list address) :
  segment f par before first (l1 ++ l2) after <->
  exists mid, segment f par before first l1 mid /\
              segment f par (last_of before l1) mid l2 after.
Proof.
  revert before first. induction l1 as [|x l1 IH]; intros before first.
  - split.
    + intros Hs. exists first. split; [constructor | exact Hs].
    + intros (mid & H1 & H2). inversion H1; subst. exact H2.
  - split.
    + intros Hs. inversion Hs as [|? ? r ? ? Hx Hp Hb Hrest]; subst.
      apply IH in Hrest as (mid & H1 & H2). exists mid. split.
      * now apply segment_cons with (r := r).
      * now rewrite last_of_cons.
    + intros (mid & H1 & H2). inversion H1 as [|? ? r ? ? Hx Hp Hb Hrest]; subst.
      cbn [app]. apply segment_cons with (r := r); auto.
      apply IH. exists mid. split; [exact Hrest | now rewrite <- last_of_cons with (before := prev r)].
Qed.

(** The last node's [next], replaced. *)
Lemma siblings_set_next (f : address -> option lyd_node) (par before first after after' : option address)
    (l : list address) (b : address) (rb : lyd_node) :
  NoDup (l ++ [b]) -> f b = Some rb ->
  segment f par before first (l ++ [b]) after ->
  segment (update b (set_next after' rb) f) par before first (l ++ [b]) after'.
Proof.
  intros Hnd Hb Hs. apply siblings_app in Hs as (mid & H1 & H2).
  apply siblings_app. exists mid. split.
  - apply siblings_update; [|exact H1].
    intros Hin. apply NoDup_remove_2 in Hnd. rewrite app_nil_r in Hnd. contradiction.
  - inversion H2 as [|? ? r ? ? Hx Hp Hpv Hrest]; subst.
    assert (r = rb) by congruence. subst r.
    apply segment_cons with (r := set_next after' rb); auto.
    + apply update_same.
    + cbn. constructor.
Qed.

(** The first node's [prev], replaced. *)
Lemma siblings_set_prev (f : address -> option lyd_node) (par before before' after : option address)
    (l : list address) (c : address) (rc : lyd_node) :
  NoDup (c :: l) -> f c = Some rc ->
  segment f par before (Some c) (c :: l) after ->
  segment (update c (set_prev before' rc) f) par before' (Some c) (c :: l) after.
Proof.
  intros Hnd Hc Hs. inversion Hs as [|? ? r ? ? Hx Hp Hpv Hrest]; subst.
  assert (r = rc) by congruence. subst r.
  apply segment_cons with (r := set_prev before' rc); auto.
  - apply update_same.
  - cbn. apply siblings_update; [|exact Hrest]. now inversion Hnd.
Qed.

(** What the list of siblings says of one of them. *)
Lemma siblings_at (f : address -> option lyd_node) (par : option address)
    (l1 l2 : list address) (n : address) :
  siblings f par (l1 ++ n :: l2) ->
  exists cn,
    f n = Some {| parent := par; next := hd_error l2;
                  prev := last_of (Some (last (n :: l2) n)) l1; child := cn |} /\
    segment f par (Some (last (n :: l2) n)) (hd_error (l1 ++ n :: l2)) l1 (Some n) /\
    segment f par (Some n) (hd_error l2) l2 None.
Proof.
  intros (Hnd & _ & Hs). rewrite last_of_app in Hs. cbn [last_of] in Hs.
  apply siblings_app in Hs as (mid & H1 & H2).
  inversion H2 as [|? ? r ? ? Hx Hp Hpv Hrest]; subst.
  pose proof (siblings_first _ _ _ _ _ _ Hrest) as Hnext.
  destruct r as [rp rn rv rc]. cbn [parent next prev] in *. subst rn rv.
  exists rc. split; [|split].
  - exact Hx.
  - exact H1.
  - destruct l2; exact Hrest.
Qed.

Ltac exec :=
  repeat (cbn [nodes unlinked parent next prev child
               set_next set_prev set_parent set_child same negb EXIT_SUCCESS];
          repeat first [ rewrite update_same
                       | rewrite update_other by (assumption || (apply not_eq_sym; assumption))
                       | rewrite N.eqb_refl
                       | match goal with
                         | H : forall m, ?c ?x m = Done _ |- context [?c ?x _] => rewrite H
                         | H : ?f ?x = Some _ |- context [?f ?x] => rewrite H
                         | H : ?x <> ?y |- context [?x =? ?y] => rewrite (proj2 (N.eqb_neq x y) H)
                         | H : ?y <> ?x |- context [?x =? ?y] => rewrite (proj2 (N.eqb_neq x y) (not_eq_sym H))
                         end ]).

Ltac start := unfold lyd_unlink_tree, bind, read, write, ret, lyd_unlink_hash.

Lemma NoDup_app_neq (l1 l2 : list address) (a b : address) :
  NoDup (l1 ++ l2) -> In a l1 -> In b l2 -> a <> b.
Proof.
  intros Hnd Ha Hb ->. induction l1 as [|x l1 IH]; [contradiction|].
  cbn [app] in Hnd. inversion Hnd as [|? ? Hx Hnd']; subst. destruct Ha as [->|Ha].
  - apply Hx. apply in_or_app. now right.
  - now apply IH.
Qed.

Lemma siblings_last (f : address -> option lyd_node) (par before first : option address)
    (l : list address) (x : address) :
  segment f par before first (x :: l) None ->
  exists pz vz cz,
    f (last (x :: l) x) = Some {| parent := pz; next := None; prev := vz; child := cz |}.
Proof.
  revert before first x. induction l as [|y l IH]; intros before first x Hs.
  - inversion Hs as [|? ? r ? ? Hx Hp Hpv Hrest]; subst. inversion Hrest; subst.
    destruct r as [pz nz vz cz]. cbn [next] in *. subst nz. now exists pz, vz, cz.
  - inversion Hs as [|? ? r ? ? Hx Hp Hpv Hrest]; subst.
    pose proof (siblings_first _ _ _ _ _ _ Hrest) as Hnext. rewrite Hnext in Hrest.
    apply IH in Hrest as (pz & vz & cz & Hz). exists pz, vz, cz.
    change (last (x :: y :: l) x) with (last (y :: l) x).
    now rewrite (last_default y x y).
Qed.

Lemma first_from_found (g : address -> option lyd_node) (u : list address)
    (par first after : option address) (n : address) (l : list address) (fuel : nat) :
  segment g par (Some n) first l after -> l <> [] -> ~ In n l -> (length l <= fuel)%nat ->
  first_from fuel (last_of None l) n {| nodes := g; unlinked := u |} =
  Done (hd_error l, {| nodes := g; unlinked := u |}).
Proof.
  revert fuel first after. induction l as [|b l IH] using rev_ind; intros fuel first after Hs Hne Hn Hfuel.
  - congruence.
  - rewrite length_app in Hfuel. cbn [length] in Hfuel.
    destruct fuel as [|fuel]; [lia|].
    apply siblings_app in Hs as (mid & H1 & H2).
    inversion H2 as [|? ? r ? ? Hx Hp Hpv Hrest]; subst.
    rewrite last_of_app. cbn [last_of last first_from]. unfold bind at 1, read at 1.
    cbn [nodes]. rewrite Hx. rewrite Hpv.
    destruct l as [|x l].
    + cbn [last_of same app hd_error]. rewrite N.eqb_refl. reflexivity.
    + cbn [last_of same]. 
      assert (Hneq : last (x :: l) x <> n).
      { intros E. apply Hn. apply in_or_app. left. rewrite <- E.
        destruct (@exists_last _ (x :: l)) as (l' & a & El); [discriminate|].
        rewrite El at 1. rewrite last_last. rewrite El. apply in_or_app. right. now left. }
      apply N.eqb_neq in Hneq. rewrite Hneq. cbn [negb].
      change (Some (last (x :: l) x)) with (last_of None (x :: l)).
      rewrite (IH fuel first (Some b)); [reflexivity| exact H1 | discriminate | | cbn [length] in *; lia].
      intros Hin. apply Hn. apply in_or_app. now left.
Qed.

Lemma first_from_last (g : address -> option lyd_node) (u : list address)
    (par first after : option address) (n b : address) (l : list address) (fuel : nat) :
  segment g par (Some n) first (l ++ [b]) after -> ~ In n (l ++ [b]) ->
  (length (l ++ [b]) <= fuel)%nat ->
  first_from fuel (Some b) n {| nodes := g; unlinked := u |} =
  Done (hd_error (l ++ [b]), {| nodes := g; unlinked := u |}).
Proof.
  intros Hs Hn Hfuel.
  rewrite <- (first_from_found g u par first after n (l ++ [b]) fuel Hs); auto.
  - rewrite last_of_app. reflexivity.
  - intros E. now apply app_eq_nil in E as [_ E].
Qed.

Ltac in_list := rewrite ?in_app_iff in *; cbn [In app] in *; rewrite ?in_app_iff in *; tauto.

Lemma hd_error_app (l l' : list address) (b : address) :
  exists x, hd_error ((l ++ [b]) ++ l') = Some x /\ In x (l ++ [b]).
Proof. destruct l as [|x l]; [exists b | exists x]; cbn; auto. Qed.

Lemma NoDup_app_notin (l1 l2 : list address) (a : address) :
  NoDup (l1 ++ l2) -> (In a l2 -> ~ In a l1) /\ (In a l1 -> ~ In a l2).
Proof.
  intros Hnd. split; intros H2 H1.
  - now apply (NoDup_app_neq _ _ a a Hnd).
  - now apply (NoDup_app_neq _ _ a a Hnd).
Qed.

(** The nodes before and after the one unlinked, linked to each other. *)
Lemma siblings_bridge (f g : address -> option lyd_node) (par before first : option address)
    (l1 l2 : list address) (b c n : address) (rb rc : lyd_node) :
  NoDup ((l1 ++ [b]) ++ c :: l2) ->
  segment f par before first (l1 ++ [b]) (Some n) ->
  segment f par (Some n) (Some c) (c :: l2) None ->
  f b = Some rb -> f c = Some rc ->
  (forall x, In x ((l1 ++ [b]) ++ c :: l2) ->
     g x = update c (set_prev (Some b) rc) (update b (set_next (Some c) rb) f) x) ->
  segment g par before first ((l1 ++ [b]) ++ c :: l2) None.
Proof.
  intros Hnd H1 H2 Hb Hc Hg.
  destruct (NoDup_app_notin _ _ c Hnd) as (Hc1 & _).
  destruct (NoDup_app_notin _ _ b Hnd) as (_ & Hb2).
  apply (siblings_frame _ _ _ _ _ _ _ Hg).
  apply siblings_app. exists (Some c). split.
  - apply siblings_update; [apply Hc1; now left|].
    apply siblings_set_next with (after := Some n); auto.
    now apply NoDup_app_remove_r in Hnd.
  - rewrite last_of_app. cbn [last_of last].
    apply siblings_set_prev with (before := Some n).
    + now apply NoDup_app_remove_l in Hnd.
    + rewrite update_other; [exact Hc|]. intros ->. apply Hc1; [now left | in_list].
    + apply siblings_update; [apply Hb2; in_list | exact H2].
Qed.

(** The node alone. *)
Ltac lone :=
  split; [repeat constructor; intros [] | split; [discriminate|]];
  eapply segment_cons; [exec; reflexivity | reflexivity | reflexivity | constructor].

(** The [child] members stay. *)
Ltac kept f x r Hr :=
  repeat match goal with
         | |- context [update ?a _ _ x] =>
             first [ rewrite (update_other a x) by congruence
                   | destruct (N.eq_dec x a) as [->|?];
                     [ rewrite update_same; eexists; split; [reflexivity|];
                       cbn [child set_next set_prev set_parent set_child];
                       match goal with
                       | H : f a = Some ?R |- _ =>
                           rewrite H in Hr; injection Hr as <-; reflexivity
                       end
                     | rewrite (update_other a x) by assumption ] ]
         end;
  try (exists r; split; [exact Hr | reflexivity]).

(** The other nodes stay. *)
Ltac framed x Hx Hpx :=
  repeat match goal with
         | |- context [update ?a _ _ x] =>
             rewrite (update_other a x)
               by (intros ->; first [apply Hx; in_list | now apply Hpx])
         end;
  reflexivity.

(** The nodes before the last one, unlinked: the ring closed again. *)
Lemma siblings_close (f g : address -> option lyd_node) (par first : option address)
    (l1 : list address) (b n x0 : address) (rb r0 : lyd_node) :
  NoDup (l1 ++ [b]) ->
  segment f par (Some n) first (l1 ++ [b]) (Some n) ->
  f b = Some rb ->
  hd_error (l1 ++ [b]) = Some x0 ->
  update b (set_next None rb) f x0 = Some r0 ->
  (forall x, In x (l1 ++ [b]) ->
     g x = update x0 (set_prev (Some b) r0) (update b (set_next None rb) f) x) ->
  segment g par (Some b) first (l1 ++ [b]) None.
Proof.
  intros Hnd H1 Hb Hhd H0 Hg.
  apply (siblings_frame _ _ _ _ _ _ _ Hg).
  apply (siblings_set_next _ _ _ _ _ None _ _ _ Hnd Hb) in H1.
  pose proof (siblings_first _ _ _ _ _ _ H1) as Hfirst.
  destruct (l1 ++ [b]) as [|x l] eqn:El; [discriminate|].
  injection Hhd as ->. subst first.
  now apply siblings_set_prev with (before := Some n).
Qed.

Ltac others x Hx :=
  repeat match goal with
         | |- context [update ?a _ _ x] =>
             rewrite (update_other a x) by (intros ->; revert Hx; in_list)
         end.

(** X24: [lyd_unlink_tree] on a node [n] of a list of siblings
    [l1 ++ n :: l2], under a parent or at the top level.  The call
    returns success.  The node is left as the only one of a list of its
    own, without a parent, and the siblings left, if any, are again a
    list in order: the node before [n] and the one after it are linked to
    each other, the first one points back to the last one.  The parent's
    [child] member points to the first sibling left, or to nothing when
    there is none left, and [lyd_unlink_hash] is called once, for [n]; at
    the top level it is not called.  Every node keeps its own [child]
    member, and the nodes that are neither siblings nor the parent stay
    as they were.  At the top level the search for the first sibling
    needs [fuel] for the nodes before [n]. *)
Theorem node_unlinked_from_siblings f u par l1 n l2 fuel :
  siblings f par (l1 ++ n :: l2) ->
  children_of lyd_node_children_p f par (l1 ++ n :: l2) ->
  (par = None -> (length l1 < fuel)%nat) ->
  exists f',
    lyd_unlink_tree lyd_node_children_p fuel (Some n) {| nodes := f; unlinked := u |} =
      Done (LY_SUCCESS,
            {| nodes := f';
               unlinked := match par with Some _ => u ++ [n] | None => u end |}) /\
    siblings f' None [n] /\
    (l1 ++ l2 <> [] -> siblings f' par (l1 ++ l2)) /\
    (forall p r, par = Some p -> f p = Some r ->
       f' p = Some (set_child (hd_error (l1 ++ l2)) r)) /\
    (forall x r, par <> Some x -> f x = Some r ->
       exists r', f' x = Some r' /\ child r' = child r) /\
    (forall x, ~ In x (l1 ++ n :: l2) -> par <> Some x -> f' x = f x).
Proof.
  intros Hs Hch Hfuel. pose proof Hs as (Hnd & _ & _).
  pose proof (NoDup_remove_1 _ _ _ Hnd) as Hnd'.
  pose proof (NoDup_remove_2 _ _ _ Hnd) as Hnotin.
  destruct (siblings_at _ _ _ _ _ Hs) as (cn & Hn & H1 & H2).
  assert (Hparent : match par with
                    | Some p => p <> n /\ ~ In p l1 /\ ~ In p l2 /\
                                (exists pp pn pv, f p = Some {| parent := pp; next := pn; prev := pv;
                                                     child := hd_error (l1 ++ n :: l2) |}) /\
                                forall m, lyd_node_children_p (Some p) m = Done (Some p, m)
                    | None => True
                    end).
  { destruct par as [p|]; [|exact I]. destruct Hch as (Hp & (r & Hr & Hc) & Hch).
    repeat split; try (intros Hin; apply Hp; subst; in_list); [|exact Hch].
    destruct r as [pp pn pv pc]. cbn [child] in Hc. subst pc. now exists pp, pn, pv. }
  destruct l1 as [|b l1 _] using rev_ind; destruct l2 as [|c l2].
  - (* the only one *)
    cbn [last_of last hd_error app] in *.
    destruct par as [p|].
    + destruct Hparent as (Hpn & _ & _ & (pp & pn & pv & Hp) & Hchildren).
      eexists. split; [start; exec; reflexivity|].
      split; [lone | split; [congruence | split; [|split]]].
      * intros p0 r [= <-] Hr. rewrite Hp in Hr. injection Hr as <-. exec. reflexivity.
      * intros x r Hx Hr. kept f x r Hr.
      * intros x Hx Hpx. framed x Hx Hpx.
    + destruct fuel as [|fuel]; [specialize (Hfuel eq_refl); cbn in Hfuel; lia|].
      eexists. split; [start; cbn [first_from]; start; exec; reflexivity|].
      split; [lone | split; [congruence | split; [discriminate|split]]].
      * intros x r Hx Hr. kept f x r Hr.
      * intros x Hx Hpx. framed x Hx Hpx.
  - (* the first one *)
    cbn [last_of hd_error app] in *.
    change (last (n :: c :: l2) n) with (last (c :: l2) n) in *.
    rewrite (last_default c n c) in *.
    destruct (siblings_last _ _ _ _ _ _ H2) as (pz & vz & cz & Hz).
    set (z := last (c :: l2) c) in *.
    assert (Hsc : siblings f par ([n] ++ c :: l2)) by exact Hs.
    destruct (siblings_at _ _ _ _ _ Hsc) as (cc & Hc & _ & _).
    cbn [last_of last hd_error] in Hc.
    assert (Hcn : c <> n) by (intros ->; apply Hnotin; in_list).
    assert (Hrest : forall g, (forall x, In x (c :: l2) -> g x =
                       update c (set_prev (Some z)
                         {| parent := par; next := hd_error l2; prev := Some n; child := cc |}) f x) ->
                     siblings g par (c :: l2)).
    { intros g Hg. split; [exact Hnd' | split; [discriminate|]].
      apply (siblings_frame _ _ _ _ _ _ _ Hg).
      now apply siblings_set_prev with (before := Some n). }
    destruct par as [p|].
    + destruct Hparent as (Hpn & _ & Hp2 & (pp & pn & pv & Hp) & Hchildren).
      assert (Hpc : p <> c) by (intros ->; apply Hp2; now left).
      eexists. split; [start; exec; reflexivity|].
      split; [lone | split; [|split; [|split]]].
      * intros _. apply Hrest. intros x Hx.
        assert (x <> n) by (intros ->; contradiction).
        assert (x <> p) by (intros ->; contradiction).
        now rewrite !update_other by assumption.
      * intros p0 r [= <-] Hr. rewrite Hp in Hr. injection Hr as <-. exec. reflexivity.
      * intros x r Hx Hr. kept f x r Hr.
      * intros x Hx Hpx. framed x Hx Hpx.
    + eexists. split; [start; exec; reflexivity|].
      split; [lone | split; [|split; [discriminate|split]]].
      * intros _. apply Hrest. intros x Hx.
        assert (x <> n) by (intros ->; contradiction).
        now rewrite !update_other by assumption.
      * intros x r Hx Hr. kept f x r Hr.
      * intros x Hx Hpx. framed x Hx Hpx.
  - (* the last one *)
    rewrite app_nil_r in *.
    rewrite last_of_app in Hn. cbn [last_of last hd_error] in Hn, H1.
    assert (Hsb : siblings f par (l1 ++ [b; n])) by (now rewrite <- app_assoc in Hs).
    destruct (siblings_at _ _ _ _ _ Hsb) as (cb & Hb & _ & _). cbn [hd_error last] in Hb.
    assert (Hbn : b <> n) by (intros ->; apply Hnotin; in_list).
    assert (Hhd : hd_error ((l1 ++ [b]) ++ [n]) = hd_error (l1 ++ [b])) by (now destruct l1).
    rewrite Hhd in *.
    assert (Hrest : forall g x0 r0, hd_error (l1 ++ [b]) = Some x0 ->
                      update b (set_next None
                        {| parent := par; next := Some n;
                           prev := last_of (Some n) l1; child := cb |}) f x0 = Some r0 ->
                      (forall x, In x (l1 ++ [b]) -> g x =
                         update x0 (set_prev (Some b) r0)
                           (update b (set_next None
                              {| parent := par; next := Some n;
                                 prev := last_of (Some n) l1; child := cb |}) f) x) ->
                      siblings g par (l1 ++ [b])).
    { intros g x0 r0 Hx0 Hr0 Hg. split; [exact Hnd' | split; [now destruct l1|]].
      rewrite last_of_app. cbn [last_of last]. rewrite Hx0 in *.
      exact (siblings_close f g par (Some x0) l1 b n x0 _ r0 Hnd' H1 Hb Hx0 Hr0 Hg). }
    destruct l1 as [|x0 l1].
    + (* after the first one *)
      cbn [app last_of hd_error length] in *.
      destruct par as [p|].
      * destruct Hparent as (Hpn & _ & _ & (pp & pn & pv & Hp) & Hchildren).
        assert (Hpb : p <> b) by (intros ->; apply Hch; now left).
        eexists. split; [start; exec; reflexivity|].
        split; [lone | split; [|split; [|split]]].
        -- intros _. eapply Hrest; [reflexivity | apply update_same |].
           intros x Hx. others x Hx. reflexivity.
        -- intros p0 r [= <-] Hr. rewrite Hp in Hr. injection Hr as <-. exec. reflexivity.
        -- intros x r Hx Hr. kept f x r Hr.
        -- intros x Hx Hpx. framed x Hx Hpx.
      * destruct fuel as [|fuel]; [specialize (Hfuel eq_refl); cbn in Hfuel; lia|].
        eexists. split; [start; cbn [first_from]; start; exec; reflexivity|].
        split; [lone | split; [|split; [discriminate|split]]].
        -- intros _. eapply Hrest; [reflexivity | apply update_same |].
           intros x Hx. others x Hx. reflexivity.
        -- intros x r Hx Hr. kept f x r Hr.
        -- intros x Hx Hpx. framed x Hx Hpx.
    + (* further on *)
      assert (Hs0 : siblings f par ([] ++ x0 :: l1 ++ [b; n])).
      { cbn [app]. now rewrite <- app_assoc in Hs. }
      destruct (siblings_at _ _ _ _ _ Hs0) as (c0 & H0 & _ & _).
      cbn [last_of] in H0.
      assert (H0n : x0 <> n) by (intros ->; apply Hnotin; in_list).
      assert (H0b : x0 <> b).
      { intros ->. apply NoDup_remove_2 in Hnd'. apply Hnd'. cbn [app]. in_list. }
      cbn [hd_error app] in Hrest.
      destruct par as [p|].
      * destruct Hparent as (Hpn & Hp1 & _ & (pp & pn & pv & Hp) & Hchildren).
        assert (Hpb : p <> b) by (intros ->; apply Hp1; in_list).
        assert (Hp0 : p <> x0) by (intros ->; apply Hp1; in_list).
        cbn [hd_error app] in Hp.
        eexists. split; [start; exec; reflexivity|].
        split; [lone | split; [|split; [|split]]].
        -- intros _. eapply Hrest; [reflexivity | rewrite update_other by assumption; exact H0 |].
           intros x Hx. others x Hx. reflexivity.
        -- intros p0 r [= <-] Hr. rewrite Hp in Hr. injection Hr as <-. exec. reflexivity.
        -- intros x r Hx Hr. kept f x r Hr.
        -- intros x Hx Hpx. framed x Hx Hpx.
      * eexists. split.
        { start. exec.
          erewrite (first_from_last _ _ None (Some x0) None n b (x0 :: l1)).
          - cbn [hd_error app]. exec. reflexivity.
          - apply siblings_set_next with (after := Some n); [exact Hnd' | exact Hb | exact H1].
          - exact Hnotin.
          - specialize (Hfuel eq_refl). rewrite length_app in *. cbn [length] in *. lia. }
        split; [lone | split; [|split; [discriminate|split]]].
        -- intros _. eapply Hrest; [reflexivity | rewrite update_other by assumption; exact H0 |].
           intros x Hx. others x Hx. reflexivity.
        -- intros x r Hx Hr. kept f x r Hr.
        -- intros x Hx Hpx. framed x Hx Hpx.
  - (* in the middle *)
    rewrite last_of_app in Hn. cbn [last_of last hd_error] in Hn.
    assert (Hsb : siblings f par (l1 ++ b :: n :: c :: l2)) by (now rewrite <- app_assoc in Hs).
    destruct (siblings_at _ _ _ _ _ Hsb) as (cb & Hb & _ & _). cbn [hd_error] in Hb.
    assert (Hsc : siblings f par (((l1 ++ [b]) ++ [n]) ++ c :: l2))
      by (now rewrite <- (app_assoc _ [n])).
    destruct (siblings_at _ _ _ _ _ Hsc) as (cc & Hc & _ & _).
    rewrite last_of_app in Hc. cbn [last_of last hd_error] in Hc.
    assert (Hbn : b <> n) by (intros ->; apply Hnotin; in_list).
    assert (Hcn : c <> n) by (intros ->; apply Hnotin; in_list).
    assert (Hbc : b <> c) by (apply (NoDup_app_neq _ _ _ _ Hnd'); in_list).
    assert (Hrest : forall g, (forall x, In x ((l1 ++ [b]) ++ c :: l2) -> g x =
                       update c (set_prev (Some b)
                         {| parent := par; next := hd_error l2; prev := Some n; child := cc |})
                         (update b (set_next (Some c)
                            {| parent := par; next := Some n;
                               prev := last_of (Some (last (b :: n :: c :: l2) b)) l1;
                               child := cb |}) f) x) ->
                     siblings g par ((l1 ++ [b]) ++ c :: l2)).
    { intros g Hg. split; [exact Hnd' | split; [now destruct l1|]].
      assert (E1 : last_of None ((l1 ++ [b]) ++ c :: l2) = Some (last (n :: c :: l2) n)).
      { rewrite last_of_app. cbn [last_of]. f_equal.
        change (last (n :: c :: l2) n) with (last (c :: l2) n). apply last_default. }
      assert (E2 : hd_error ((l1 ++ [b]) ++ c :: l2) = hd_error ((l1 ++ [b]) ++ n :: c :: l2))
        by (now destruct l1).
      rewrite E1, E2.
      now apply (siblings_bridge f g _ _ _ l1 l2 b c n _ _ Hnd' H1 H2 Hb Hc). }
    destruct (hd_error_app l1 (n :: c :: l2) b) as (x0 & Hx0 & Hin0).
    assert (H0n : x0 <> n) by (intros ->; apply Hnotin; revert Hin0; in_list).
    destruct par as [p|].
    + destruct Hparent as (Hpn & Hp1 & Hp2 & (pp & pn & pv & Hp) & Hchildren).
      assert (Hpb : p <> b) by (intros ->; apply Hp1; in_list).
      assert (Hpc : p <> c) by (intros ->; apply Hp2; in_list).
      rewrite Hx0 in Hp.
      eexists. split; [start; exec; reflexivity|].
      split; [lone | split; [|split; [|split]]].
      * intros _. apply Hrest. intros x Hx. others x Hx. reflexivity.
      * intros p0 r [= <-] Hr. rewrite Hp in Hr. injection Hr as <-. exec.
        f_equal. unfold set_child. cbn. f_equal. rewrite <- Hx0. now destruct l1.
      * intros x r Hx Hr. kept f x r Hr.
      * intros x Hx Hpx. framed x Hx Hpx.
    + eexists. split; [start; exec; reflexivity|].
      split; [lone | split; [|split; [discriminate|split]]].
      * intros _. apply Hrest. intros x Hx. others x Hx. reflexivity.
      * intros x r Hx Hr. kept f x r Hr.
      * intros x Hx Hpx. framed x Hx Hpx.
Qed.

Lemma first_from_round (g : address -> option lyd_node) (u : list address)
    (n b : address) (rb : lyd_node) (fuel : nat) :
  g b = Some rb -> prev rb = Some b -> b <> n ->
  first_from fuel (Some b) n {| nodes := g; unlinked := u |} = Starved.
Proof.
  intros Hb Hprev Hbn. induction fuel as [|fuel IH]; [reflexivity|].
  cbn [first_from]. unfold bind at 1, read at 1. cbn [nodes]. rewrite Hb, Hprev.
  cbn [same]. apply N.eqb_neq in Hbn. rewrite Hbn. exact IH.
Qed.

(** X25: [lyd_unlink_tree] where it does not unlink.  For the null
    pointer it returns [LY_EINVAL] and touches nothing.  On a node whose
    [prev] is null, as in a node that was zeroed and never linked, the
    read of [node->prev->next] is undefined.  On a node of a list in
    order whose parent has no [child] member, [lyd_node_children_p]
    returning the null pointer, the read of [*first_sibling] is
    undefined.  On a last node at the top level whose [prev] leads to a
    node that points back to itself, the search for the first sibling
    goes round without end. *)
Theorem unlink_tree_misuse (f : address -> option lyd_node) (u : list address) (fuel : nat) :
  lyd_unlink_tree lyd_node_children_p fuel None {| nodes := f; unlinked := u |} =
    Done (LY_EINVAL, {| nodes := f; unlinked := u |}) /\
  (forall n r,
     f n = Some r -> prev r = None ->
     (forall q m, exists c, lyd_node_children_p q m = Done (c, m)) ->
     lyd_unlink_tree lyd_node_children_p fuel (Some n) {| nodes := f; unlinked := u |} =
       Undefined) /\
  (forall p l1 n l2,
     siblings f (Some p) (l1 ++ n :: l2) ->
     (forall m, lyd_node_children_p (Some p) m = Done (None, m)) ->
     lyd_unlink_tree lyd_node_children_p fuel (Some n) {| nodes := f; unlinked := u |} =
       Undefined) /\
  (forall n b rn rb,
     f n = Some rn -> parent rn = None -> next rn = None -> prev rn = Some b ->
     b <> n -> f b = Some rb -> prev rb = Some b ->
     lyd_unlink_tree lyd_node_children_p fuel (Some n) {| nodes := f; unlinked := u |} =
       Starved).
Proof.
  split; [reflexivity|]. split; [|split].
  - intros n r Hn Hprev Hpure.
    destruct r as [rp rn rv rc]. cbn [prev] in Hprev. subst rv.
    destruct rp as [q|]; start; exec; [|reflexivity].
    destruct (Hpure (Some q) {| nodes := f; unlinked := u |}) as (c & ->).
    exec. reflexivity.
  - intros p l1 n l2 Hs Hchildren. pose proof Hs as (Hnd & _ & _).
    pose proof (NoDup_remove_1 _ _ _ Hnd) as Hnd'.
    pose proof (NoDup_remove_2 _ _ _ Hnd) as Hnotin.
    destruct (siblings_at _ _ _ _ _ Hs) as (cn & Hn & H1 & H2).
    destruct l1 as [|b l1 _] using rev_ind; destruct l2 as [|c l2].
    + cbn [last_of last hd_error app] in *. start. exec. reflexivity.
    + cbn [last_of hd_error app] in *.
      change (last (n :: c :: l2) n) with (last (c :: l2) n) in *.
      rewrite (last_default c n c) in *.
      destruct (siblings_last _ _ _ _ _ _ H2) as (pz & vz & cz & Hz).
      set (z := last (c :: l2) c) in *.
      assert (Hsc : siblings f (Some p) ([n] ++ c :: l2)) by exact Hs.
      destruct (siblings_at _ _ _ _ _ Hsc) as (cc & Hc & _ & _).
      assert (Hcn : c <> n) by (intros ->; apply Hnotin; in_list).
      start. exec. reflexivity.
    + rewrite last_of_app in Hn. cbn [last_of last hd_error] in Hn.
      assert (Hsb : siblings f (Some p) (l1 ++ [b; n]))
        by (now rewrite <- app_assoc in Hs).
      destruct (siblings_at _ _ _ _ _ Hsb) as (cb & Hb & _ & _). cbn [hd_error] in Hb.
      assert (Hbn : b <> n) by (intros ->; apply Hnotin; in_list).
      start. exec. reflexivity.
    + rewrite last_of_app in Hn. cbn [last_of last hd_error] in Hn.
      assert (Hsb : siblings f (Some p) (l1 ++ b :: n :: c :: l2))
        by (now rewrite <- app_assoc in Hs).
      destruct (siblings_at _ _ _ _ _ Hsb) as (cb & Hb & _ & _). cbn [hd_error] in Hb.
      assert (Hsc : siblings f (Some p) (((l1 ++ [b]) ++ [n]) ++ c :: l2))
        by (now rewrite <- (app_assoc _ [n])).
      destruct (siblings_at _ _ _ _ _ Hsc) as (cc & Hc & _ & _).
      assert (Hbn : b <> n) by (intros ->; apply Hnotin; in_list).
      assert (Hcn : c <> n) by (intros ->; apply Hnotin; in_list).
      assert (Hbc : b <> c) by (apply (NoDup_app_neq _ _ _ _ Hnd'); in_list).
      start. exec. reflexivity.
  - intros n b rn rb Hn Hparent Hnext Hprev Hbn Hb Hback.
    destruct rn as [np nn nv nc]. cbn [parent next prev] in *. subst np nn nv.
    destruct rb as [bp bn bv bc]. cbn [prev] in Hback. subst bv.
    start. exec. destruct bn as [x|].
    + exec. erewrite first_from_round; [reflexivity | apply update_same | reflexivity | exact Hbn].
    + exec. erewrite first_from_round; [reflexivity | exact Hb | reflexivity | exact Hbn].
Qed.

(** X26: [lyd_unlink_tree] on a node that is alone at the top level, as
    the call itself leaves a node: the call returns success, calls
    [lyd_unlink_hash] for no node and leaves every node as it was.  So
    a node can be unlinked again. *)
Theorem lone_node_unlinked_again (f : address -> option lyd_node) (u : list address)
    (n : address) (fuel : nat) :
  siblings f None [n] -> (0 < fuel)%nat ->
  exists f',
    lyd_unlink_tree lyd_node_children_p fuel (Some n) {| nodes := f; unlinked := u |} =
      Done (LY_SUCCESS, {| nodes := f'; unlinked := u |}) /\
    forall x, f' x = f x.
Proof.
  intros Hs Hfuel.
  destruct (siblings_at f None [] [] n Hs) as (cn & Hn & _ & _).
  cbn [last_of last hd_error] in Hn.
  destruct fuel as [|fuel]; [lia|].
  eexists. split; [start; cbn [first_from]; start; exec; reflexivity|].
  intros x. destruct (N.eq_dec x n) as [->|Hx].
  - rewrite update_same. now rewrite Hn.
  - now rewrite !update_other by assumption.
Qed.

End Unlink.

(** X24 at the family of the parent at 1 with the children at 10, 11 and
    12: the child at 11 is unlinked, 10 and 12 are left. *)
Lemma node_unlinked_from_siblings_witness :
  exists f',
    Node.lyd_unlink_tree Node.child_member 0 (Some 11) Node.family =
      Done (LY_SUCCESS, {| Node.nodes := f'; Node.unlinked := [11] |}) /\
    Node.siblings f' None [11] /\
    Node.siblings f' (Some 1) [10; 12].
Proof.
  destruct (node_unlinked_from_siblings Node.child_member (Node.nodes Node.family) []
              (Some 1) [10] 11 [12] 0) as (f' & Hrun & Hlone & Hrest & _).
  - split; [repeat constructor; cbn; intuition discriminate | split; [discriminate|]].
    repeat (eapply Node.segment_cons; [reflexivity | reflexivity | reflexivity |]).
    constructor.
  - split; [cbn; intuition discriminate | split; [|reflexivity]].
    eexists. split; reflexivity.
  - discriminate.
  - exists f'. split; [exact Hrun | split; [exact Hlone | apply Hrest; discriminate]].
Defined.

(** X25 at the same family, the parent being a node without a [child]
    member. *)
Lemma unlink_tree_misuse_witness :
  Node.lyd_unlink_tree (fun _ => Node.ret None) 0 (Some 11) Node.family = Undefined.
Proof.
  apply (proj1 (proj2 (proj2 (unlink_tree_misuse (fun _ => Node.ret None)
                                (Node.nodes Node.family) [] 0))) 1 [10] 11 [12]).
  - split; [repeat constructor; cbn; intuition discriminate | split; [discriminate|]].
    repeat (eapply Node.segment_cons; [reflexivity | reflexivity | reflexivity |]).
    constructor.
  - reflexivity.
Defined.

(** X26 at the parent of the family, alone at the top level. *)
Lemma lone_node_unlinked_again_witness :
  exists f',
    Node.lyd_unlink_tree Node.child_member 1 (Some 1) Node.family =
      Done (LY_SUCCESS, {| Node.nodes := f'; Node.unlinked := [] |}) /\
    forall x, f' x = Node.nodes Node.family x.
Proof.
  apply (lone_node_unlinked_again Node.child_member (Node.nodes Node.family) [] 1 1).
  - split; [repeat constructor; intros [] | split; [discriminate|]].
    eapply Node.segment_cons; [reflexivity | reflexivity | reflexivity | constructor].
  - lia.
Defined.
